(** * brownie.datastructures: a shallow embedding and its verified properties

    The containers of [brownie/datastructures/__init__.py] are embedded as
    executable Rocq definitions, one module per class family:

    - [Counter]          the counting multiset and its algebra;
    - [MultiDict]        the multi-value mapping over a store of list objects;
    - [CombinedSequence] the view over several sequences;
    - [NamedTuple]       the record factory and its generated [_make];
    - [OrderedDict]      the insertion-ordered mapping over a heap of links;
    - [Immutable]        the immutable mixins, with method resolution;
    - [LazyList]         the lazily realised list.

    Python dictionaries are finite maps ([gmap]); objects that are shared and
    mutated (value lists, link nodes) live in an explicit store indexed by
    addresses; a raised exception is a value of [exn]. *)

From Stdlib Require Import ZArith Lia.
From stdpp Require Import gmap strings list fin_maps pretty.

Open Scope Z_scope.

#[global] Set Warnings "-clear-no-such-hyp".

(** ** Exceptions and results *)

(** The exceptions the modelled code raises.  [TypeError] carries its
    message, because some properties are about the message. *)
Inductive exn : Type :=
  | KeyError
  | IndexError
  | StopIteration
  | TypeError (msg : string)
  | ValueError (msg : string)
  | SyntaxError.

(** The outcome of a call: a returned value or a raised exception. *)
Inductive result (A : Type) : Type :=
  | Ok (a : A)
  | Raise (e : exn).
Arguments Ok {A} a.
Arguments Raise {A} e.

(** Sequencing in the style of stdpp's option monad: [x ← r; k] runs [k]
    on the value [r] returned and passes on the exception it raised. *)
#[global] Instance result_ret : MRet result := λ A a, Ok a.
#[global] Instance result_bind : MBind result := λ A B k r,
  match r with
  | Ok a => k a
  | Raise e => Raise e
  end.

(** ** Python lists *)

Section pylist.
Context {A : Type}.

(** [sequence[index]] on a Python list: a negative index counts from the
    end, an index outside the list raises. *)
Definition list_getitem (sequence : list A) (index : Z) : result A :=
  let n := Z.of_nat (length sequence) in
  let i := if decide (index < 0) then index + n else index in
  if decide (0 ≤ i < n) then
    match sequence !! Z.to_nat i with
    | Some x => Ok x
    | None => Raise IndexError
    end
  else Raise IndexError.

Lemma list_getitem_nonneg (sequence : list A) (i : nat) x :
  sequence !! i = Some x → list_getitem sequence (Z.of_nat i) = Ok x.
Proof.
  intros Hx. pose proof (lookup_lt_Some _ _ _ Hx) as Hlt.
  unfold list_getitem. cbv zeta.
  destruct (decide (Z.of_nat i < 0)) as [|_]; [lia|].
  rewrite decide_True by lia. by rewrite Nat2Z.id, Hx.
Qed.

Lemma list_getitem_past_end (sequence : list A) (index : Z) :
  Z.of_nat (length sequence) ≤ index →
  list_getitem sequence index = Raise IndexError.
Proof.
  intros Hle. unfold list_getitem. cbv zeta.
  destruct (decide (index < 0)) as [|_]; [lia|].
  by rewrite decide_False by lia.
Qed.
End pylist.

(** ** Counter *)

Module Counter.
Section counter.
Context {E : Type} `{Countable E}.

(** A counter is a [dict] from elements to integer counts; nothing stops
    a caller from storing zero or negative counts. *)
Definition t : Type := gmap E Z.

(** [Counter()]: [update(None)] iterates over the empty list. *)
Definition empty : gmap E Z := ∅.

(** [self[element]]: [dict.__getitem__] falls back on [__missing__],
    which returns 0 and stores nothing. *)
Definition __missing__ (key : E) : Z := 0.

Definition getitem (self : gmap E Z) (element : E) : Z :=
  match self !! element with
  | Some count => count
  | None => __missing__ element
  end.

(** [len(self)] *)
Definition len (self : gmap E Z) : nat := size self.

(** [set(self) | set(other)], in the order the loop meets its elements. *)
Definition set_union (self other : gmap E Z) : list E :=
  elements (dom self ∪ dom other).

(** [for element in self] *)
Definition iter (self : gmap E Z) : list E := (map_to_list self).*1.

(** The value a method returns: a counter, Python's [None] when the body
    ends without a [return], or [NotImplemented], by which an operator
    declines its operand. *)
Inductive ret : Type :=
  | RCounter (c : gmap E Z)
  | RNone
  | RNotImplemented.

(** The right operand of [*], as far as [isinstance(other, int)] tells
    operands apart: an [int] (a [bool] is one) with its value, a [long]
    with its value, or an object of any other type.  The platform bounds
    the values an [int] has; the operator does not look at the bound, and
    a product that exceeds it is a [long]. *)
Inductive scalar : Type :=
  | an_int (n : Z)
  | a_long (n : Z)
  | another_object.

Definition __add__ (self other : gmap E Z) : ret :=
  let result :=
    foldl (λ (result : gmap E Z) element,
             let newcount := getitem self element + getitem other element in
             if decide (newcount > 0) then <[element := newcount]> result
             else result)
          empty (set_union self other) in
  RCounter result.

(** The loop fills [result]; the body then ends, without returning it. *)
Definition __sub__ (self other : gmap E Z) : ret :=
  let result :=
    foldl (λ (result : gmap E Z) element,
             let newcount := getitem self element - getitem other element in
             if decide (newcount > 0) then <[element := newcount]> result
             else result)
          empty (set_union self other) in
  RNone.

Definition __mul__ (self : gmap E Z) (other : scalar) : ret :=
  match other with
  | an_int other =>
      let result :=
        foldl (λ (result : gmap E Z) element,
                 let newcount := getitem self element * other in
                 if decide (newcount > 0) then <[element := newcount]> result
                 else result)
              empty (iter self) in
      RCounter result
  | a_long _ | another_object =>
      (* if not isinstance(other, int): return NotImplemented *)
      RNotImplemented
  end.

Definition __or__ (self other : gmap E Z) : ret :=
  let result :=
    foldl (λ (result : gmap E Z) element,
             let newcount := Z.max (getitem self element) (getitem other element) in
             if decide (newcount > 0) then <[element := newcount]> result
             else result)
          empty (set_union self other) in
  RCounter result.

(** [ifilter(self.__contains__, other)] after the operands were swapped so
    that [self] is the one with at least as many entries. *)
Definition __and__ (self other : gmap E Z) : ret :=
  let '(self, other) :=
    if decide (len self < len other)%nat then (other, self) else (self, other) in
  let result :=
    foldl (λ (result : gmap E Z) element,
             let newcount := Z.min (getitem self element) (getitem other element) in
             if decide (newcount > 0) then <[element := newcount]> result
             else result)
          empty (filter (λ element, is_Some (self !! element)) (iter other)) in
  RCounter result.

(** *** The loop shared by the operators *)

Definition keep_positive (f : E → Z) (result : gmap E Z) (element : E) : gmap E Z :=
  if decide (f element > 0) then <[element := f element]> result else result.

Lemma foldl_keep_positive f els acc e :
  foldl (keep_positive f) acc els !! e =
    if decide (e ∈ els ∧ f e > 0) then Some (f e) else acc !! e.
Proof.
  revert acc. induction els as [|x els IH]; intros acc; simpl; [done|].
  rewrite IH. unfold keep_positive.
  destruct (decide (e ∈ els ∧ f e > 0)) as [[Hin Hpos]|Hno].
  - rewrite decide_True; [done|]. split; [by right|done].
  - destruct (decide (f x > 0)) as [Hx|Hx].
    + destruct (decide (x = e)) as [->|Hne].
      * rewrite lookup_insert_eq, decide_True; [done|]. split; [by left|done].
      * rewrite lookup_insert_ne by done.
        rewrite decide_False; [done|].
        intros [Hin Hpos]. apply elem_of_cons in Hin as [->|Hin]; [done|].
        by apply Hno.
    + rewrite decide_False; [done|].
      intros [Hin Hpos]. apply elem_of_cons in Hin as [->|Hin]; [done|].
      by apply Hno.
Qed.

Lemma foldl_keep_positive_empty f els e :
  (f e > 0 → e ∈ els) →
  foldl (keep_positive f) ∅ els !! e =
    if decide (f e > 0) then Some (f e) else None.
Proof.
  intros Hin. rewrite foldl_keep_positive, lookup_empty.
  destruct (decide (f e > 0)) as [Hpos|Hpos].
  - rewrite decide_True; [done|]. split; [by apply Hin|done].
  - rewrite decide_False; [done|]. by intros [_ ?].
Qed.

Lemma elem_of_set_union self other e :
  e ∈ set_union self other ↔ is_Some (self !! e) ∨ is_Some (other !! e).
Proof.
  unfold set_union. rewrite elem_of_elements, elem_of_union, !elem_of_dom. done.
Qed.

Lemma elem_of_iter (self : gmap E Z) e : e ∈ iter self ↔ is_Some (self !! e).
Proof.
  unfold iter. rewrite list_elem_of_fmap. split.
  - intros [[k v] [-> Hin]]. apply elem_of_map_to_list in Hin. by exists v.
  - intros [v Hv]. exists (e, v). split; [done|]. by apply elem_of_map_to_list.
Qed.

Lemma getitem_absent (self : gmap E Z) e : self !! e = None → getitem self e = 0.
Proof. unfold getitem. by intros ->. Qed.

(** *** What the four returning operators compute *)

(** [c1 + c2] holds exactly the elements whose summed count is positive. *)
Lemma add_spec (c1 c2 : gmap E Z) :
  ∃ r, __add__ c1 c2 = RCounter r ∧
       ∀ e, r !! e = if decide (getitem c1 e + getitem c2 e > 0)
                     then Some (getitem c1 e + getitem c2 e) else None.
Proof.
  eexists. split; [reflexivity|]. intros e.
  apply (foldl_keep_positive_empty (λ x, getitem c1 x + getitem c2 x)).
  intros Hpos. apply elem_of_set_union.
  destruct (c1 !! e) eqn:E1; [by left; eexists|].
  destruct (c2 !! e) eqn:E2; [by right; eexists|].
  rewrite !getitem_absent in Hpos by done. lia.
Qed.

(** [c1 | c2] holds exactly the elements whose larger count is positive. *)
Lemma or_spec (c1 c2 : gmap E Z) :
  ∃ r, __or__ c1 c2 = RCounter r ∧
       ∀ e, r !! e = if decide (Z.max (getitem c1 e) (getitem c2 e) > 0)
                     then Some (Z.max (getitem c1 e) (getitem c2 e)) else None.
Proof.
  eexists. split; [reflexivity|]. intros e.
  apply (foldl_keep_positive_empty (λ x, Z.max (getitem c1 x) (getitem c2 x))).
  intros Hpos. apply elem_of_set_union.
  destruct (c1 !! e) eqn:E1; [by left; eexists|].
  destruct (c2 !! e) eqn:E2; [by right; eexists|].
  rewrite !getitem_absent in Hpos by done. lia.
Qed.

(** [c * n] for an [int] [n] holds exactly the elements whose multiplied
    count is positive. *)
Lemma mul_spec (c : gmap E Z) (n : Z) :
  ∃ r, __mul__ c (an_int n) = RCounter r ∧
       ∀ e, r !! e = if decide (getitem c e * n > 0)
                     then Some (getitem c e * n) else None.
Proof.
  eexists. split; [reflexivity|]. intros e.
  apply (foldl_keep_positive_empty (λ x, getitem c x * n)).
  intros Hpos. apply elem_of_iter.
  destruct (c !! e) eqn:E1; [by eexists|].
  rewrite !getitem_absent in Hpos by done. lia.
Qed.

Lemma and_loop_spec (big small : gmap E Z) e :
  foldl (keep_positive (λ x, Z.min (getitem big x) (getitem small x))) ∅
        (filter (λ element, is_Some (big !! element)) (iter small)) !! e =
    if decide (is_Some (big !! e) ∧ is_Some (small !! e)
               ∧ Z.min (getitem big e) (getitem small e) > 0)
    then Some (Z.min (getitem big e) (getitem small e)) else None.
Proof.
  rewrite foldl_keep_positive, lookup_empty.
  destruct (decide (is_Some (big !! e) ∧ is_Some (small !! e)
                    ∧ Z.min (getitem big e) (getitem small e) > 0))
    as [(Hb & Hs & Hpos)|Hno].
  - rewrite decide_True; [done|]. split; [|done].
    apply list_elem_of_filter. split; [done|]. by apply elem_of_iter.
  - rewrite decide_False; [done|]. intros [Hin Hpos]. apply Hno.
    apply list_elem_of_filter in Hin as [Hb Hin]. apply elem_of_iter in Hin.
    done.
Qed.

(** [c1 & c2] holds exactly the elements stored in both operands whose
    smaller count is positive. *)
Lemma and_spec (c1 c2 : gmap E Z) :
  ∃ r, __and__ c1 c2 = RCounter r ∧
       ∀ e, r !! e =
              if decide (is_Some (c1 !! e) ∧ is_Some (c2 !! e)
                         ∧ Z.min (getitem c1 e) (getitem c2 e) > 0)
              then Some (Z.min (getitem c1 e) (getitem c2 e)) else None.
Proof.
  unfold __and__. destruct (decide (len c1 < len c2)%nat).
  - eexists. split; [reflexivity|]. intros e.
    etrans; [apply (and_loop_spec c2 c1)|].
    rewrite (Z.min_comm (getitem c2 e)).
    destruct (decide (is_Some (c1 !! e) ∧ _)) as [(?&?&?)|Hno].
    + by rewrite decide_True.
    + rewrite decide_False; [done|]. intros (?&?&?). by apply Hno.
  - eexists. split; [reflexivity|]. intros e. apply (and_loop_spec c1 c2).
Qed.

(** The difference never returns the counter it built. *)
Lemma sub_returns_none (c1 c2 : gmap E Z) : __sub__ c1 c2 = RNone.
Proof. reflexivity. Qed.

(** *** Counting: [update], the constructor and [elements] *)

(** What [update] and the constructor accept as [countable]: an iterable
    of elements, or an object with [iteritems] that maps elements to
    counts. *)
Inductive countable : Type :=
  | elements_of (l : list E)
  | counts_of (m : gmap E Z).

(** [get(key, default=0)] *)
Definition get (self : gmap E Z) (key : E) (default : Z) : Z :=
  match self !! key with
  | Some count => count
  | None => default
  end.

(** [update(countable, **kwargs)]; the keyword arguments arrive as the
    pairs of [kwargs.iteritems()], and [None] stands for [countable] left
    out, which [countable or []] turns into the empty list. *)
Definition update (self : gmap E Z) (countable : option countable)
    (kwargs : list (E * Z)) : gmap E Z :=
  let mappings :=
    [match countable with
     | None => []
     | Some (elements_of l) => (λ element, (element, 1)) <$> l
     | Some (counts_of m) => map_to_list m
     end; kwargs] in
  foldl (λ self mapping,
           foldl (λ self '(element, count),
                    <[element := get self element 0 + count]> self)
                 self mapping)
        self mappings.

(** [Counter(countable, **kwargs)] *)
Definition __init__ (countable : option countable) (kwargs : list (E * Z))
  : gmap E Z :=
  update ∅ countable kwargs.

(** [elements()]: [repeat(element, count)] for every item, chained;
    [repeat] yields nothing for a count that is not positive. *)
Definition elements_iter (self : gmap E Z) : list E :=
  concat ((λ '(element, count), replicate (Z.to_nat count) element)
            <$> map_to_list self).

(** The count a sequence of [(element, count)] pairs contributes to [e]. *)
Definition contributed (e : E) (pairs : list (E * Z)) : Z :=
  foldr (λ '(element, count) acc, if decide (element = e) then count + acc else acc)
        0 pairs.

(** How often [e] occurs in a list. *)
Definition occurrences (e : E) (l : list E) : nat := length (filter (λ x, x = e) l).

Lemma get_getitem (self : gmap E Z) e : get self e 0 = getitem self e.
Proof. unfold get, getitem, __missing__. by destruct (self !! e). Qed.

Lemma update_pairs_getitem (self : gmap E Z) (pairs : list (E * Z)) e :
  getitem (foldl (λ self '(element, count),
                    <[element := get self element 0 + count]> self) self pairs) e
  = getitem self e + contributed e pairs.
Proof.
  revert self. induction pairs as [|[x c] pairs IH]; intros self; simpl.
  - lia.
  - rewrite IH. destruct (decide (x = e)) as [->|Hne].
    + unfold getitem at 1. rewrite lookup_insert_eq, get_getitem. lia.
    + unfold getitem at 1. rewrite lookup_insert_ne by done.
      fold (getitem self e). lia.
Qed.

Lemma contributed_ones e (l : list E) :
  contributed e ((λ element, (element, 1)) <$> l) = Z.of_nat (occurrences e l).
Proof.
  unfold occurrences. induction l as [|x l IH]; [done|].
  rewrite fmap_cons. cbn [contributed foldr]. fold (contributed e ((λ element, (element, 1)) <$> l)).
  rewrite IH. destruct (decide (x = e)) as [->|Hne].
  - rewrite filter_cons_True by done. simpl. lia.
  - by rewrite filter_cons_False by done.
Qed.

Lemma contributed_map_to_list e (m : gmap E Z) :
  contributed e (map_to_list m) = getitem m e.
Proof.
  pose proof (NoDup_fst_map_to_list m) as Hnd.
  assert (∀ c, (e, c) ∈ map_to_list m ↔ m !! e = Some c) as Hin
    by (intros c; apply elem_of_map_to_list).
  unfold getitem, __missing__.
  destruct (m !! e) as [c|] eqn:Hm.
  - specialize (Hin c). destruct Hin as [_ Hin]. specialize (Hin eq_refl).
    clear Hm. induction (map_to_list m) as [|[x d] l IH]; [by apply elem_of_nil in Hin|].
    rewrite fmap_cons in Hnd. apply NoDup_cons in Hnd as [Hx Hnd]. simpl in *.
    apply elem_of_cons in Hin as [[= <- <-]|Hin].
    + rewrite decide_True by done.
      assert (contributed e l = 0) as ->; [|lia].
      clear IH. induction l as [|[y d'] l IH]; [done|]. simpl.
      rewrite fmap_cons in Hx, Hnd. apply NoDup_cons in Hnd as [_ Hnd].
      rewrite decide_False by (intros ->; apply Hx; by left).
      apply IH; [|done]. intros Hin. apply Hx. by right.
    + rewrite decide_False; [by apply IH|].
      intros ->. apply Hx. apply list_elem_of_fmap. by exists (e, c).
  - assert (∀ c, (e, c) ∉ map_to_list m) as Hout.
    { intros c Hc. apply Hin in Hc. congruence. }
    clear Hin Hnd Hm. induction (map_to_list m) as [|[x d] l IH]; [done|]. simpl.
    rewrite decide_False.
    + apply IH. intros c Hc. apply (Hout c). by right.
    + intros ->. apply (Hout d). by left.
Qed.

(** X3 below rests on this: [update] adds to the count of every element
    what the countable and the keyword arguments contribute. *)
Lemma update_getitem (self : gmap E Z) countable kwargs e :
  getitem (update self countable kwargs) e
  = getitem self e
    + match countable with
      | None => 0
      | Some (elements_of l) => Z.of_nat (occurrences e l)
      | Some (counts_of m) => getitem m e
      end
    + contributed e kwargs.
Proof.
  unfold update. cbn [foldl]. rewrite !update_pairs_getitem.
  destruct countable as [[l|m]|].
  - by rewrite contributed_ones.
  - by rewrite contributed_map_to_list.
  - done.
Qed.

Lemma occurrences_app e (l1 l2 : list E) :
  occurrences e (l1 ++ l2) = (occurrences e l1 + occurrences e l2)%nat.
Proof. unfold occurrences. by rewrite filter_app, length_app. Qed.

Lemma occurrences_replicate e x (n : nat) :
  occurrences e (replicate n x) = if decide (x = e) then n else 0%nat.
Proof.
  unfold occurrences. induction n as [|n IH]; simpl.
  - by destruct (decide (x = e)).
  - destruct (decide (x = e)) as [->|Hne].
    + rewrite filter_cons_True by done. simpl. by rewrite IH.
    + by rewrite filter_cons_False by done.
Qed.

Lemma occurrences_elements_iter (self : gmap E Z) e :
  occurrences e (elements_iter self) = Z.to_nat (getitem self e).
Proof.
  unfold elements_iter.
  pose proof (NoDup_fst_map_to_list self) as Hnd.
  assert (∀ c, (e, c) ∈ map_to_list self ↔ self !! e = Some c) as Hin
    by (intros c; apply elem_of_map_to_list).
  unfold getitem, __missing__.
  destruct (self !! e) as [c|] eqn:Hm.
  - specialize (Hin c). destruct Hin as [_ Hin]. specialize (Hin eq_refl).
    clear Hm. induction (map_to_list self) as [|[x d] l IH]; [by apply elem_of_nil in Hin|].
    rewrite fmap_cons in Hnd. apply NoDup_cons in Hnd as [Hx Hnd].
    rewrite fmap_cons. cbn [concat fst] in *.
    rewrite occurrences_app, occurrences_replicate.
    apply elem_of_cons in Hin as [[= <- <-]|Hin].
    + rewrite decide_True by done.
      assert (occurrences e (concat ((λ '(element, count),
                replicate (Z.to_nat count) element) <$> l)) = 0%nat) as ->; [|lia].
      clear IH. induction l as [|[y d'] l IH]; [done|].
      rewrite fmap_cons in Hx, Hnd. apply NoDup_cons in Hnd as [_ Hnd].
      rewrite fmap_cons. cbn [concat fst] in *.
      rewrite occurrences_app, occurrences_replicate.
      rewrite decide_False by (intros ->; apply Hx; by left).
      apply IH; [|done]. intros Hin. apply Hx. by right.
    + rewrite decide_False; [by apply IH|].
      intros ->. apply Hx. apply list_elem_of_fmap. by exists (e, c).
  - assert (∀ c, (e, c) ∉ map_to_list self) as Hout.
    { intros c Hc. apply Hin in Hc. congruence. }
    clear Hin Hnd Hm. induction (map_to_list self) as [|[x d] l IH]; [done|].
    rewrite fmap_cons. cbn [concat].
    rewrite occurrences_app, occurrences_replicate. rewrite decide_False.
    + apply IH. intros c Hc. apply (Hout c). by right.
    + intros ->. apply (Hout d). by left.
Qed.

Lemma getitem_empty e : getitem (∅ : gmap E Z) e = 0.
Proof. unfold getitem. by rewrite lookup_empty. Qed.

(** X1. The four operators that return, [c1 + c2], [c1 | c2], [c1 & c2] and
    [c * n] for an [int] [n], return a counter whose entries are exactly the
    elements with a positive sum, maximum, minimum (over the elements stored
    in both) or product; no result holds a zero or negative count.  For a
    scalar that is not an [int], a [long] of the same value included, [*]
    declines with [NotImplemented]. *)
Theorem returning_operators_keep_positive_counts (c1 c2 : gmap E Z) (n : Z) :
  (∃ r, __add__ c1 c2 = RCounter r
        ∧ (∀ e, r !! e = if decide (getitem c1 e + getitem c2 e > 0)
                         then Some (getitem c1 e + getitem c2 e) else None)
        ∧ map_Forall (λ _ count, count > 0) r)
  ∧ (∃ r, __or__ c1 c2 = RCounter r
          ∧ (∀ e, r !! e = if decide (Z.max (getitem c1 e) (getitem c2 e) > 0)
                           then Some (Z.max (getitem c1 e) (getitem c2 e)) else None)
          ∧ map_Forall (λ _ count, count > 0) r)
  ∧ (∃ r, __and__ c1 c2 = RCounter r
          ∧ (∀ e, r !! e = if decide (is_Some (c1 !! e) ∧ is_Some (c2 !! e)
                                      ∧ Z.min (getitem c1 e) (getitem c2 e) > 0)
                           then Some (Z.min (getitem c1 e) (getitem c2 e)) else None)
          ∧ map_Forall (λ _ count, count > 0) r)
  ∧ (∃ r, __mul__ c1 (an_int n) = RCounter r
          ∧ (∀ e, r !! e = if decide (getitem c1 e * n > 0)
                           then Some (getitem c1 e * n) else None)
          ∧ map_Forall (λ _ count, count > 0) r)
  ∧ __mul__ c1 (a_long n) = RNotImplemented
  ∧ __mul__ c1 another_object = RNotImplemented.
Proof.
  destruct (add_spec c1 c2) as (r1 & Hr1 & H1).
  destruct (or_spec c1 c2) as (r2 & Hr2 & H2).
  destruct (and_spec c1 c2) as (r3 & Hr3 & H3).
  destruct (mul_spec c1 n) as (r4 & Hr4 & H4).
  repeat split.
  - exists r1. split; [done|]. split; [done|]. intros e c Hc.
    rewrite H1 in Hc. case_decide; naive_solver.
  - exists r2. split; [done|]. split; [done|]. intros e c Hc.
    rewrite H2 in Hc. case_decide; naive_solver.
  - exists r3. split; [done|]. split; [done|]. intros e c Hc.
    rewrite H3 in Hc. case_decide; naive_solver.
  - exists r4. split; [done|]. split; [done|]. intros e c Hc.
    rewrite H4 in Hc. case_decide; naive_solver.
Qed.

(** X2. The sum, the union and the intersection do not depend on the order
    of their operands: [c1 + c2 == c2 + c1], [c1 | c2 == c2 | c1] and
    [c1 & c2 == c2 & c1], whichever operand the intersection scans. *)
Theorem operators_commute (c1 c2 : gmap E Z) :
  __add__ c1 c2 = __add__ c2 c1
  ∧ __or__ c1 c2 = __or__ c2 c1
  ∧ __and__ c1 c2 = __and__ c2 c1.
Proof.
  destruct (add_spec c1 c2) as (r1 & -> & H1).
  destruct (add_spec c2 c1) as (r1' & -> & H1').
  destruct (or_spec c1 c2) as (r2 & -> & H2).
  destruct (or_spec c2 c1) as (r2' & -> & H2').
  destruct (and_spec c1 c2) as (r3 & -> & H3).
  destruct (and_spec c2 c1) as (r3' & -> & H3').
  split; [|split]; f_equal; apply map_eq; intros e.
  - rewrite H1, H1', (Z.add_comm (getitem c2 e)). done.
  - rewrite H2, H2', (Z.max_comm (getitem c2 e)). done.
  - rewrite H3, H3', (Z.min_comm (getitem c2 e)).
    destruct (decide (is_Some (c1 !! e) ∧ _)) as [(?&?&?)|Hno].
    + by rewrite decide_True.
    + rewrite decide_False; [done|]. intros (?&?&?). by apply Hno.
Qed.

(** X3. [update] adds to the count of every element what the countable
    contributes, one per occurrence for an iterable of elements and the
    stored count for a mapping, and what the keyword arguments contribute; a
    counter built from an iterable holds for each element the number of its
    occurrences. *)
Theorem update_adds_contributed_counts (self : gmap E Z) countable kwargs l e :
  getitem (update self countable kwargs) e
  = getitem self e
    + match countable with
      | None => 0
      | Some (elements_of l) => Z.of_nat (occurrences e l)
      | Some (counts_of m) => getitem m e
      end
    + contributed e kwargs
  ∧ getitem (__init__ (Some (elements_of l)) []) e = Z.of_nat (occurrences e l).
Proof.
  split; [apply update_getitem|].
  unfold __init__. rewrite update_getitem, getitem_empty. simpl. lia.
Qed.

(** X4. [elements()] repeats every element as often as its count says and
    leaves out the elements whose count is not positive; counting the
    elements again gives back the positive counts. *)
Theorem elements_repeat_counts (self : gmap E Z) e :
  occurrences e (elements_iter self) = Z.to_nat (getitem self e)
  ∧ getitem (__init__ (Some (elements_of (elements_iter self))) []) e
    = Z.max 0 (getitem self e).
Proof.
  split; [apply occurrences_elements_iter|].
  unfold __init__. rewrite update_getitem, getitem_empty.
  rewrite occurrences_elements_iter. simpl. lia.
Qed.

End counter.

(** C1. The claim promises that every binary operation, the difference
    included, returns a new counter holding the elements with a positive
    result.  At [c1 = Counter({'a': 2})], [c2 = Counter({'a': 1})] the sum,
    the union, the intersection and the scalar product return such a counter,
    but [c1 - c2] returns [None], where the claim promises [Counter({'a': 1})]. *)
Theorem sub_loses_result :
  let c1 : gmap string Z := {[ "a"%string := 2 ]} in
  let c2 : gmap string Z := {[ "a"%string := 1 ]} in
  __add__ c1 c2 = RCounter {[ "a"%string := 3 ]}
  ∧ __or__ c1 c2 = RCounter {[ "a"%string := 2 ]}
  ∧ __and__ c1 c2 = RCounter {[ "a"%string := 1 ]}
  ∧ __mul__ c1 (an_int 3) = RCounter {[ "a"%string := 6 ]}
  ∧ __sub__ c1 c2 = RNone
  ∧ __sub__ c1 c2 ≠ RCounter {[ "a"%string := 1 ]}.
Proof.
  cbv zeta. repeat split; try (vm_compute; reflexivity). discriminate.
Qed.

End Counter.

(** ** MultiDict *)

Module MultiDict.
Section multidict.
Context {K : Type} `{Countable K} {V : Type}.

(** Python lists are objects: [getlist] may hand out the very list a
    mapping stores, and the caller may append to it later.  The store maps
    the address of every list object to its current content; a mapping (the
    [dict] under the mixin) maps each key to the address of its list. *)
Abbreviation store := (gmap positive (list V)).
Abbreviation mdict := (gmap K positive).

(** A new list object with content [l]. *)
Definition alloc (σ : store) (l : list V) : positive * store :=
  let r := fresh (dom σ) in (r, <[r := l]> σ).

(** The content of the list object at [r]. *)
Definition deref (σ : store) (r : positive) : list V := default [] (σ !! r).

(** [r.append(value)], in place. *)
Definition list_append (σ : store) (r : positive) (value : V) : store :=
  alter (λ l, l ++ [value]) r σ.

(** [dict.__getitem__] *)
Definition dict_getitem (d : mdict) (key : K) : result positive :=
  match d !! key with
  | Some r => Ok r
  | None => Raise KeyError
  end.

(** [dict.__init__(arg)] for [arg] a sequence of [(key, list)] pairs: each
    list becomes the object stored under its key. *)
Definition dict_init (arg : list (K * list V)) (σ : store) : mdict * store :=
  foldl (λ '(d, σ) '(key, l), let '(r, σ) := alloc σ l in (<[key := r]> d, σ))
        (∅, σ) arg.

(** What [__init__] and [update] accept as their positional argument. *)
Inductive source : Type :=
  | SMulti (mapping : mdict)                   (* a MultiDict *)
  | SDict (mapping : gmap K (V + list V))      (* a dict; values scalar or list/tuple *)
  | SPairs (mapping : list (K * V)).           (* an iterable of pairs *)

(** [super(MultiDictMixin, self).__getitem__(key)[0]] *)
Definition __getitem__ (self : mdict) (σ : store) (key : K) : result V :=
  r ← dict_getitem self key;
  match deref σ r with
  | value :: _ => Ok value
  | [] => Raise IndexError
  end.

(** [super(MultiDictMixin, self).__setitem__(key, [value])] *)
Definition __setitem__ (self : mdict) (σ : store) (key : K) (value : V)
  : mdict * store :=
  let '(r, σ) := alloc σ [value] in (<[key := r]> self, σ).

(** [super(MultiDictMixin, self).setdefault(key, []).append(value)] *)
Definition add (self : mdict) (σ : store) (key : K) (value : V) : mdict * store :=
  match self !! key with
  | Some r => (self, list_append σ r value)
  | None => let '(r, σ) := alloc σ [] in (<[key := r]> self, list_append σ r value)
  end.

(** [getlist]: the result of [dict.__getitem__] as it is, or a new empty
    list on [KeyError]. *)
Definition getlist (self : mdict) (σ : store) (key : K) : positive * store :=
  match dict_getitem self key with
  | Ok r => (r, σ)
  | Raise _ => alloc σ []
  end.

(** [setlist]: [values] is the caller's list object; [list(values)] is a
    new object with the same content. *)
Definition setlist (self : mdict) (σ : store) (key : K) (values : positive)
  : mdict * store :=
  let '(r, σ) := alloc σ (deref σ values) in (<[key := r]> self, σ).

(** [dict.iteritems()]: the keys with the addresses of their lists. *)
Definition dict_iteritems (self : mdict) : list (K * positive) := map_to_list self.

(** [iteritems(multi)], run to its end: one pair per value when [multi],
    else the key with [values[0]], which raises on an empty list. *)
Fixpoint iteritems_loop (σ : store) (multi : bool) (items : list (K * positive))
  : result (list (K * V)) :=
  match items with
  | [] => Ok []
  | (key, r) :: items =>
      if multi then
        rest ← iteritems_loop σ multi items;
        Ok (((λ value, (key, value)) <$> deref σ r) ++ rest)
      else
        match deref σ r with
        | value :: _ =>
            rest ← iteritems_loop σ multi items;
            Ok ((key, value) :: rest)
        | [] => Raise IndexError
        end
  end.

Definition iteritems (self : mdict) (σ : store) (multi : bool)
  : result (list (K * V)) :=
  iteritems_loop σ multi (dict_iteritems self).

(** [iterlists]: every key with a copy of its list. *)
Definition iterlists (self : mdict) (σ : store) : list (K * list V) :=
  (λ '(key, r), (key, deref σ r)) <$> dict_iteritems self.

(** The module-level [iter_multi_items], run to its end. *)
Definition iter_multi_items (σ : store) (mapping : source) : result (list (K * V)) :=
  match mapping with
  | SMulti mapping => iteritems mapping σ false
  | SDict mapping =>
      Ok (concat ((λ '(key, value),
                     match value with
                     | inr values => (λ value, (key, value)) <$> values
                     | inl value => [(key, value)]
                     end) <$> map_to_list mapping))
  | SPairs mapping => Ok mapping
  end.

(** [update] called with at most one positional argument; the
    keyword arguments arrive as the pairs of [kwargs.iteritems()].  A
    raised exception is modelled without the partly updated mapping. *)
Definition update (self : mdict) (σ : store) (args : option source)
    (kwargs : list (K * V)) : result (mdict * store) :=
  let mappings := [default (SPairs []) args; SPairs kwargs] in
  foldl (λ acc mapping,
           '(self, σ) ← acc;
           items ← iter_multi_items σ mapping;
           Ok (foldl (λ '(self, σ) '(key, value), add self σ key value)
                     (self, σ) items))
        (Ok (self, σ)) mappings.

(** Order-preserving removal of duplicates ([brownie.itools.unique]). *)
Fixpoint unique `{EqDecision A} (l : list A) (seen : list A) : list A :=
  match l with
  | [] => []
  | x :: l => if decide (x ∈ seen) then unique l seen else x :: unique l (x :: seen)
  end.

(** [__init__] called with at most one positional argument and no keyword
    arguments. *)
Definition __init__ (σ : store) (args : option source) : mdict * store :=
  let arg :=
    match args with
    | None => []
    | Some (SMulti mapping) => iterlists mapping σ
    | Some (SDict mapping) =>
        (λ '(key, value),
           match value with
           | inr values => (key, values)
           | inl value => (key, [value])
           end) <$> map_to_list mapping
    | Some (SPairs mapping) =>
        let tmp : gmap K (list V) :=
          foldl (λ tmp '(key, value),
                   <[key := default [] (tmp !! key) ++ [value]]> tmp)
                ∅ mapping in
        (λ key, (key, default [] (tmp !! key))) <$> unique (mapping.*1) []
    end in
  dict_init arg σ.

(** The content of the list the mapping stores for [key]. *)
Definition stored (self : mdict) (σ : store) (key : K) : option (list V) :=
  r ← self !! key; σ !! r.

(** *** Properties *)

Lemma fresh_store_None (σ : store) : σ !! fresh (dom σ) = None.
Proof. apply not_elem_of_dom, is_fresh. Qed.

(** The claim of C5 about [getlist]: whatever the caller appends to the
    list it got, the list the mapping stores stays as it was. *)
Definition getlist_copies (self : mdict) (σ : store) (key : K) : Prop :=
  let '(r, σ1) := getlist self σ key in
  ∀ value, stored self (list_append σ1 r value) key = stored self σ1 key.

(** The claim of C5 about [setlist]: whatever the caller appends to the
    sequence it passed in, the list the mapping stores stays as it was. *)
Definition setlist_copies (self : mdict) (σ : store) (key : K)
    (values : positive) : Prop :=
  let '(self1, σ1) := setlist self σ key values in
  stored self1 σ1 key = σ !! values
  ∧ ∀ value, stored self1 (list_append σ1 values value) key = σ !! values.

Lemma getlist_present (self : mdict) (σ : store) key r :
  self !! key = Some r → getlist self σ key = (r, σ).
Proof. unfold getlist, dict_getitem. by intros ->. Qed.

Lemma getlist_absent (self : mdict) (σ : store) key :
  self !! key = None → getlist self σ key = alloc σ [].
Proof. unfold getlist, dict_getitem. by intros ->. Qed.

Lemma stored_list_append (self : mdict) (σ : store) key r vs value :
  self !! key = Some r → σ !! r = Some vs →
  stored self (list_append σ r value) key = Some (vs ++ [value]).
Proof.
  intros Hk Hr. unfold stored, list_append. rewrite Hk. simpl.
  by rewrite lookup_alter_eq, Hr.
Qed.

Lemma setlist_copies_holds (self : mdict) (σ : store) key values vs :
  σ !! values = Some vs → setlist_copies self σ key values.
Proof.
  intros Hv. unfold setlist_copies, setlist, alloc, stored, list_append, deref.
  rewrite Hv. simpl.
  assert (fresh (dom σ) ≠ values) as Hne.
  { intros <-. by rewrite fresh_store_None in Hv. }
  split.
  - by rewrite lookup_insert_eq; simpl; rewrite lookup_insert_eq.
  - intros value. rewrite lookup_insert_eq. simpl.
    by rewrite lookup_alter_ne, lookup_insert_eq.
Qed.

(** Without a stored list under [key], [getlist] answers with a new
    object the mapping does not hold. *)
Lemma getlist_absent_fresh (self : mdict) (σ : store) key :
  self !! key = None →
  ∃ r, getlist self σ key = (r, <[r := []]> σ) ∧ σ !! r = None.
Proof.
  intros Hk. rewrite getlist_absent by done. eexists. split; [reflexivity|].
  apply fresh_store_None.
Qed.

(** C5, as the code has it.  For a stored key [getlist] returns the stored
    list object itself and allocates nothing, so a value appended to the
    returned list is appended to the list the mapping stores; for a key
    that is not stored it returns a new empty list.  [setlist] stores a
    new list with the content of the sequence passed in, and appending to
    that sequence later does not change what the mapping stores. *)
Theorem getlist_shares_setlist_copies
    (self : mdict) (σ : store) (key : K) (values : positive) (ws : list V) :
  σ !! values = Some ws →
  match self !! key with
  | Some r =>
      getlist self σ key = (r, σ)
      ∧ ∀ vs value, σ !! r = Some vs →
          stored self (list_append σ r value) key = Some (vs ++ [value])
  | None =>
      getlist self σ key = alloc σ [] ∧ σ !! (alloc σ []).1 = None
  end
  ∧ setlist_copies self σ key values.
Proof.
  intros Hv. split; [|by eapply setlist_copies_holds].
  destruct (self !! key) as [r|] eqn:Hk.
  - split; [by apply getlist_present|].
    intros vs value Hr. by apply stored_list_append.
  - split; [by apply getlist_absent|]. apply fresh_store_None.
Qed.

(** *** Well-formed mappings: [add], [update], the constructor, [pop] *)

(** [pop(key, default)]; [default = None] stands for the argument left at
    [missing], and a default is a value, not the stored list object. *)
Definition pop (self : mdict) (σ : store) (key : K) (default : option V)
  : result V * mdict :=
  match self !! key with
  | Some r =>
      (match deref σ r with
       | value :: _ => Ok value
       | [] => Raise IndexError
       end, delete key self)
  | None =>
      (match default with
       | None => Raise KeyError
       | Some default => Ok default
       end, self)
  end.

(** [poplist(key)]: the stored list, removed, or a new empty list. *)
Definition poplist (self : mdict) (σ : store) (key : K) : positive * mdict * store :=
  match self !! key with
  | Some r => (r, delete key self, σ)
  | None => let '(r, σ) := alloc σ [] in (r, self, σ)
  end.

(** Every key holds the address of a list object of the store, and no two
    keys hold the same one. *)
Definition wf (self : mdict) (σ : store) : Prop :=
  (∀ k r, self !! k = Some r → is_Some (σ !! r))
  ∧ (∀ k1 k2 r, self !! k1 = Some r → self !! k2 = Some r → k1 = k2).

(** The values the pairs [items] give for [key], in order. *)
Definition values_for (key : K) (items : list (K * V)) : list V :=
  (filter (λ item, item.1 = key) items).*2.

Lemma values_for_cons key k v items :
  values_for key ((k, v) :: items)
  = if decide (k = key) then v :: values_for key items else values_for key items.
Proof.
  unfold values_for. destruct (decide (k = key)) as [->|Hne].
  - by rewrite filter_cons_True.
  - by rewrite filter_cons_False.
Qed.

Lemma values_for_nil key : values_for key [] = [].
Proof. done. Qed.

Lemma values_for_app key items1 items2 :
  values_for key (items1 ++ items2) = values_for key items1 ++ values_for key items2.
Proof. unfold values_for. by rewrite filter_app, fmap_app. Qed.

Lemma values_for_absent key items : key ∉ items.*1 → values_for key items = [].
Proof.
  induction items as [|[k v] items IH]; [done|]. rewrite fmap_cons. simpl.
  intros Hnotin. rewrite values_for_cons, decide_False.
  - apply IH. intros Hin. apply Hnotin. by right.
  - intros ->. apply Hnotin. by left.
Qed.

Lemma values_for_present key items : key ∈ items.*1 → values_for key items ≠ [].
Proof.
  induction items as [|[k v] items IH]; [by intros Hin; apply elem_of_nil in Hin|].
  rewrite fmap_cons. simpl. intros Hin. rewrite values_for_cons.
  destruct (decide (k = key)) as [->|Hne]; [done|].
  apply IH. by apply elem_of_cons in Hin as [?|?].
Qed.

Lemma wf_empty (σ : store) : wf ∅ σ.
Proof. split; intros *; by rewrite lookup_empty. Qed.

Lemma add_values_for (self : mdict) (σ : store) key value :
  wf self σ →
  wf (add self σ key value).1 (add self σ key value).2
  ∧ stored (add self σ key value).1 (add self σ key value).2 key
    = Some (default [] (stored self σ key) ++ [value])
  ∧ ∀ k, k ≠ key →
      stored (add self σ key value).1 (add self σ key value).2 k = stored self σ k.
Proof.
  intros [Halloc Hinj]. unfold add, stored.
  destruct (self !! key) as [r|] eqn:Hkey; simpl.
  - destruct (Halloc _ _ Hkey) as [l Hl]. split; [|split].
    + split.
      * intros k r' Hk. unfold list_append.
        destruct (decide (r = r')) as [->|Hne].
        -- rewrite lookup_alter_eq, Hl. by eexists.
        -- rewrite lookup_alter_ne by done. by eapply Halloc.
      * done.
    + rewrite Hkey. simpl. unfold list_append. by rewrite lookup_alter_eq, Hl.
    + intros k Hne. destruct (self !! k) as [r'|] eqn:Hk; simpl; [|done].
      unfold list_append. rewrite lookup_alter_ne; [done|].
      intros ->. apply Hne. by eapply Hinj.
  - unfold alloc. simpl. set (r := fresh (dom σ)).
    assert (σ !! r = None) as Hr by apply fresh_store_None.
    split; [|split].
    + split.
      * intros k r' Hk. unfold list_append.
        destruct (decide (key = k)) as [->|Hne].
        -- rewrite lookup_insert_eq in Hk. injection Hk as <-.
           rewrite lookup_alter_eq, lookup_insert_eq. by eexists.
        -- rewrite lookup_insert_ne in Hk by done.
           destruct (Halloc _ _ Hk) as [l Hl].
           assert (r ≠ r') by congruence.
           rewrite lookup_alter_ne, lookup_insert_ne by done. by eexists.
      * intros k1 k2 r' H1 H2.
        destruct (decide (k1 = k2)) as [|Hne12]; [done|]. exfalso.
        destruct (decide (key = k1)) as [<-|Hne1].
        -- rewrite lookup_insert_eq in H1. injection H1 as <-.
           rewrite lookup_insert_ne in H2 by done.
           destruct (Halloc _ _ H2) as [l Hl]. congruence.
        -- rewrite lookup_insert_ne in H1 by done.
           destruct (decide (key = k2)) as [<-|Hne2].
           ++ rewrite lookup_insert_eq in H2. injection H2 as <-.
              destruct (Halloc _ _ H1) as [l Hl]. congruence.
           ++ rewrite lookup_insert_ne in H2 by done. apply Hne12. by eapply Hinj.
    + rewrite lookup_insert_eq. simpl. unfold list_append.
      by rewrite lookup_alter_eq, lookup_insert_eq.
    + intros k Hne. rewrite lookup_insert_ne by done.
      destruct (self !! k) as [r'|] eqn:Hk; simpl; [|done].
      destruct (Halloc _ _ Hk) as [l Hl]. assert (r ≠ r') by congruence.
      unfold list_append. by rewrite lookup_alter_ne, lookup_insert_ne.
Qed.

(** A run of [add] over pairs appends, for every key, the values the pairs
    give for it. *)
Lemma adds_values_for (items : list (K * V)) (self : mdict) (σ : store) :
  wf self σ →
  let r := foldl (λ '(self, σ) '(key, value), add self σ key value) (self, σ) items in
  wf r.1 r.2
  ∧ ∀ k, stored r.1 r.2 k
         = match values_for k items with
           | [] => stored self σ k
           | values => Some (default [] (stored self σ k) ++ values)
           end.
Proof.
  revert self σ. induction items as [|[key value] items IH]; intros self σ Hwf.
  - done.
  - cbn [foldl]. destruct (add_values_for self σ key value Hwf) as (Hwf' & Hkey & Hother).
    destruct (add self σ key value) as [self1 σ1] eqn:Hadd. simpl in *.
    destruct (IH self1 σ1 Hwf') as [Hwf'' Hstored]. split; [done|].
    intros k. rewrite Hstored, values_for_cons.
    destruct (decide (key = k)) as [->|Hne].
    + rewrite Hkey. simpl.
      destruct (values_for k items) as [|v vs]; [done|]. by rewrite <- app_assoc.
    + by rewrite Hother.
Qed.

Lemma dict_init_spec (arg : list (K * list V)) (self : mdict) (σ : store) :
  wf self σ → NoDup arg.*1 →
  let r := foldl (λ '(d, σ) '(key, l), let '(r, σ) := alloc σ l in (<[key := r]> d, σ))
                 (self, σ) arg in
  wf r.1 r.2
  ∧ ∀ k, stored r.1 r.2 k
         = match list_to_map (M := gmap K (list V)) arg !! k with
           | Some l => Some l
           | None => stored self σ k
           end.
Proof.
  revert self σ. induction arg as [|[key l] arg IH]; intros self σ Hwf Hnd.
  - done.
  - rewrite fmap_cons in Hnd. apply NoDup_cons in Hnd as [Hkey Hnd].
    cbn [foldl alloc]. set (r := fresh (dom σ)).
    assert (σ !! r = None) as Hr by apply fresh_store_None.
    destruct Hwf as [Halloc Hinj].
    assert (wf (<[key := r]> self) (<[r := l]> σ)) as Hwf'.
    { split.
      - intros k r' Hk. destruct (decide (key = k)) as [<-|Hne].
        + rewrite lookup_insert_eq in Hk. injection Hk as <-.
          rewrite lookup_insert_eq. by eexists.
        + rewrite lookup_insert_ne in Hk by done.
          destruct (Halloc _ _ Hk) as [l' Hl']. assert (r ≠ r') by congruence.
          rewrite lookup_insert_ne by done. by eexists.
      - intros k1 k2 r' H1 H2.
        destruct (decide (k1 = k2)) as [|Hne12]; [done|]. exfalso.
        destruct (decide (key = k1)) as [<-|Hne1].
        + rewrite lookup_insert_eq in H1. injection H1 as <-.
          rewrite lookup_insert_ne in H2 by done.
          destruct (Halloc _ _ H2) as [l' Hl']. congruence.
        + rewrite lookup_insert_ne in H1 by done.
          destruct (decide (key = k2)) as [<-|Hne2].
          * rewrite lookup_insert_eq in H2. injection H2 as <-.
            destruct (Halloc _ _ H1) as [l' Hl']. congruence.
          * rewrite lookup_insert_ne in H2 by done. apply Hne12. by eapply Hinj. }
    destruct (IH _ _ Hwf' Hnd) as [Hwf'' Hstored]. split; [done|].
    intros k. rewrite Hstored. cbn [list_to_map foldr].
    destruct (decide (key = k)) as [<-|Hne].
    + rewrite lookup_insert_eq.
      rewrite (not_elem_of_list_to_map_1 (M := gmap K) arg key) by done.
      unfold stored. rewrite lookup_insert_eq. simpl. by rewrite lookup_insert_eq.
    + rewrite lookup_insert_ne by done.
      destruct (list_to_map arg !! k); [done|].
      unfold stored. rewrite lookup_insert_ne by done.
      destruct (self !! k) as [r'|] eqn:Hk; simpl; [|done].
      destruct (Halloc _ _ Hk) as [l' Hl']. assert (r ≠ r') by congruence.
      by rewrite lookup_insert_ne.
Qed.

Lemma unique_keys_spec (l seen : list K) :
  NoDup (unique l seen) ∧ ∀ x, x ∈ unique l seen ↔ x ∈ l ∧ x ∉ seen.
Proof.
  revert seen. induction l as [|y l IH]; intros seen; simpl.
  - split; [apply NoDup_nil_2|]. intros x. rewrite elem_of_nil. tauto.
  - destruct (decide (y ∈ seen)) as [Hy|Hy].
    + destruct (IH seen) as [Hnd Hin]. split; [done|].
      intros x. rewrite Hin, elem_of_cons. split; [tauto|].
      intros [[->|?] ?]; tauto.
    + destruct (IH (y :: seen)) as [Hnd Hin]. split.
      * apply NoDup_cons. split; [|done]. rewrite Hin, elem_of_cons. tauto.
      * intros x. rewrite !elem_of_cons, Hin, elem_of_cons. split.
        -- intros [->|[Hl Hs]]; [split; [by left|done]|].
           split; [by right|]. tauto.
        -- intros [[->|Hl] Hs]; [by left|].
           destruct (decide (x = y)) as [->|Hne]; [by left|]. right. tauto.
Qed.

(** Grouping the pairs by key, as the constructor does in [tmp]. *)
Lemma group_spec (items : list (K * V)) (tmp : gmap K (list V)) k :
  foldl (λ tmp '(key, value), <[key := default [] (tmp !! key) ++ [value]]> tmp)
        tmp items !! k
  = match values_for k items with
    | [] => tmp !! k
    | values => Some (default [] (tmp !! k) ++ values)
    end.
Proof.
  revert tmp. induction items as [|[key value] items IH]; intros tmp; [done|].
  cbn [foldl]. rewrite IH, values_for_cons.
  destruct (decide (key = k)) as [->|Hne].
  - rewrite lookup_insert_eq. simpl.
    destruct (values_for k items) as [|v vs]; [done|]. by rewrite <- app_assoc.
  - by rewrite lookup_insert_ne.
Qed.

(** X9. [update] from pairs and keyword arguments only appends: for every
    key the stored list becomes the old list followed by the values the
    pairs give for the key, in order, a key left out keeps its list, and no
    value stored before is overwritten or dropped. *)
Theorem update_appends_values
    (self : mdict) (σ : store) (mapping kwargs : list (K * V)) :
  wf self σ →
  ∃ self' σ',
    update self σ (Some (SPairs mapping)) kwargs = Ok (self', σ')
    ∧ wf self' σ'
    ∧ ∀ k, stored self' σ' k
           = match values_for k (mapping ++ kwargs) with
             | [] => stored self σ k
             | values => Some (default [] (stored self σ k) ++ values)
             end.
Proof.
  intros Hwf. unfold update. cbn [foldl default iter_multi_items mbind result_bind].
  destruct (adds_values_for mapping self σ Hwf) as [Hwf1 Hs1].
  destruct (foldl (λ '(self, σ) '(key, value), add self σ key value) (self, σ) mapping)
    as [self1 σ1] eqn:H1.
  destruct (adds_values_for kwargs self1 σ1 Hwf1) as [Hwf2 Hs2].
  destruct (foldl (λ '(self, σ) '(key, value), add self σ key value) (self1, σ1) kwargs)
    as [self2 σ2] eqn:H2.
  exists self2, σ2. simpl in *. split; [by rewrite H1, H2|]. split; [done|].
  intros k. rewrite Hs2, Hs1, values_for_app.
  destruct (values_for k mapping) as [|v vs], (values_for k kwargs) as [|w ws];
    simpl; try done.
  - by rewrite app_nil_r.
  - by rewrite <- app_assoc.
Qed.

(** X10. A mapping built from an iterable of pairs stores, for every key
    that occurs, the list of the values the pairs give for it, in order, and
    nothing for any other key; the item lookup returns the first of these
    values and raises [KeyError] for a key that does not occur. *)
Theorem init_groups_pairs_by_key (σ : store) (mapping : list (K * V)) (key : K) :
  let self := (__init__ σ (Some (SPairs mapping))).1 in
  let σ' := (__init__ σ (Some (SPairs mapping))).2 in
  wf self σ'
  ∧ stored self σ' key
    = (if decide (key ∈ mapping.*1) then Some (values_for key mapping) else None)
  ∧ __getitem__ self σ' key
    = match values_for key mapping with
      | value :: _ => Ok value
      | [] => Raise KeyError
      end.
Proof.
  intros self σ'. unfold __init__, dict_init in self, σ'.
  set (tmp := foldl (λ tmp '(key, value),
                       <[key := default [] (tmp !! key) ++ [value]]> tmp) ∅ mapping)
    in self, σ'.
  set (arg := (λ key, (key, default [] (tmp !! key))) <$> unique mapping.*1 [])
    in self, σ'.
  destruct (unique_keys_spec mapping.*1 []) as [Hnd Hin].
  assert (arg.*1 = unique mapping.*1 []) as Hfst.
  { unfold arg. rewrite <- list_fmap_compose. apply list_fmap_id. }
  destruct (dict_init_spec arg ∅ σ (wf_empty σ)) as [Hwf Hstored].
  { by rewrite Hfst. }
  fold self σ' in Hwf, Hstored.
  assert (∀ k, tmp !! k = if decide (k ∈ mapping.*1)
                          then Some (values_for k mapping) else None) as Htmp.
  { intros k. unfold tmp. rewrite group_spec, lookup_empty.
    destruct (decide (k ∈ mapping.*1)) as [Hk|Hk].
    - pose proof (values_for_present _ _ Hk).
      by destruct (values_for k mapping).
    - by rewrite values_for_absent. }
  assert (stored self σ' key
          = if decide (key ∈ mapping.*1) then Some (values_for key mapping) else None)
    as Hkey.
  { rewrite Hstored. unfold stored at 1. rewrite lookup_empty. simpl.
    destruct (decide (key ∈ mapping.*1)) as [Hk|Hk].
    - assert ((key, values_for key mapping) ∈ arg) as Hel.
      { unfold arg. apply list_elem_of_fmap. exists key.
        rewrite Htmp, decide_True by done. split; [done|].
        apply Hin. split; [done|]. apply not_elem_of_nil. }
      apply (elem_of_list_to_map_1 (M := gmap K)) in Hel; [by rewrite Hel|].
      by rewrite Hfst.
    - rewrite (not_elem_of_list_to_map_1 (M := gmap K)); [done|].
      rewrite Hfst, Hin. tauto. }
  split; [done|]. split; [done|].
  unfold __getitem__, dict_getitem. unfold stored in Hkey.
  destruct (self !! key) as [r|] eqn:Hr; simpl in *.
  - unfold deref. rewrite Hkey.
    destruct (decide (key ∈ mapping.*1)) as [Hk|Hk]; simpl.
    + pose proof (values_for_present _ _ Hk). by destruct (values_for key mapping).
    + destruct Hwf as [Halloc _]. destruct (Halloc _ _ Hr) as [l Hl]. congruence.
  - destruct (decide (key ∈ mapping.*1)) as [Hk|Hk]; [done|].
    by rewrite values_for_absent.
Qed.

(** X11. Setting an item replaces the list of the key by the single value
    and leaves every other key as it was: the lookup then returns the value
    and [pop] returns it and removes the key, all other lists untouched. *)
Theorem setitem_replaces_list (self : mdict) (σ : store) (key : K) (value : V) :
  wf self σ →
  let self' := (__setitem__ self σ key value).1 in
  let σ' := (__setitem__ self σ key value).2 in
  wf self' σ'
  ∧ stored self' σ' key = Some [value]
  ∧ __getitem__ self' σ' key = Ok value
  ∧ (∀ k, k ≠ key → stored self' σ' k = stored self σ k)
  ∧ (pop self' σ' key None).1 = Ok value
  ∧ (∀ k, stored (pop self' σ' key None).2 σ' k
          = if decide (k = key) then None else stored self σ k).
Proof.
  intros Hwf self' σ'.
  destruct (dict_init_spec [(key, [value])] self σ Hwf) as [Hwf' Hstored].
  { apply NoDup_singleton. }
  change (wf self' σ') in Hwf'.
  change (∀ k, stored self' σ' k
               = match list_to_map (M := gmap K (list V)) [(key, [value])] !! k with
                 | Some l => Some l
                 | None => stored self σ k
                 end) in Hstored.
  assert (stored self' σ' key = Some [value]) as Hkey.
  { rewrite Hstored. simpl. by rewrite lookup_insert_eq. }
  assert (∀ k, k ≠ key → stored self' σ' k = stored self σ k) as Hother.
  { intros k Hne. rewrite Hstored. simpl. by rewrite lookup_insert_ne. }
  assert (∃ r, self' !! key = Some r ∧ σ' !! r = Some [value]) as (r & Hr & Hl).
  { unfold stored in Hkey. destruct (self' !! key) as [r|]; [|done]. by exists r. }
  split; [done|]. split; [done|]. split; [|split; [done|split]].
  - unfold __getitem__, dict_getitem, deref. rewrite Hr. simpl. by rewrite Hl.
  - unfold pop, deref. rewrite Hr. simpl. by rewrite Hl.
  - intros k. unfold pop. rewrite Hr. simpl.
    destruct (decide (k = key)) as [->|Hne].
    + unfold stored. by rewrite lookup_delete_eq.
    + rewrite <- Hother by done. unfold stored. by rewrite lookup_delete_ne.
Qed.

Lemma init_wf (σ : store) (mapping : list (K * V)) :
  wf (__init__ σ (Some (SPairs mapping))).1 (__init__ σ (Some (SPairs mapping))).2.
Proof.
  unfold __init__, dict_init.
  apply (dict_init_spec _ ∅ σ (wf_empty σ)).
  rewrite <- list_fmap_compose.
  rewrite (list_fmap_id (unique mapping.*1 [])). apply unique_keys_spec.
Qed.

End multidict.

(** [MultiDict({1: [2, 3]})], with its list allocated in an empty store. *)
Definition example : gmap Z positive * gmap positive (list Z) :=
  __init__ ∅ (Some (SDict {[ 1 := inr [2; 3] ]})).

(** The caller's list [[7; 8]], allocated next to the mapping of [example]. *)
Definition example_values : positive * gmap positive (list Z) :=
  alloc example.2 [7; 8].

(** C2. The docstring of [iter_multi_items] shows [(1, 2)] and [(1, 3)] for
    [MultiDict({1: [2, 3]})], which is what the multi-value iteration
    yields; [iter_multi_items] itself asks for [multi=False] and yields
    [(1, 2)] only, so updating an empty mapping from this one stores [[2]]
    under the key, not [[2; 3]]. *)
Theorem iter_multi_items_first_value_only :
  iteritems example.1 example.2 true = Ok [(1, 2); (1, 3)]
  ∧ iter_multi_items example.2 (SMulti example.1) = Ok [(1, 2)]
  ∧ match update ∅ example.2 (Some (SMulti example.1)) [] with
    | Ok (self, σ) => stored self σ 1 = Some [2]
    | Raise _ => False
    end.
Proof. repeat split; vm_compute; reflexivity. Qed.

(** C5 as stated fails: appending 4 to the list that [getlist] returned for
    key 1 changes the list the mapping stores under key 1. *)
Lemma getlist_returns_stored_list : ¬ getlist_copies example.1 example.2 1.
Proof.
  intros Hcopies. specialize (Hcopies 4). vm_compute in Hcopies. discriminate.
Qed.

Lemma getlist_shares_setlist_copies_witness :
  (getlist example.1 example_values.2 1 = (1%positive, example_values.2)
   ∧ ∀ vs value, example_values.2 !! 1%positive = Some vs →
       stored example.1 (list_append example_values.2 1%positive value) 1
       = Some (vs ++ [value]))
  ∧ setlist_copies example.1 example_values.2 1 example_values.1.
Proof.
  exact (getlist_shares_setlist_copies
           example.1 example_values.2 1 example_values.1 [7; 8] eq_refl).
Defined.

(** [MultiDict([(1, 2), (5, 6), (1, 3)])], with its lists allocated in an
    empty store. *)
Definition pairs_example : gmap Z positive * gmap positive (list Z) :=
  __init__ ∅ (Some (SPairs [(1, 2); (5, 6); (1, 3)])).

Lemma update_appends_values_witness :
  ∃ self' σ',
    update pairs_example.1 pairs_example.2 (Some (SPairs [(1, 4); (7, 8)])) [] = Ok (self', σ')
    ∧ wf self' σ'
    ∧ ∀ k, stored self' σ' k
           = match values_for k ([(1, 4); (7, 8)] ++ []) with
             | [] => stored pairs_example.1 pairs_example.2 k
             | values =>
                 Some (default [] (stored pairs_example.1 pairs_example.2 k) ++ values)
             end.
Proof.
  apply (update_appends_values pairs_example.1 pairs_example.2 [(1, 4); (7, 8)] []).
  apply init_wf.
Defined.

Lemma setitem_replaces_list_witness :
  wf (__setitem__ pairs_example.1 pairs_example.2 1 9).1
     (__setitem__ pairs_example.1 pairs_example.2 1 9).2
  ∧ stored (__setitem__ pairs_example.1 pairs_example.2 1 9).1
           (__setitem__ pairs_example.1 pairs_example.2 1 9).2 1 = Some [9]
  ∧ __getitem__ (__setitem__ pairs_example.1 pairs_example.2 1 9).1
                (__setitem__ pairs_example.1 pairs_example.2 1 9).2 1 = Ok 9
  ∧ (∀ k, k ≠ 1 →
       stored (__setitem__ pairs_example.1 pairs_example.2 1 9).1
              (__setitem__ pairs_example.1 pairs_example.2 1 9).2 k
       = stored pairs_example.1 pairs_example.2 k)
  ∧ (pop (__setitem__ pairs_example.1 pairs_example.2 1 9).1
         (__setitem__ pairs_example.1 pairs_example.2 1 9).2 1 None).1 = Ok 9
  ∧ (∀ k, stored (pop (__setitem__ pairs_example.1 pairs_example.2 1 9).1
                      (__setitem__ pairs_example.1 pairs_example.2 1 9).2 1 None).2
                 (__setitem__ pairs_example.1 pairs_example.2 1 9).2 k
          = if decide (k = 1) then None else stored pairs_example.1 pairs_example.2 k).
Proof.
  apply (setitem_replaces_list pairs_example.1 pairs_example.2 1 9).
  apply init_wf.
Defined.

(** The spec's example: [getlist(1)] is [[2; 3]], the item lookup gives 2. *)
Example pairs_example_lists :
  stored pairs_example.1 pairs_example.2 1 = Some [2; 3]
  ∧ stored pairs_example.1 pairs_example.2 5 = Some [6]
  ∧ __getitem__ pairs_example.1 pairs_example.2 1 = Ok 2.
Proof. repeat split; vm_compute; reflexivity. Qed.

End MultiDict.

(** ** CombinedSequence *)

Module CombinedSequence.
Section combined.
Context {A : Type}.

(** The loop of [at_index] for [index >= 0], from the running [seen]. *)
Fixpoint at_index_forward (sequences : list (list A)) (seen index : Z)
  : result (list A * Z) :=
  match sequences with
  | [] => Raise IndexError
  | sequence :: sequences =>
      if decide (seen ≤ index ∧ index < seen + Z.of_nat (length sequence))
      then Ok (sequence, index - seen)
      else at_index_forward sequences (seen + Z.of_nat (length sequence)) index
  end.

(** The loop of [at_index] for [index < 0], over the reversed sequences. *)
Fixpoint at_index_backward (sequences : list (list A)) (seen index : Z)
  : result (list A * Z) :=
  match sequences with
  | [] => Raise IndexError
  | sequence :: sequences =>
      if decide (seen >= index ∧ index > seen - Z.of_nat (length sequence))
      then Ok (sequence, index - seen)
      else at_index_backward sequences (seen - Z.of_nat (length sequence)) index
  end.

Definition at_index (self : list (list A)) (index : Z) : result (list A * Z) :=
  let seen := 0 in
  if decide (index >= 0) then at_index_forward self seen index
  else at_index_backward (reverse self) seen index.

(** [__getitem__] for an index that is not a slice. *)
Definition __getitem__ (self : list (list A)) (index : Z) : result A :=
  '(sequence, index) ← at_index self index;
  list_getitem sequence index.

Definition __len__ (self : list (list A)) : Z :=
  foldr Z.add 0 ((λ sequence, Z.of_nat (length sequence)) <$> self).

Definition __iter__ (self : list (list A)) : list A := concat self.

Definition __reversed__ (self : list (list A)) : list A :=
  concat (reverse (reverse <$> self)).

(** *** Properties *)

Lemma len_concat (self : list (list A)) :
  __len__ self = Z.of_nat (length (concat self)).
Proof.
  induction self as [|s self IH]; [done|].
  unfold __len__ in *. cbn [fmap list_fmap foldr concat]. rewrite IH, length_app. lia.
Qed.

Lemma reversed_concat (self : list (list A)) :
  __reversed__ self = reverse (concat self).
Proof.
  induction self as [|s self IH]; [done|].
  unfold __reversed__ in *. rewrite fmap_cons, reverse_cons, concat_app, IH.
  cbn [concat]. by rewrite reverse_app, app_nil_r.
Qed.

(** A non-negative index inside the view resolves to the constituent that
    holds the element and to its place there. *)
Lemma at_index_forward_spec (sequences : list (list A)) (seen index : Z) x :
  seen ≤ index →
  concat sequences !! Z.to_nat (index - seen) = Some x →
  ∃ sequence local,
    at_index_forward sequences seen index = Ok (sequence, local)
    ∧ sequence ∈ sequences ∧ 0 ≤ local
    ∧ sequence !! Z.to_nat local = Some x.
Proof.
  revert seen. induction sequences as [|s sequences IH]; intros seen Hle Hx.
  - done.
  - simpl in *. destruct (decide (index - seen < Z.of_nat (length s))) as [Hin|Hout].
    + rewrite decide_True by lia. exists s, (index - seen).
      split; [done|]. split; [by left|]. split; [lia|].
      rewrite lookup_app_l in Hx by lia. done.
    + rewrite decide_False by lia.
      rewrite lookup_app_r in Hx by lia.
      destruct (IH (seen + Z.of_nat (length s))) as (sq & local & Hat & Hel & H0 & Hl).
      * lia.
      * replace (Z.to_nat (index - (seen + Z.of_nat (length s))))
          with (Z.to_nat (index - seen) - length s)%nat by lia. done.
      * exists sq, local. split; [done|]. split; [by right|]. done.
Qed.

Lemma getitem_nonneg (self : list (list A)) (i : nat) x :
  __iter__ self !! i = Some x → __getitem__ self (Z.of_nat i) = Ok x.
Proof.
  intros Hx. unfold __getitem__, at_index. rewrite decide_True by lia.
  destruct (at_index_forward_spec self 0 (Z.of_nat i) x) as (sq & local & Hat & _ & H0 & Hl).
  - lia.
  - by rewrite Z.sub_0_r, Nat2Z.id.
  - rewrite Hat. simpl. rewrite <- (Z2Nat.id local) by lia.
    by apply list_getitem_nonneg.
Qed.

Lemma at_index_forward_out (sequences : list (list A)) (seen index : Z) :
  seen + __len__ sequences ≤ index →
  at_index_forward sequences seen index = Raise IndexError.
Proof.
  revert seen. induction sequences as [|s sequences IH]; intros seen Hle; [done|].
  change (__len__ (s :: sequences))
    with (Z.of_nat (length s) + __len__ sequences) in Hle.
  pose proof (len_concat sequences). simpl.
  rewrite decide_False by lia. apply IH. lia.
Qed.

(** A non-negative index at or past the length raises [IndexError]. *)
Lemma getitem_past_end (self : list (list A)) (index : Z) :
  __len__ self ≤ index → __getitem__ self index = Raise IndexError.
Proof.
  intros Hle. pose proof (len_concat self). unfold __getitem__, at_index.
  rewrite decide_True by lia. rewrite at_index_forward_out by lia. done.
Qed.

Lemma len_app (l1 l2 : list (list A)) : __len__ (l1 ++ l2) = __len__ l1 + __len__ l2.
Proof. rewrite !len_concat, concat_app, length_app. lia. Qed.

Lemma len_reverse (l : list (list A)) : __len__ (reverse l) = __len__ l.
Proof.
  induction l as [|s l IH]; [done|].
  rewrite reverse_cons, len_app, IH.
  change (s :: l) with ([s] ++ l). rewrite len_app. lia.
Qed.

(** The scan for a negative index passes the constituents that lie
    entirely behind the index. *)
Lemma at_index_backward_skip (sequences rest : list (list A)) (seen index : Z) :
  index ≤ seen - __len__ sequences →
  at_index_backward (sequences ++ rest) seen index
  = at_index_backward rest (seen - __len__ sequences) index.
Proof.
  revert seen. induction sequences as [|s sequences IH]; intros seen Hle.
  - simpl. f_equal. unfold __len__. simpl. lia.
  - change (s :: sequences) with ([s] ++ sequences) in Hle. rewrite len_app in Hle.
    assert (__len__ [s] = Z.of_nat (length s)) as Hs
      by (unfold __len__; simpl; lia).
    pose proof (len_concat sequences) as Hnonneg.
    cbn [app at_index_backward]. rewrite decide_False by lia.
    rewrite IH by lia. f_equal.
    change (s :: sequences) with ([s] ++ sequences). rewrite len_app. lia.
Qed.

(** X28. For an index that is not negative the view reads like the
    concatenation of its constituents, [IndexError] past the end included;
    its length is the length of the concatenation and its reverse iteration
    the reverse of the concatenation. *)
Theorem nonnegative_index_reads_concatenation (self : list (list A)) (index : Z) :
  0 ≤ index →
  __getitem__ self index = list_getitem (__iter__ self) index
  ∧ __len__ self = Z.of_nat (length (__iter__ self))
  ∧ __reversed__ self = reverse (__iter__ self).
Proof.
  intros Hindex. split; [|split; [apply len_concat|apply reversed_concat]].
  rewrite <- (Z2Nat.id index) by lia.
  destruct (__iter__ self !! Z.to_nat index) as [x|] eqn:Hx.
  - by rewrite (getitem_nonneg _ _ _ Hx), (list_getitem_nonneg _ _ _ Hx).
  - apply lookup_ge_None in Hx. unfold __iter__ in *.
    rewrite getitem_past_end by (rewrite len_concat; lia).
    by rewrite list_getitem_past_end by lia.
Qed.

(** X29. A negative index that addresses an element of a constituent other
    than its first resolves to that constituent and to the negative index
    of the element in it, and reads what the concatenation holds there. *)
Theorem negative_index_inside_constituent
    (before after : list (list A)) (sequence : list A) (local : Z) :
  - Z.of_nat (length sequence) < local < 0 →
  at_index (before ++ sequence :: after) (local - __len__ after)
  = Ok (sequence, local)
  ∧ __getitem__ (before ++ sequence :: after) (local - __len__ after)
    = list_getitem (__iter__ (before ++ sequence :: after)) (local - __len__ after).
Proof.
  intros Hlocal. pose proof (len_concat after) as Hafter.
  assert (at_index (before ++ sequence :: after) (local - __len__ after)
          = Ok (sequence, local)) as Hat.
  { unfold at_index. rewrite decide_False by lia.
    rewrite reverse_app, reverse_cons, <- app_assoc.
    rewrite at_index_backward_skip by (rewrite len_reverse; lia).
    rewrite len_reverse. cbn [app at_index_backward].
    rewrite decide_True by lia. do 2 f_equal. lia. }
  split; [done|]. unfold __getitem__. rewrite Hat. simpl.
  unfold list_getitem, __iter__. cbv zeta.
  rewrite concat_app. cbn [concat]. rewrite !length_app.
  destruct (decide (local < 0)) as [_|]; [|lia].
  destruct (decide (local - __len__ after < 0)) as [_|]; [|lia].
  rewrite !decide_True by lia.
  replace (Z.to_nat (local - __len__ after
                     + Z.of_nat (length (concat before)
                                 + (length sequence + length (concat after)))))
    with (length (concat before)
          + Z.to_nat (local + Z.of_nat (length sequence)))%nat by lia.
  rewrite lookup_app_r by lia.
  replace (length (concat before) + Z.to_nat (local + Z.of_nat (length sequence))
           - length (concat before))%nat
    with (Z.to_nat (local + Z.of_nat (length sequence))) by lia.
  by rewrite lookup_app_l by lia.
Qed.


End combined.

(** The view over [[[1, 2, 3], [4, 5, 6]]]. *)
Definition example : list (list Z) := [[1; 2; 3]; [4; 5; 6]].

Lemma nonnegative_index_reads_concatenation_witness :
  __getitem__ example 4 = list_getitem (__iter__ example) 4
  ∧ __len__ example = Z.of_nat (length (__iter__ example))
  ∧ __reversed__ example = reverse (__iter__ example).
Proof. apply (nonnegative_index_reads_concatenation example 4). lia. Defined.

(** Index -5 of the view over [[[1, 2, 3], [4, 5, 6]]] is index -2 of the
    first constituent. *)
Lemma negative_index_inside_constituent_witness :
  at_index ([] ++ [1; 2; 3] :: [[4; 5; 6]]) (-2 - __len__ [[4; 5; 6]])
  = Ok ([1; 2; 3], -2)
  ∧ __getitem__ ([] ++ [1; 2; 3] :: [[4; 5; 6]]) (-2 - __len__ [[4; 5; 6]])
    = list_getitem (__iter__ ([] ++ [1; 2; 3] :: [[4; 5; 6]]))
                   (-2 - __len__ [[4; 5; 6]]).
Proof.
  apply (negative_index_inside_constituent [] [[4; 5; 6]] [1; 2; 3] (-2)).
  simpl. lia.
Defined.

(** C9. On the view over [[[1, 2, 3], [4, 5, 6]]] the checks the claim names
    hold: index 3 reads 4, index -1 reads 6, the length is 6 and the reverse
    iteration is 6, ..., 1.  But the scan for a negative index tests
    [seen >= index > seen - len(sequence)], one place off at each
    constituent's first element: index -3 (the element 4) resolves to the
    first constituent at offset 0 and reads 1, and index -6 (the element 1,
    inside the view) matches no constituent and raises [IndexError]. *)
Theorem at_index_negative_off_by_one :
  __getitem__ example 3 = Ok 4
  ∧ __getitem__ example (-1) = Ok 6
  ∧ __len__ example = 6
  ∧ __reversed__ example = [6; 5; 4; 3; 2; 1]
  ∧ list_getitem (__iter__ example) (-3) = Ok 4
  ∧ at_index example (-3) = Ok ([1; 2; 3], 0)
  ∧ __getitem__ example (-3) = Ok 1
  ∧ list_getitem (__iter__ example) (-6) = Ok 1
  ∧ __getitem__ example (-6) = Raise IndexError.
Proof. repeat split; vm_compute; reflexivity. Qed.

End CombinedSequence.

(** ** namedtuple *)

Module NamedTuple.

(** [keyword.kwlist] of the Python 2 standard library, which [iskeyword]
    consults. *)
Definition kwlist : list string :=
  ["and"; "as"; "assert"; "break"; "class"; "continue"; "def"; "del"; "elif";
   "else"; "except"; "exec"; "finally"; "for"; "from"; "global"; "if";
   "import"; "in"; "is"; "lambda"; "not"; "or"; "pass"; "print"; "raise";
   "return"; "try"; "while"; "with"; "yield"]%string.

Definition iskeyword (name : string) : bool := bool_decide (name ∈ kwlist).

(** The [i]-th name of [name_generator]: ['_%d' % i]. *)
Definition make_name (i : nat) : string := ("_" +:+ pretty i)%string.

(** The class the factory generates, as far as [_make] depends on it: the
    values substituted into the template.  After the methods of the
    template the class body binds every name of [_fields] to a property,
    [name = property(itemgetter(i))], so a field whose name is that of a
    method rebinds it. *)
Record record_type : Type := {
  typename : string;
  _fields : list string;
  field_count : nat;
}.

(** The loop over [field_names]; [i] is the number the name generator
    yields next. *)
Fixpoint real_field_names_loop (rename : bool) (field_names : list string)
    (i : nat) (real_field_names seen_names : list string) : result (list string) :=
  match field_names with
  | [] => Ok real_field_names
  | name :: field_names =>
      if iskeyword name then
        if rename then
          let name := make_name i in
          real_field_names_loop rename field_names (S i)
            (real_field_names ++ [name]) (name :: seen_names)
        else Raise (ValueError ("a given field name is a keyword: " +:+ name))
      else if bool_decide (name ∈ seen_names) then
        if rename then
          let name := make_name i in
          real_field_names_loop rename field_names (S i)
            (real_field_names ++ [name]) (name :: seen_names)
        else Raise (ValueError ("a field name has been repeated: " +:+ name))
      else
        real_field_names_loop rename field_names i
          (real_field_names ++ [name]) (name :: seen_names)
  end.

(** *** The generated source and [exec] *)

(** A name of Python 2: a letter or an underscore, then letters, digits
    and underscores. *)
Definition name_start (c : Ascii.ascii) : bool :=
  let n := Ascii.nat_of_ascii c in
  (Nat.leb 65 n && Nat.leb n 90) || (Nat.leb 97 n && Nat.leb n 122)
  || Nat.eqb n 95.

Definition name_char (c : Ascii.ascii) : bool :=
  let n := Ascii.nat_of_ascii c in
  name_start c || (Nat.leb 48 n && Nat.leb n 57).

Fixpoint name_chars (name : string) : bool :=
  match name with
  | EmptyString => true
  | String c name => name_char c && name_chars name
  end.

Definition isidentifier (name : string) : bool :=
  match name with
  | EmptyString => false
  | String c name => name_start c && name_chars name
  end.

(** Names with two leading underscores: special method and attribute
    names ([__len__], [__slots__], [__metaclass__], [__builtins__], ...)
    and the names a class body mangles. *)
Definition two_underscores (name : string) : bool :=
  match name with
  | String c1 (String c2 _) =>
      Nat.eqb (Ascii.nat_of_ascii c1) 95 && Nat.eqb (Ascii.nat_of_ascii c2) 95
  | _ => false
  end.

(** The names the body of the generated [_make] reads from the namespace
    in which the class is bound under its [typename]. *)
Definition names_read_by_make : list string := ["tuple"; "len"; "TypeError"]%string.

(** How the call of the factory ends: it returns the class, it raises, or
    its arguments are outside what this model covers. *)
Inductive generated : Type :=
  | Class (cls : record_type)
  | Fails (e : exn)
  | Outside.

(** The inputs the model of [exec] covers.  Outside it are: a text that is
    not a name, which the template takes as source of any kind; a name
    with two leading underscores; a [typename] that rebinds a name [_make]
    reads; more fields than the compiler lets [__new__] have parameters. *)
Definition modelled (typename : string) (names : list string) : bool :=
  forallb isidentifier (typename :: names)
  && negb (existsb two_underscores (typename :: names))
  && negb (bool_decide (typename ∈ names_read_by_make))
  && bool_decide (length names ≤ 254)%nat.

(** What the compiler refuses in the generated source: [None] as the name
    of the class, of a parameter or of an attribute, and a parameter of
    [__new__(cls, ...)] that occurs twice. *)
Definition refused_by_compiler (typename : string) (names : list string) : bool :=
  bool_decide ("None"%string ∈ typename :: names)
  || bool_decide ("cls"%string ∈ names)
  || negb (bool_decide (NoDup names)).

(** The lines [name = property(itemgetter(i))] run in the class body, where
    a name bound by an earlier line hides the global of that name: after a
    field [property] or [itemgetter] the next line calls a property. *)
Definition hides_property (names : list string) : bool :=
  existsb (λ name, bool_decide (name ∈ ["property"; "itemgetter"]%string))
          (take (length names - 1) names).

(** [exec code in namespace], followed by [namespace[typename]]. *)
Definition exec_class (typename : string) (names : list string) : generated :=
  if negb (modelled typename names) then Outside
  else if refused_by_compiler typename names then Fails SyntaxError
  else if hides_property names
       then Fails (TypeError "'property' object is not callable")
  else Class {| typename := typename;
                _fields := names;
                field_count := length names |}.

(** [namedtuple(typename, field_names, rename=rename)] for [field_names]
    given as a sequence of names. *)
Definition namedtuple (typename : string) (field_names : list string)
    (rename : bool) : generated :=
  if iskeyword typename then
    Fails (ValueError ("the given typename is a keyword: " +:+ typename))
  else
    match real_field_names_loop rename field_names 1 [] [] with
    | Raise e => Fails e
    | Ok real_field_names => exec_class typename real_field_names
    end.

(** [cls._make(iterable)].  The attribute [_make] of the class is the
    classmethod of the template unless a field is named [_make]: then it
    is that field's property, which cannot be called.  The classmethod
    makes the record the tuple of the items of [iterable] and refuses only
    a tuple longer than [field_count]. *)
Definition _make {V : Type} (cls : record_type) (iterable : list V) : result (list V) :=
  if bool_decide ("_make"%string ∈ _fields cls) then
    Raise (TypeError "'property' object is not callable")
  else
    let result := iterable in
    if decide (field_count cls < length result)%nat then
      Raise (TypeError ("expected " +:+ pretty (field_count cls)
                        +:+ " arguments, got " +:+ pretty (length result)))
    else Ok result.

(** *** Properties *)

Lemma real_field_names_loop_length rename field_names i real seen names :
  real_field_names_loop rename field_names i real seen = Ok names →
  length names = (length real + length field_names)%nat.
Proof.
  revert i real seen.
  induction field_names as [|name field_names IH]; intros i real seen Hloop;
    simpl in Hloop.
  - injection Hloop as <-. simpl. lia.
  - destruct (iskeyword name), (bool_decide (name ∈ seen)), rename;
      try discriminate; apply IH in Hloop; rewrite Hloop, length_app;
      simpl; lia.
Qed.

(** The generated class declares one field per name it was given. *)
Lemma namedtuple_field_count typename field_names rename cls :
  namedtuple typename field_names rename = Class cls →
  field_count cls = length (_fields cls)
  ∧ field_count cls = length field_names.
Proof.
  unfold namedtuple, exec_class. destruct (iskeyword typename); [done|].
  destruct (real_field_names_loop rename field_names 1 [] []) as [names|] eqn:Hloop;
    [|done].
  destruct (negb (modelled typename names)); [done|].
  destruct (refused_by_compiler typename names); [done|].
  destruct (hides_property names); [done|].
  intros [= <-]. simpl. split; [done|].
  by apply real_field_names_loop_length in Hloop.
Qed.

(** For a record type generated with [k] declared fields, none of them
    named [_make], [_make] returns the tuple of any sequence of at most [k]
    values as it is, so a sequence of fewer than [k] values yields a record
    shorter than the declared arity, and raises [TypeError] only for more
    than [k] values. *)
Lemma make_accepts_short_sequences
    {V : Type} typename field_names rename cls (sequence : list V) :
  namedtuple typename field_names rename = Class cls →
  "_make"%string ∉ _fields cls →
  let k := length field_names in
  field_count cls = k
  ∧ ((length sequence ≤ k)%nat → _make cls sequence = Ok sequence)
  ∧ ((length sequence < k)%nat →
       ∃ record, _make cls sequence = Ok record ∧ (length record < k)%nat)
  ∧ ((length sequence > k)%nat → ∃ msg, _make cls sequence = Raise (TypeError msg)).
Proof.
  intros Hcls Hfields k. apply namedtuple_field_count in Hcls as [_ Hk].
  fold k in Hk. unfold _make. rewrite bool_decide_eq_false_2 by done. rewrite Hk.
  split; [done|]. split; [|split].
  - intros Hle. rewrite decide_False by lia. done.
  - intros Hlt. rewrite decide_False by lia. by exists sequence.
  - intros Hgt. rewrite decide_True by lia. by eexists.
Qed.

(** [namedtuple('Point', ['x', 'y'])] *)
Definition Point : record_type :=
  {| typename := "Point"; _fields := ["x"; "y"]%string; field_count := 2 |}.

(** [namedtuple('Point', ['_make', 'y'])] *)
Definition Rebound : record_type :=
  {| typename := "Point"; _fields := ["_make"; "y"]%string; field_count := 2 |}.

(** C10. The claim has [_make] accept every sequence of at most [k] values
    for every record type the factory generates with [k] fields.  The
    factory checks the field names for keywords and repetitions, but not
    for the names of the methods it generates:
    [namedtuple('Point', ['_make', 'y'])] is generated like
    [namedtuple('Point', ['x', 'y'])], its body binds [_make] to the
    property of the first field after the classmethod, and
    [Point._make([7])], a sequence of one value for two fields, raises
    [TypeError], where the class with the fields [x] and [y] returns the
    record. *)
Theorem make_rebound_by_field_of_that_name :
  namedtuple "Point" ["x"; "y"]%string false = Class Point
  ∧ _make Point [7] = Ok [7]
  ∧ namedtuple "Point" ["_make"; "y"]%string false = Class Rebound
  ∧ field_count Rebound = 2%nat
  ∧ _make Rebound [7] = Raise (TypeError "'property' object is not callable")
  ∧ _make Rebound [7] ≠ Ok [7].
Proof. repeat split; try (vm_compute; reflexivity). discriminate. Qed.

(** [Point._make([7])] is a one-item record; [Point._make([7, 8, 9])] is
    refused. *)
Example make_examples :
  _make Point [7] = Ok [7]
  ∧ _make Point [7; 8; 9] = Raise (TypeError "expected 2 arguments, got 3").
Proof. split; vm_compute; reflexivity. Qed.

(** What the factory does with names that the loop over the field names
    lets pass: a repeated parameter after renaming and the parameter [cls]
    are refused by the compiler, a field [property] before another field
    breaks the class body, and a text that is not a name or a [typename]
    that [_make] reads are not modelled. *)
Example factory_examples :
  namedtuple "Point" ["_1"; "def"]%string true = Fails SyntaxError
  ∧ namedtuple "Point" ["cls"; "y"]%string false = Fails SyntaxError
  ∧ namedtuple "Point" ["property"; "y"]%string false
    = Fails (TypeError "'property' object is not callable")
  ∧ namedtuple "Point" ["x"; "x"]%string false
    = Fails (ValueError "a field name has been repeated: x")
  ∧ namedtuple "class" ["x"]%string false
    = Fails (ValueError "the given typename is a keyword: class")
  ∧ namedtuple "Point" ["1x"]%string false = Outside
  ∧ namedtuple "len" ["x"]%string false = Outside
  ∧ namedtuple "Point" ["__len__"]%string false = Outside.
Proof. repeat split; vm_compute; reflexivity. Qed.

End NamedTuple.

(** ** OrderedDict *)

Module OrderedDict.
Section ordereddict.
Context {K : Type} `{Countable K} {V : Type} `{EqDecision V}.

(** Python's [None], the key of a link made by [_Link()]; it is a value
    of the key type like any other. *)
Variable none_key : K.

(** A [_Link] object; [prev] and [next] hold the addresses of links. *)
Record link : Type := {
  key : K;
  prev : positive;
  next : positive;
}.

#[local] Instance link_inhabited : Inhabited link :=
  populate {| key := none_key; prev := 1%positive; next := 1%positive |}.

(** The links live in a heap; an instance holds the address of its root
    link, the [_map] from keys to the addresses of their links, and the
    items of the [dict] it extends. *)
Record t : Type := {
  _root : positive;
  _map : gmap K positive;
  dict : gmap K V;
  heap : gmap positive link;
}.

(** Reading the attributes of the link at an address. *)
Definition nxt (h : gmap positive link) (a : positive) : positive := next (h !!! a).
Definition prv (h : gmap positive link) (a : positive) : positive := prev (h !!! a).
Definition keyof (h : gmap positive link) (a : positive) : K := key (h !!! a).

(** [a.next = n] and [a.prev = p] *)
Definition set_next (h : gmap positive link) (a n : positive) : gmap positive link :=
  <[a := {| key := keyof h a; prev := prv h a; next := n |}]> h.
Definition set_prev (h : gmap positive link) (a p : positive) : gmap positive link :=
  <[a := {| key := keyof h a; prev := p; next := nxt h a |}]> h.

(** How a method call ends, and the state it leaves. *)
Inductive outcome (R : Type) : Type :=
  | Returns (r : R) (self : t)
  | Raises (e : exn) (self : t).
Arguments Returns {R} r self.
Arguments Raises {R} e self.

Definition state_of {R} (o : outcome R) : t :=
  match o with
  | Returns _ self => self
  | Raises _ self => self
  end.

(** [self._root = _Link()] followed by
    [self._root.prev = self._root.next = self._root]: a new link whose
    two pointers are its own address. *)
Definition new_root (h : gmap positive link) : positive * gmap positive link :=
  let root := fresh (dom h) in
  (root, <[root := {| key := none_key; prev := root; next := root |}]> h).

Definition __setitem__ (self : t) (key : K) (value : V) : t :=
  let self :=
    match dict self !! key with
    | Some _ => self
    | None =>
        (* if key not in self *)
        let last := prv (heap self) (_root self) in
        let link := fresh (dom (heap self)) in
        let h := <[link := {| key := key; prev := last; next := _root self |}]>
                   (heap self) in
        (* last.next = self._root.prev = self._map[key] = link *)
        let h := set_next h last link in
        let h := set_prev h (_root self) link in
        {| _root := _root self; _map := <[key := link]> (_map self);
           dict := dict self; heap := h |}
    end in
  {| _root := _root self; _map := _map self;
     dict := <[key := value]> (dict self); heap := heap self |}.

Definition __delitem__ (self : t) (key : K) : outcome unit :=
  match dict self !! key with
  | None => Raises KeyError self
  | Some _ =>
      let self := {| _root := _root self; _map := _map self;
                     dict := delete key (dict self); heap := heap self |} in
      match _map self !! key with
      | None => Raises KeyError self
      | Some link =>
          let h := heap self in
          let '(prev, next) := (prv h link, nxt h link) in
          (* prev.next, next.prev = link.next, link.prev *)
          let '(link_next, link_prev) := (nxt h link, prv h link) in
          let h := set_next h prev link_next in
          let h := set_prev h next link_prev in
          Returns tt {| _root := _root self; _map := delete key (_map self);
                        dict := dict self; heap := h |}
      end
  end.

Definition setdefault (self : t) (key : K) (default : V) : outcome V :=
  let self :=
    match dict self !! key with
    | None => __setitem__ self key default
    | Some _ => self
    end in
  match dict self !! key with
  | Some value => Returns value self
  | None => Raises KeyError self
  end.

(** [pop(key, default)]; [default = None] stands for the argument left at
    [missing]. *)
Definition pop (self : t) (key : K) (default : option V) : outcome V :=
  let except_KeyError self :=
    match default with
    | None => Raises KeyError self
    | Some default => Returns default self
    end in
  match dict self !! key with
  | None => except_KeyError self
  | Some value =>
      match __delitem__ self key with
      | Returns _ self => Returns value self
      | Raises KeyError self => except_KeyError self
      | Raises e self => Raises e self
      end
  end.

(** The first key of [reversed(self)] or [iter(self)]. *)
Definition first_key (self : t) (last : bool) : result K :=
  let curr := if last then prv (heap self) (_root self)
              else nxt (heap self) (_root self) in
  if decide (curr = _root self) then Raise StopIteration
  else Ok (keyof (heap self) curr).

Definition popitem (self : t) (last : bool) : outcome (K * V) :=
  if decide (size (dict self) = 0%nat) then Raises KeyError self
  else
    match first_key self last with
    | Raise e => Raises e self
    | Ok key =>
        match pop self key None with
        | Returns value self => Returns (key, value) self
        | Raises e self => Raises e self
        end
    end.

Definition move_to_end (self : t) (key : K) (last : bool) : outcome unit :=
  match dict self !! key with
  | None => Raises KeyError self
  | Some _ =>
      match _map self !! key with
      | None => Raises KeyError self
      | Some link =>
          let h := heap self in
          let '(prev, next) := (prv h link, nxt h link) in
          (* prev.next, next.prev = next, prev *)
          let h := set_next h prev next in
          let h := set_prev h next prev in
          let h :=
            if last then
              let replacing := prv h (_root self) in
              (* replacing.next = self._root.prev = link *)
              let h := set_next h replacing link in
              let h := set_prev h (_root self) link in
              (* link.prev, link.next = replacing, self._root *)
              let h := set_prev h link replacing in
              set_next h link (_root self)
            else
              let replacing := nxt h (_root self) in
              (* self._root.next = replacing.prev = link *)
              let h := set_next h (_root self) link in
              let h := set_prev h replacing link in
              (* link.prev, link.next = self._root, replacing *)
              let h := set_prev h link (_root self) in
              set_next h link replacing in
          Returns tt {| _root := _root self; _map := _map self;
                        dict := dict self; heap := h |}
      end
  end.

(** [update]: the positional mapping, given by its items in order, then
    the keyword arguments. *)
Definition update (self : t) (mapping kwargs : list (K * V)) : t :=
  foldl (λ self mapping,
           foldl (λ self '(key, value), __setitem__ self key value) self mapping)
        self [mapping; kwargs].

Definition clear (self : t) : t :=
  let '(root, h) := new_root (heap self) in
  {| _root := root; _map := ∅; dict := ∅; heap := h |}.

(** A new instance: an empty [dict], then the body of [__init__]. *)
Definition __init__ (mapping kwargs : list (K * V)) : t :=
  let '(root, h) := new_root ∅ in
  update {| _root := root; _map := ∅; dict := ∅; heap := h |} mapping kwargs.

(** [cls(izip(iterable, repeat(value)))] *)
Definition fromkeys (iterable : list K) (value : V) : t :=
  __init__ ((λ key, (key, value)) <$> iterable) [].

(** The generators [__iter__] and [__reversed__], run to their end.  The
    loop follows [step] from [curr] until it is back at the root; a ring
    of links has no more links than the heap, which bounds the rounds, and
    [None] says the loop would not end. *)
Fixpoint walk (h : gmap positive link) (step : positive → positive)
    (root : positive) (fuel : nat) (curr : positive) : option (list K) :=
  match fuel with
  | O => None
  | S fuel =>
      if decide (curr = root) then Some []
      else rest ← walk h step root fuel (step curr); Some (keyof h curr :: rest)
  end.

Definition __iter__ (self : t) : option (list K) :=
  walk (heap self) (nxt (heap self)) (_root self) (S (size (heap self)))
       (nxt (heap self) (_root self)).

Definition __reversed__ (self : t) : option (list K) :=
  walk (heap self) (prv (heap self)) (_root self) (S (size (heap self)))
       (prv (heap self) (_root self)).

Definition iterkeys (self : t) : option (list K) := __iter__ self.

(** [dict.__getitem__(self, k) for k in OrderedDict.__iter__(self)] *)
Definition itervalues (self : t) : option (list V) :=
  keys ← __iter__ self; mapM (λ k, dict self !! k) keys.

(** [izip(iterkeys, itervalues)] *)
Definition iteritems (self : t) : option (list (K * V)) :=
  keys ← iterkeys self; values ← itervalues self; Some (zip keys values).

(** The right operand of [==]: an instance of the class, or a mapping of
    another type, given by its items. *)
Inductive operand : Type :=
  | same_class (other : t)
  | other_mapping (other : gmap K V).

Definition __eq__ (self : t) (other : operand) : option bool :=
  match other with
  | same_class other =>
      items1 ← iteritems self;
      items2 ← iteritems other;
      Some (forallb (λ '(i1, i2), bool_decide (i1 = i2)) (zip items1 items2))
  | other_mapping other => Some (bool_decide (dict self = other))
  end.


(** *** Reading the heap after an assignment *)

Implicit Types (h : gmap positive link) (a b p n root : positive).

Lemma nxt_insert h a (l : link) b :
  nxt (<[a := l]> h) b = if decide (a = b) then next l else nxt h b.
Proof.
  unfold nxt. destruct (decide (a = b)) as [->|Hne].
  - by rewrite lookup_total_insert_eq.
  - by rewrite lookup_total_insert_ne.
Qed.

Lemma prv_insert h a (l : link) b :
  prv (<[a := l]> h) b = if decide (a = b) then prev l else prv h b.
Proof.
  unfold prv. destruct (decide (a = b)) as [->|Hne].
  - by rewrite lookup_total_insert_eq.
  - by rewrite lookup_total_insert_ne.
Qed.

Lemma keyof_insert h a (l : link) b :
  keyof (<[a := l]> h) b = if decide (a = b) then key l else keyof h b.
Proof.
  unfold keyof. destruct (decide (a = b)) as [->|Hne].
  - by rewrite lookup_total_insert_eq.
  - by rewrite lookup_total_insert_ne.
Qed.

Lemma nxt_set_next h a n b :
  nxt (set_next h a n) b = if decide (a = b) then n else nxt h b.
Proof. unfold set_next. by rewrite nxt_insert. Qed.

Lemma prv_set_next h a n b : prv (set_next h a n) b = prv h b.
Proof. unfold set_next. rewrite prv_insert. by case_decide; subst. Qed.

Lemma keyof_set_next h a n b : keyof (set_next h a n) b = keyof h b.
Proof. unfold set_next. rewrite keyof_insert. by case_decide; subst. Qed.

Lemma nxt_set_prev h a p b : nxt (set_prev h a p) b = nxt h b.
Proof. unfold set_prev. rewrite nxt_insert. by case_decide; subst. Qed.

Lemma prv_set_prev h a p b :
  prv (set_prev h a p) b = if decide (a = b) then p else prv h b.
Proof. unfold set_prev. by rewrite prv_insert. Qed.

Lemma keyof_set_prev h a p b : keyof (set_prev h a p) b = keyof h b.
Proof. unfold set_prev. rewrite keyof_insert. by case_decide; subst. Qed.

Lemma dom_set_next h a n : dom (set_next h a n) = {[a]} ∪ dom h.
Proof. unfold set_next. by rewrite dom_insert_L. Qed.

Lemma dom_set_prev h a p : dom (set_prev h a p) = {[a]} ∪ dom h.
Proof. unfold set_prev. by rewrite dom_insert_L. Qed.

(** *** Chains of links *)

(** [chain h x l z]: following [next] from [x] visits the links of [l] in
    order and then [z], and [prev] leads back the same way. *)
Fixpoint chain h (x : positive) (l : list positive) (z : positive) : Prop :=
  match l with
  | [] => nxt h x = z ∧ prv h z = x
  | y :: l => nxt h x = y ∧ prv h y = x ∧ chain h y l z
  end.

Lemma chain_app h x l1 y l2 z :
  chain h x (l1 ++ y :: l2) z ↔ chain h x l1 y ∧ chain h y l2 z.
Proof.
  revert x. induction l1 as [|w l1 IH]; intros x; simpl.
  - tauto.
  - rewrite IH. tauto.
Qed.

Lemma chain_snoc h x l y z :
  chain h x (l ++ [y]) z ↔ chain h x l y ∧ nxt h y = z ∧ prv h z = y.
Proof. by rewrite chain_app. Qed.

(** The last link of [x :: l]. *)
Definition last_link (x : positive) (l : list positive) : positive :=
  default x (last l).

Lemma last_link_cons x y l : last_link x (y :: l) = last_link y l.
Proof. unfold last_link. rewrite last_cons. by destruct (last l). Qed.

Lemma last_link_snoc x l y : last_link x (l ++ [y]) = y.
Proof. unfold last_link. by rewrite last_snoc. Qed.

Lemma last_link_elem_of x l : last_link x l ∈ x :: l.
Proof.
  revert x. induction l as [|y l IH]; intros x; [set_solver|].
  rewrite last_link_cons. specialize (IH y). set_solver.
Qed.

Lemma chain_last h x l z :
  chain h x l z → nxt h (last_link x l) = z ∧ prv h z = last_link x l.
Proof.
  revert x. induction l as [|y l IH]; intros x; [done|].
  rewrite last_link_cons. intros (_ & _ & Hc). by apply IH.
Qed.

Lemma chain_head h x l z :
  chain h x l z → nxt h x = hd z l ∧ prv h (hd z l) = x.
Proof. destruct l; simpl; tauto. Qed.

(** A chain reads [next] on [x :: l] and [prev] on [l ++ [z]] only. *)
Lemma chain_frame h h' x l z :
  chain h x l z →
  (∀ b, b ∈ x :: l → nxt h' b = nxt h b) →
  (∀ b, b ∈ l ++ [z] → prv h' b = prv h b) →
  chain h' x l z.
Proof.
  revert x. induction l as [|y l IH]; intros x; simpl.
  - intros [Hn Hp] Hnxt Hprv. rewrite Hnxt, Hprv by set_solver. done.
  - intros (Hn & Hp & Hc) Hnxt Hprv.
    rewrite Hnxt, Hprv by set_solver. split; [done|]. split; [done|].
    apply IH; [done| |]; intros b Hb; [apply Hnxt|apply Hprv]; set_solver.
Qed.

(** The end of a chain moved from [z] to [z']: only [next] of the last
    link and [prev] of the new end are read anew. *)
Lemma chain_retarget h h' x l z z' :
  chain h x l z → NoDup (x :: l) →
  (∀ b, b ∈ x :: l → b ≠ last_link x l → nxt h' b = nxt h b) →
  (∀ b, b ∈ l → prv h' b = prv h b) →
  nxt h' (last_link x l) = z' → prv h' z' = last_link x l →
  chain h' x l z'.
Proof.
  revert x. induction l as [|y l IH]; intros x; [done|].
  rewrite last_link_cons. simpl.
  intros (Hn & Hp & Hc) Hnd Hnxt Hprv Hl1 Hl2.
  apply NoDup_cons in Hnd as [Hx Hnd].
  pose proof (last_link_elem_of y l) as Hin.
  rewrite Hnxt, Hprv; [| set_solver | set_solver | congruence].
  split; [done|]. split; [done|].
  apply IH; [done|done| | |done|done].
  - intros b Hb Hne. apply Hnxt; [set_solver|done].
  - intros b Hb. apply Hprv. set_solver.
Qed.

(** The start of a chain moved from [x] to [x']. *)
Lemma chain_resource h h' x x' l z :
  chain h x l z → NoDup (l ++ [z]) →
  (∀ b, b ∈ l → nxt h' b = nxt h b) →
  (∀ b, b ∈ l ++ [z] → b ≠ hd z l → prv h' b = prv h b) →
  nxt h' x' = hd z l → prv h' (hd z l) = x' →
  chain h' x' l z.
Proof.
  destruct l as [|y l]; simpl; [done|].
  intros (Hn & Hp & Hc) Hnd Hnxt Hprv Hl1 Hl2.
  apply NoDup_cons in Hnd as [Hy Hnd].
  split; [done|]. split; [done|].
  apply (chain_frame h); [done| |].
  - intros b Hb. by apply Hnxt.
  - intros b Hb. apply Hprv; [set_solver|]. intros ->. done.
Qed.

(** *** The ring of an instance *)

(** Going round: two pointwise descriptions of a heap [h'] against [h]
    give the ring with a link taken out, and with a link put in at either
    side of the root. *)
Lemma ring_unlink h h' root l1 a l2 :
  NoDup (root :: l1 ++ a :: l2) →
  chain h root (l1 ++ a :: l2) root →
  (∀ b, b ≠ prv h a → nxt h' b = nxt h b) →
  (∀ b, b ≠ nxt h a → prv h' b = prv h b) →
  nxt h' (prv h a) = nxt h a →
  prv h' (nxt h a) = prv h a →
  chain h' root (l1 ++ l2) root.
Proof.
  intros Hnd Hc Hnxt Hprv Hpn Hnp.
  apply chain_app in Hc as [Hc1 Hc2].
  destruct (chain_last _ _ _ _ Hc1) as [Hlast_n Hlast_p].
  destruct (chain_head _ _ _ _ Hc2) as [Hhead_n Hhead_p].
  rewrite Hlast_p in *. rewrite Hhead_n in *.
  apply NoDup_cons in Hnd as [Hroot Hnd].
  apply NoDup_app in Hnd as (Hnd1 & Hdisj & Hnd2).
  apply NoDup_cons in Hnd2 as [Ha Hnd2].
  pose proof (last_link_elem_of root l1) as Hlast_in.
  assert (NoDup (root :: l1)) as Hnd1'.
  { apply NoDup_cons. split; [set_solver|done]. }
  destruct l2 as [|n l2]; simpl in *.
  - rewrite app_nil_r.
    apply (chain_retarget h h' root l1 a root); [done|done| | |done|done].
    + intros b Hb Hne. by apply Hnxt.
    + intros b Hb. apply Hprv. set_solver.
  - destruct Hc2 as (_ & _ & Hc2). apply NoDup_cons in Hnd2 as [Hn Hnd2].
    apply chain_app. split.
    + apply (chain_retarget h h' root l1 a n); [done|done| | |done|done].
      * intros b Hb Hne. by apply Hnxt.
      * intros b Hb. apply Hprv. intros ->. apply (Hdisj n); set_solver.
    + apply (chain_frame h); [done| |].
      * intros b Hb. apply Hnxt. intros ->.
        apply elem_of_cons in Hlast_in as [Heq|Hin].
        -- rewrite Heq in Hb. set_solver.
        -- apply (Hdisj _ Hin). set_solver.
      * intros b Hb. apply Hprv. intros ->. set_solver.
Qed.

Lemma ring_push_back h h' root l a :
  NoDup (root :: l) → a ∉ root :: l →
  chain h root l root →
  (∀ b, b ≠ prv h root → b ≠ a → nxt h' b = nxt h b) →
  (∀ b, b ≠ root → b ≠ a → prv h' b = prv h b) →
  nxt h' (prv h root) = a → prv h' a = prv h root →
  nxt h' a = root → prv h' root = a →
  chain h' root (l ++ [a]) root.
Proof.
  intros Hnd Ha Hc Hnxt Hprv H1 H2 H3 H4.
  destruct (chain_last _ _ _ _ Hc) as [Hlast_n Hlast_p].
  rewrite Hlast_p in *.
  apply chain_snoc. split; [|done].
  apply (chain_retarget h h' root l root a); [done|done| | |done|done].
  - intros b Hb Hne. apply Hnxt; [done|]. intros ->. done.
  - intros b Hb. apply NoDup_cons in Hnd as [Hroot _].
    apply Hprv; intros ->; [done|]. apply Ha. by right.
Qed.

Lemma ring_push_front h h' root l a :
  NoDup (root :: l) → a ∉ root :: l →
  chain h root l root →
  (∀ b, b ≠ root → b ≠ a → nxt h' b = nxt h b) →
  (∀ b, b ≠ nxt h root → b ≠ a → prv h' b = prv h b) →
  nxt h' root = a → prv h' a = root →
  nxt h' a = nxt h root → prv h' (nxt h root) = a →
  chain h' root (a :: l) root.
Proof.
  intros Hnd Ha Hc Hnxt Hprv H1 H2 H3 H4.
  destruct (chain_head _ _ _ _ Hc) as [Hhead_n Hhead_p].
  rewrite Hhead_n in *.
  simpl. split; [done|]. split; [done|].
  apply NoDup_cons in Hnd as [Hroot Hnd].
  apply (chain_resource h h' root a l root); [done| | | |done|done].
  - apply NoDup_app. split; [done|]. split; [set_solver|]. apply NoDup_singleton.
  - intros b Hb. apply Hnxt; intros ->; [done|]. apply Ha. by right.
  - intros b Hb Hne. apply Hprv; [done|]. intros ->. apply Ha.
    apply elem_of_app in Hb as [Hb|Hb]; [by right|]. set_solver.
Qed.

(** Walking round the ring meets the keys of its links in order. *)
Lemma walk_next h x l root fuel :
  chain h x l root → root ∉ l → (length l < fuel)%nat →
  walk h (nxt h) root fuel (hd root l) = Some (keyof h <$> l).
Proof.
  revert x fuel. induction l as [|y l IH]; intros x fuel Hc Hroot Hfuel.
  - destruct fuel; [simpl in *; lia|]. simpl. by rewrite decide_True.
  - destruct fuel; [simpl in *; lia|]. simpl in *.
    destruct Hc as (_ & _ & Hc).
    rewrite decide_False by set_solver.
    destruct (chain_head _ _ _ _ Hc) as [-> _].
    rewrite (IH y); [done|done|set_solver|lia].
Qed.

Lemma walk_prev h root l z fuel :
  chain h root l z → root ∉ l → (length l < fuel)%nat →
  walk h (prv h) root fuel (last_link root l) = Some (reverse (keyof h <$> l)).
Proof.
  revert z fuel. induction l as [|y l IH] using rev_ind; intros z fuel Hc Hroot Hfuel.
  - destruct fuel; [simpl in *; lia|]. simpl. by rewrite decide_True.
  - destruct fuel; [rewrite length_app in Hfuel; simpl in *; lia|].
    rewrite last_link_snoc. apply chain_snoc in Hc as (Hc & _ & _).
    rewrite length_app in Hfuel. simpl in *.
    rewrite decide_False by set_solver.
    destruct (chain_last _ _ _ _ Hc) as [_ ->].
    rewrite (IH y); [|done|set_solver|lia]. simpl.
    by rewrite fmap_app, reverse_app.
Qed.

(** *** The link-structure invariant *)

(** [linked self ls]: [ls] lists, oldest first, every live key with the
    address of its link.  No key and no address occurs twice and the root
    is none of the addresses; [next] leads from the root through the
    links in this order and back to the root, and [prev] the other way;
    each link holds its key; [_map] holds exactly these pairs and the
    [dict] exactly these keys. *)
Record linked (self : t) (ls : list (K * positive)) : Prop := {
  linked_keys : NoDup ls.*1;
  linked_addrs : NoDup (_root self :: ls.*2);
  linked_ring : chain (heap self) (_root self) ls.*2 (_root self);
  linked_alloc : ∀ a, a ∈ _root self :: ls.*2 → a ∈ dom (heap self);
  linked_key : ∀ k a, (k, a) ∈ ls → keyof (heap self) a = k;
  linked_map : ∀ k a, _map self !! k = Some a ↔ (k, a) ∈ ls;
  linked_dict : ∀ k, is_Some (dict self !! k) ↔ k ∈ ls.*1;
}.

(** The invariant, with the live keys from oldest to newest. *)
Definition invariant (self : t) (keys : list K) : Prop :=
  ∃ ls, ls.*1 = keys ∧ linked self ls.

Lemma linked_keyof self ls :
  linked self ls → keyof (heap self) <$> ls.*2 = ls.*1.
Proof.
  intros Hl. pose proof (linked_key _ _ Hl) as Hkey. clear Hl.
  induction ls as [|[k a] ls IH]; [done|]. simpl. f_equal.
  - apply Hkey. by left.
  - apply IH. intros k' a' Hin. apply Hkey. by right.
Qed.

Lemma linked_fuel self ls :
  linked self ls → (length ls.*2 < S (size (heap self)))%nat.
Proof.
  intros Hl. rewrite <- size_dom.
  assert (list_to_set (C := gset positive) (_root self :: ls.*2) ⊆ dom (heap self)) as Hsub.
  { intros a Ha. apply elem_of_list_to_set in Ha. by apply (linked_alloc _ _ Hl). }
  apply subseteq_size in Hsub.
  rewrite size_list_to_set in Hsub by apply (linked_addrs _ _ Hl).
  simpl in Hsub. lia.
Qed.

(** Under the invariant the forward iteration yields the live keys from
    oldest to newest and the reverse iteration from newest to oldest. *)
Lemma invariant_iter self keys :
  invariant self keys →
  __iter__ self = Some keys ∧ __reversed__ self = Some (reverse keys).
Proof.
  intros (ls & <- & Hl).
  pose proof (linked_ring _ _ Hl) as Hc.
  pose proof (linked_addrs _ _ Hl) as Hnd. apply NoDup_cons in Hnd as [Hroot _].
  pose proof (linked_fuel _ _ Hl) as Hfuel.
  rewrite <- (linked_keyof _ _ Hl).
  unfold __iter__, __reversed__. split.
  - destruct (chain_head _ _ _ _ Hc) as [-> _]. by eapply walk_next.
  - destruct (chain_last _ _ _ _ Hc) as [_ ->]. by eapply walk_prev.
Qed.

(** A live key has one link, and the root is the link of no key. *)
Lemma invariant_one_link self keys :
  invariant self keys →
  NoDup keys
  ∧ (∀ k, k ∈ keys ↔ is_Some (dict self !! k))
  ∧ (∀ k, k ∈ keys ↔ is_Some (_map self !! k))
  ∧ (∀ k1 k2 a, _map self !! k1 = Some a → _map self !! k2 = Some a → k1 = k2)
  ∧ (∀ k, _map self !! k ≠ Some (_root self))
  ∧ (∀ k a, _map self !! k = Some a → keyof (heap self) a = k).
Proof.
  intros (ls & <- & Hl). split; [apply (linked_keys _ _ Hl)|].
  split; [intros k; by rewrite (linked_dict _ _ Hl)|].
  pose proof (linked_addrs _ _ Hl) as Hnd. apply NoDup_cons in Hnd as [Hroot Hnd].
  split; [|split; [|split]].
  - intros k. rewrite list_elem_of_fmap. split.
    + intros [[k' a] [-> Hin]]. exists a. by apply (linked_map _ _ Hl).
    + intros [a Ha]. exists (k, a). split; [done|]. by apply (linked_map _ _ Hl).
  - intros k1 k2 a H1 H2. apply (linked_map _ _ Hl) in H1, H2.
    rewrite <- (linked_key _ _ Hl k1 a H1). by apply (linked_key _ _ Hl).
  - intros k Hk. apply (linked_map _ _ Hl) in Hk. apply Hroot.
    apply list_elem_of_fmap. by exists (k, _root self).
  - intros k a Hk. apply (linked_key _ _ Hl). by apply (linked_map _ _ Hl).
Qed.

(** *** The order of the keys after an operation *)

Definition add_key (keys : list K) (k : K) : list K :=
  if decide (k ∈ keys) then keys else keys ++ [k].

Definition remove_key (keys : list K) (k : K) : list K :=
  filter (λ x, x ≠ k) keys.

Lemma remove_key_absent keys k : k ∉ keys → remove_key keys k = keys.
Proof.
  intros Hk. unfold remove_key. induction keys as [|x keys IH]; [done|].
  rewrite filter_cons_True by set_solver. f_equal. apply IH. set_solver.
Qed.

Lemma remove_key_split l1 k l2 :
  NoDup (l1 ++ k :: l2) → remove_key (l1 ++ k :: l2) k = l1 ++ l2.
Proof.
  intros Hnd. apply NoDup_app in Hnd as (_ & Hdisj & Hnd).
  apply NoDup_cons in Hnd as [Hk _].
  unfold remove_key. rewrite filter_app, filter_cons_False by naive_solver.
  fold (remove_key l1 k). fold (remove_key l2 k).
  rewrite !remove_key_absent; [done|done|]. intros Hin. by apply (Hdisj k); [|left].
Qed.

Lemma NoDup_remove_mid {A} (l1 : list A) x l2 :
  NoDup (l1 ++ x :: l2) → NoDup (l1 ++ l2).
Proof.
  rewrite !NoDup_app, NoDup_cons. intros (H1 & Hd & _ & H2).
  split; [done|]. split; [|done]. intros y Hy Hy2. apply (Hd y Hy). by right.
Qed.

(** A pair of [ls] splits it; no other pair has its key or its address. *)
Lemma linked_split self ls k a :
  linked self ls → (k, a) ∈ ls →
  ∃ ls1 ls2, (ls = ls1 ++ (k, a) :: ls2)
             ∧ remove_key (ls.*1) k = (ls1 ++ ls2).*1
             ∧ (k ∉ (ls1 ++ ls2).*1) ∧ a ∉ _root self :: (ls1 ++ ls2).*2.
Proof.
  intros Hl Hin. apply list_elem_of_split in Hin as (ls1 & ls2 & ->).
  exists ls1, ls2. split; [done|].
  pose proof (linked_keys _ _ Hl) as Hk. pose proof (linked_addrs _ _ Hl) as Ha.
  rewrite fmap_app, fmap_cons in Hk. rewrite fmap_app, fmap_cons in Ha.
  simpl in *.
  rewrite !fmap_app, !fmap_cons. simpl.
  split; [by rewrite remove_key_split|]. split.
  - apply NoDup_app in Hk as (_ & Hdisj & Hk). apply NoDup_cons in Hk as [Hk _].
    intros Hin. apply elem_of_app in Hin as [Hin|Hin]; [|done].
    by apply (Hdisj k); [|left].
  - apply NoDup_cons in Ha as [Hroot Ha].
    apply NoDup_app in Ha as (_ & Hdisj & Ha). apply NoDup_cons in Ha as [Ha _].
    intros Hin. apply elem_of_cons in Hin as [->|Hin]; [set_solver|].
    apply elem_of_app in Hin as [Hin|Hin]; [|done].
    by apply (Hdisj a); [|left].
Qed.

(** *** The operations keep the invariant *)

(** Reads of [next], [prev] and [key] through the assignments made. *)
Ltac heap_reads :=
  repeat first
    [ rewrite nxt_set_next | rewrite prv_set_next | rewrite keyof_set_next
    | rewrite nxt_set_prev | rewrite prv_set_prev | rewrite keyof_set_prev
    | rewrite nxt_insert | rewrite prv_insert | rewrite keyof_insert ];
  simpl; repeat case_decide; try congruence.

Lemma fresh_not_linked self ls :
  linked self ls → fresh (dom (heap self)) ∉ _root self :: ls.*2.
Proof.
  intros Hl Hin. apply (linked_alloc _ _ Hl) in Hin. by apply is_fresh in Hin.
Qed.

Lemma linked_last_alloc self ls :
  linked self ls → prv (heap self) (_root self) ∈ _root self :: ls.*2.
Proof.
  intros Hl. destruct (chain_last _ _ _ _ (linked_ring _ _ Hl)) as [_ ->].
  apply last_link_elem_of.
Qed.

Lemma linked_first_alloc self ls :
  linked self ls → nxt (heap self) (_root self) ∈ _root self :: ls.*2.
Proof.
  intros Hl. destruct (chain_head _ _ _ _ (linked_ring _ _ Hl)) as [-> _].
  destruct ls.*2; simpl; set_solver.
Qed.

Lemma setitem_linked self ls k v :
  linked self ls →
  ∃ ls', linked (__setitem__ self k v) ls' ∧ ls'.*1 = add_key (ls.*1) k.
Proof.
  intros Hl. unfold __setitem__, add_key.
  destruct (dict self !! k) as [v0|] eqn:Hk.
  - (* the key is live: only its value changes *)
    assert (k ∈ ls.*1) as Hin by (apply (linked_dict _ _ Hl); eauto).
    rewrite decide_True by done. exists ls. split; [|done].
    destruct Hl as [Hks Hnd Hc Halloc Hkey Hmap Hdict]. split; simpl; try done.
    intros k'. rewrite <- Hdict. destruct (decide (k = k')) as [->|Hne].
    + rewrite lookup_insert_eq, Hk. split; eauto.
    + by rewrite lookup_insert_ne.
  - (* a new link goes to the end *)
    assert (k ∉ ls.*1) as Hin.
    { intros Hin. apply (linked_dict _ _ Hl) in Hin as [? Hin]. congruence. }
    rewrite decide_False by done.
    set (a := fresh (dom (heap self))).
    pose proof (fresh_not_linked _ _ Hl) as Ha. fold a in Ha.
    pose proof (linked_last_alloc _ _ Hl) as Hlast.
    pose proof (linked_addrs _ _ Hl) as Hnd.
    assert (a ≠ _root self) as Har by (intros Heq; apply Ha; rewrite Heq; by left).
    assert (prv (heap self) (_root self) ≠ a) as Hla by (intros Heq; by rewrite Heq in Hlast).
    exists (ls ++ [(k, a)]). rewrite !fmap_app. simpl. split; [|done].
    split; simpl; rewrite ?fmap_app; simpl.
    + apply NoDup_app. split; [apply (linked_keys _ _ Hl)|].
      split; [set_solver|apply NoDup_singleton].
    + rewrite app_comm_cons. apply NoDup_app. split; [done|].
      split; [|apply NoDup_singleton]. intros b Hb Hb'.
      apply list_elem_of_singleton in Hb' as ->. done.
    + apply (ring_push_back (heap self)); [done|done|apply (linked_ring _ _ Hl)|..].
      * intros b Hb1 Hb2. by heap_reads.
      * intros b Hb1 Hb2. by heap_reads.
      * by heap_reads.
      * by heap_reads.
      * by heap_reads.
      * by heap_reads.
    + intros b Hb. rewrite dom_set_prev, dom_set_next, dom_insert_L.
      rewrite app_comm_cons in Hb. apply elem_of_app in Hb as [Hb|Hb].
      * apply (linked_alloc _ _ Hl) in Hb. set_solver.
      * set_solver.
    + intros k' a' Hin'. apply elem_of_app in Hin' as [Hin'|Hin'].
      * assert (a' ≠ a).
        { intros ->. apply Ha. right. apply list_elem_of_fmap. by exists (k', a). }
        heap_reads. by apply (linked_key _ _ Hl).
      * apply list_elem_of_singleton in Hin'. injection Hin' as -> ->. by heap_reads.
    + intros k' a'. rewrite elem_of_app, list_elem_of_singleton.
      rewrite <- (linked_map _ _ Hl). destruct (decide (k = k')) as [->|Hne].
      * rewrite lookup_insert_eq. split.
        -- intros [= <-]. by right.
        -- intros [Hm|[= <-]]; [|done]. exfalso. apply Hin.
           apply (linked_map _ _ Hl) in Hm. apply list_elem_of_fmap. by exists (k', a').
      * rewrite lookup_insert_ne by done. split; [by left|].
        intros [?|[= ? ?]]; [done|congruence].
    + intros k'. rewrite elem_of_app, list_elem_of_singleton.
      rewrite <- (linked_dict _ _ Hl). destruct (decide (k = k')) as [->|Hne].
      * rewrite lookup_insert_eq. split; eauto.
      * rewrite lookup_insert_ne by done. split; [by left|].
        intros [?|?]; [done|congruence].
Qed.

(** The heap after [prev.next, next.prev = link.next, link.prev] for the
    link at [a]. *)
Definition unlink (h : gmap positive link) (a : positive) : gmap positive link :=
  set_prev (set_next h (prv h a) (nxt h a)) (nxt h a) (prv h a).

Lemma unlink_ring self ls1 k a ls2 :
  linked self (ls1 ++ (k, a) :: ls2) →
  NoDup (_root self :: (ls1 ++ ls2).*2)
  ∧ chain (unlink (heap self) a) (_root self) (ls1 ++ ls2).*2 (_root self)
  ∧ (∀ b, b ∈ dom (heap self) → b ∈ dom (unlink (heap self) a))
  ∧ (∀ b, keyof (unlink (heap self) a) b = keyof (heap self) b).
Proof.
  intros Hl. pose proof (linked_addrs _ _ Hl) as Hnd.
  pose proof (linked_ring _ _ Hl) as Hc.
  rewrite !fmap_app, !fmap_cons in *. simpl in *.
  split; [|split; [|split]].
  - apply NoDup_cons in Hnd as [Hroot Hnd]. apply NoDup_cons. split.
    + set_solver.
    + by apply NoDup_remove_mid in Hnd.
  - apply (ring_unlink (heap self) _ _ _ a); [done|done|..]; unfold unlink.
    + intros b Hb. by heap_reads.
    + intros b Hb. by heap_reads.
    + by heap_reads.
    + by heap_reads.
  - intros b Hb. unfold unlink. rewrite dom_set_prev, dom_set_next. set_solver.
  - intros b. unfold unlink. by heap_reads.
Qed.

Lemma delitem_linked self ls k :
  linked self ls →
  ∃ ls', linked (state_of (__delitem__ self k)) ls'
         ∧ ls'.*1 = remove_key (ls.*1) k.
Proof.
  intros Hl. unfold __delitem__.
  destruct (dict self !! k) as [v0|] eqn:Hk.
  - assert (k ∈ ls.*1) as Hin by (apply (linked_dict _ _ Hl); eauto).
    apply list_elem_of_fmap in Hin as ([k' a] & -> & Hin). simpl in *.
    pose proof Hin as Hm. apply (linked_map _ _ Hl) in Hm. rewrite Hm.
    destruct (linked_split _ _ _ _ Hl Hin) as (ls1 & ls2 & -> & Hrm & Hk1 & Ha1).
    destruct (unlink_ring _ _ _ _ _ Hl) as (Hnd & Hc & Hdom & Hkey).
    exists (ls1 ++ ls2). split; [|done]. simpl. fold (unlink (heap self) a).
    split; simpl.
    + pose proof (linked_keys _ _ Hl) as Hks.
      rewrite !fmap_app, !fmap_cons in *. by apply NoDup_remove_mid in Hks.
    + done.
    + done.
    + intros b Hb. apply Hdom, (linked_alloc _ _ Hl).
      rewrite !fmap_app, !fmap_cons in *. set_solver.
    + intros k1 a1 Hin1. rewrite Hkey. apply (linked_key _ _ Hl). set_solver.
    + intros k1 a1. destruct (decide (k' = k1)) as [->|Hne].
      * rewrite lookup_delete_eq. split; [done|]. intros Hin1. exfalso.
        apply Hk1. apply list_elem_of_fmap. by exists (k1, a1).
      * rewrite lookup_delete_ne by done. rewrite (linked_map _ _ Hl).
        rewrite !elem_of_app, elem_of_cons. split; [|tauto].
        intros [?|[[= ? ?]|?]]; [tauto|congruence|tauto].
    + intros k1. destruct (decide (k' = k1)) as [->|Hne].
      * rewrite lookup_delete_eq. split; [by intros [? ?]|done].
      * rewrite lookup_delete_ne by done. rewrite (linked_dict _ _ Hl).
        rewrite !fmap_app, !fmap_cons, !elem_of_app, elem_of_cons. simpl.
        split; [|tauto]. intros [?|[?|?]]; [tauto|congruence|tauto].
  - assert (k ∉ ls.*1) as Hin.
    { intros Hin. apply (linked_dict _ _ Hl) in Hin as [? Hin]. congruence. }
    exists ls. split; [done|]. by rewrite remove_key_absent.
Qed.

Lemma move_to_end_linked self ls k last :
  linked self ls →
  ∃ ls', linked (state_of (move_to_end self k last)) ls'
         ∧ ls'.*1 = if decide (k ∈ ls.*1)
                    then (if last then remove_key (ls.*1) k ++ [k]
                          else k :: remove_key (ls.*1) k)
                    else ls.*1.
Proof.
  intros Hl. unfold move_to_end.
  destruct (dict self !! k) as [v0|] eqn:Hk.
  - assert (k ∈ ls.*1) as Hin by (apply (linked_dict _ _ Hl); eauto).
    rewrite decide_True by done.
    apply list_elem_of_fmap in Hin as ([k' a] & -> & Hin). simpl in *.
    pose proof Hin as Hm. apply (linked_map _ _ Hl) in Hm. rewrite Hm.
    destruct (linked_split _ _ _ _ Hl Hin) as (ls1 & ls2 & -> & Hrm & Hk1 & Ha1).
    destruct (unlink_ring _ _ _ _ _ Hl) as (Hnd & Hc & Hdom & Hkey).
    simpl. fold (unlink (heap self) a).
    set (h1 := unlink (heap self) a) in *.
    assert (a ≠ _root self) as Har by (intros Heq; apply Ha1; rewrite Heq; by left).
    assert (∀ k1 a1, _map self !! k1 = Some a1
                     ↔ (k1, a1) ∈ (k', a) :: ls1 ++ ls2) as Hmap.
    { intros k1 a1. rewrite (linked_map _ _ Hl).
      rewrite elem_of_cons, !elem_of_app, elem_of_cons. tauto. }
    assert (∀ k1, is_Some (dict self !! k1) ↔ k1 ∈ k' :: (ls1 ++ ls2).*1) as Hdict.
    { intros k1. rewrite (linked_dict _ _ Hl).
      rewrite !fmap_app, !fmap_cons, elem_of_cons, !elem_of_app, elem_of_cons.
      simpl. tauto. }
    assert (NoDup (k' :: (ls1 ++ ls2).*1)) as Hks.
    { apply NoDup_cons. split; [done|]. pose proof (linked_keys _ _ Hl) as Hks.
      rewrite fmap_app, fmap_cons in Hks. rewrite fmap_app.
      by apply NoDup_remove_mid in Hks. }
    assert (∀ k1 a1, (k1, a1) ∈ (k', a) :: ls1 ++ ls2 → keyof h1 a1 = k1) as Hkeys.
    { intros k1 a1 Hin1. unfold h1. rewrite Hkey. apply (linked_key _ _ Hl).
      set_solver. }
    assert (∀ b, b ∈ _root self :: a :: (ls1 ++ ls2).*2 → b ∈ dom h1) as Halloc.
    { intros b Hb. apply Hdom, (linked_alloc _ _ Hl).
      rewrite !fmap_app, !fmap_cons in *. set_solver. }
    rewrite Hrm. clearbody h1. clear Hdom Hkey Hrm Hin Hl.
    set (l := ls1 ++ ls2) in *. clearbody l. clear ls1 ls2.
    destruct last.
    + (* the link goes before the root *)
      set (r := prv h1 (_root self)).
      assert (r ∈ _root self :: l.*2) as Hr.
      { unfold r. destruct (chain_last _ _ _ _ Hc) as [_ ->]. apply last_link_elem_of. }
      assert (r ≠ a) as Hra by (intros Heq; by rewrite Heq in Hr).
      exists (l ++ [(k', a)]). split; [|by rewrite fmap_app].
      split; simpl; rewrite ?fmap_app; simpl.
      * apply NoDup_app. split; [by apply NoDup_cons in Hks as [_ ?]|].
        split; [|apply NoDup_singleton]. intros b Hb Hb'.
        by apply list_elem_of_singleton in Hb' as ->.
      * rewrite app_comm_cons. apply NoDup_app. split; [done|].
        split; [|apply NoDup_singleton]. intros b Hb Hb'.
        by apply list_elem_of_singleton in Hb' as ->.
      * apply (ring_push_back h1); [done|done|done|..]; fold r.
        -- intros b Hb1 Hb2. by heap_reads.
        -- intros b Hb1 Hb2. by heap_reads.
        -- by heap_reads.
        -- by heap_reads.
        -- by heap_reads.
        -- by heap_reads.
      * intros b Hb. rewrite !dom_set_next, !dom_set_prev, !dom_set_next.
        assert (b ∈ dom h1); [|set_solver]. apply Halloc. set_solver.
      * intros k1 a1 Hin1. heap_reads; apply Hkeys; set_solver.
      * intros k1 a1. rewrite Hmap. set_solver.
      * intros k1. rewrite Hdict. set_solver.
    + (* the link goes after the root *)
      set (r := nxt h1 (_root self)).
      assert (r ∈ _root self :: l.*2) as Hr.
      { unfold r. destruct (chain_head _ _ _ _ Hc) as [-> _].
        destruct (l.*2); simpl; set_solver. }
      assert (r ≠ a) as Hra by (intros Heq; by rewrite Heq in Hr).
      exists ((k', a) :: l). split; [|done].
      split; simpl.
      * done.
      * apply NoDup_cons in Hnd as [Hroot Hnd]. apply NoDup_cons. split.
        -- intros Hin1. apply elem_of_cons in Hin1 as [Heq|Hin1]; [congruence|done].
        -- apply NoDup_cons. split; [|done]. intros Hin1. apply Ha1. by right.
      * apply (ring_push_front h1 _ (_root self) _ a); [done|done|done|..]; fold r.
        -- intros b Hb1 Hb2. by heap_reads.
        -- intros b Hb1 Hb2. by heap_reads.
        -- by heap_reads.
        -- by heap_reads.
        -- by heap_reads.
        -- by heap_reads.
      * intros b Hb. rewrite !dom_set_next, !dom_set_prev, !dom_set_next.
        assert (b ∈ dom h1); [|set_solver]. apply Halloc. set_solver.
      * intros k1 a1 Hin1. heap_reads; apply Hkeys; set_solver.
      * done.
      * done.
  - assert (k ∉ ls.*1) as Hin.
    { intros Hin. apply (linked_dict _ _ Hl) in Hin as [? Hin]. congruence. }
    rewrite decide_False by done. by exists ls.
Qed.

Lemma setitem_invariant self keys k v :
  invariant self keys → invariant (__setitem__ self k v) (add_key keys k).
Proof.
  intros (ls & <- & Hl). destruct (setitem_linked _ _ k v Hl) as (ls' & Hl' & Heq).
  by exists ls'.
Qed.

Lemma delitem_invariant self keys k :
  invariant self keys →
  invariant (state_of (__delitem__ self k)) (remove_key keys k).
Proof.
  intros (ls & <- & Hl). destruct (delitem_linked _ _ k Hl) as (ls' & Hl' & Heq).
  by exists ls'.
Qed.

Lemma move_to_end_invariant self keys k last :
  invariant self keys →
  invariant (state_of (move_to_end self k last))
    (if decide (k ∈ keys)
     then (if last then remove_key keys k ++ [k] else k :: remove_key keys k)
     else keys).
Proof.
  intros (ls & <- & Hl).
  destruct (move_to_end_linked _ _ k last Hl) as (ls' & Hl' & Heq).
  by exists ls'.
Qed.

(** Whatever [pop] returns or raises, it leaves the state [del self[key]]
    leaves. *)
Lemma pop_state self k default :
  state_of (pop self k default) = state_of (__delitem__ self k).
Proof.
  unfold pop. destruct (dict self !! k) as [v|] eqn:Hk.
  - destruct (__delitem__ self k) as [[] s'|e s']; [done|].
    by destruct e, default.
  - unfold __delitem__. rewrite Hk. by destruct default.
Qed.

Lemma pop_invariant self keys k default :
  invariant self keys →
  invariant (state_of (pop self k default)) (remove_key keys k).
Proof. rewrite pop_state. apply delitem_invariant. Qed.

Lemma setdefault_invariant self keys k default :
  invariant self keys →
  invariant (state_of (setdefault self k default)) (add_key keys k).
Proof.
  intros Hinv. unfold setdefault.
  destruct (dict self !! k) as [v|] eqn:Hk.
  - rewrite Hk. simpl. unfold add_key. rewrite decide_True; [done|].
    destruct Hinv as (ls & <- & Hl). apply (linked_dict _ _ Hl). eauto.
  - apply (setitem_invariant _ _ k default) in Hinv.
    by destruct (dict (__setitem__ self k default) !! k).
Qed.

Lemma setitems_invariant self keys (pairs : list (K * V)) :
  invariant self keys →
  invariant (foldl (λ self '(key, value), __setitem__ self key value) self pairs)
            (foldl add_key keys pairs.*1).
Proof.
  revert self keys. induction pairs as [|[k v] pairs IH]; intros self keys Hinv.
  - done.
  - simpl. apply IH. by apply setitem_invariant.
Qed.

Lemma update_invariant self keys mapping kwargs :
  invariant self keys →
  invariant (update self mapping kwargs)
            (foldl add_key keys (mapping ++ kwargs).*1).
Proof.
  intros Hinv. unfold update. simpl. rewrite fmap_app, foldl_app.
  by apply setitems_invariant, setitems_invariant.
Qed.

(** A heap with a new root and nothing else linked. *)
Lemma new_root_invariant (h : gmap positive link) :
  invariant {| _root := (new_root h).1; _map := ∅; dict := ∅;
               heap := (new_root h).2 |} [].
Proof.
  exists []. split; [done|]. unfold new_root. split; simpl.
  - apply NoDup_nil_2.
  - apply NoDup_singleton.
  - split; by heap_reads.
  - intros a Ha. apply list_elem_of_singleton in Ha as ->.
    rewrite dom_insert_L. set_solver.
  - intros k a Hin. by apply elem_of_nil in Hin.
  - intros k a. rewrite lookup_empty. split; [done|]. intros Hin.
    by apply elem_of_nil in Hin.
  - intros k. rewrite lookup_empty. split.
    + by intros [? ?].
    + intros Hin. by apply elem_of_nil in Hin.
Qed.

Lemma clear_invariant self : invariant (clear self) [].
Proof. apply new_root_invariant. Qed.

Lemma init_invariant mapping kwargs :
  invariant (__init__ mapping kwargs) (foldl add_key [] (mapping ++ kwargs).*1).
Proof. apply update_invariant, new_root_invariant. Qed.

Lemma fromkeys_invariant iterable value :
  invariant (fromkeys iterable value) (foldl add_key [] iterable).
Proof.
  unfold fromkeys.
  pose proof (init_invariant ((λ key, (key, value)) <$> iterable) []) as Hinv.
  rewrite app_nil_r, <- list_fmap_compose in Hinv.
  by rewrite list_fmap_id in Hinv.
Qed.

(** Under the invariant the [dict] is empty exactly when no key is
    linked. *)
Lemma linked_size self ls : linked self ls → size (dict self) = 0%nat ↔ ls = [].
Proof.
  intros Hl. rewrite map_size_empty_iff. split.
  - intros Hempty. destruct ls as [|[k a] ls]; [done|].
    assert (is_Some (dict self !! k)) as [v Hv].
    { apply (linked_dict _ _ Hl). by left. }
    by rewrite Hempty, lookup_empty in Hv.
  - intros ->. apply map_eq. intros k. rewrite lookup_empty.
    apply eq_None_not_Some. rewrite (linked_dict _ _ Hl). apply not_elem_of_nil.
Qed.

Lemma popitem_invariant self keys last :
  invariant self keys →
  invariant (state_of (popitem self last))
    (if last then take (length keys - 1) keys else drop 1 keys).
Proof.
  intros Hinv. pose proof Hinv as (ls & <- & Hl). unfold popitem.
  destruct (decide (size (dict self) = 0%nat)) as [Hsize|Hsize].
  - apply (linked_size _ _ Hl) in Hsize as ->. simpl. by destruct last.
  - assert (ls ≠ []) as Hne by (by rewrite <- (linked_size _ _ Hl)).
    pose proof (linked_addrs _ _ Hl) as Hnd.
    pose proof (linked_keys _ _ Hl) as Hks.
    pose proof (linked_ring _ _ Hl) as Hc.
    unfold first_key. destruct last.
    + (* the newest key: the link before the root *)
      destruct ls as [|[k a] ls _] using rev_ind; [done|].
      rewrite fmap_app in Hnd. rewrite fmap_app in Hks. rewrite fmap_app in Hc.
      simpl in *.
      destruct (chain_last _ _ _ _ Hc) as [_ ->]. rewrite last_link_snoc.
      apply NoDup_cons in Hnd as [Hroot _].
      rewrite decide_False by (intros ->; set_solver).
      rewrite (linked_key _ _ Hl k a) by set_solver.
      assert (state_of
                match pop self k None with
                | Returns value self0 => Returns (k, value) self0
                | Raises e self0 => Raises e self0
                end = state_of (pop self k None)) as ->
        by (by destruct (pop self k None)).
      apply (pop_invariant _ _ k None) in Hinv.
      rewrite fmap_app in *. simpl in *.
      rewrite remove_key_split, app_nil_r in Hinv by done.
      rewrite length_app. simpl.
      replace (length ls.*1 + 1 - 1)%nat with (length ls.*1) by lia.
      by rewrite take_app_length.
    + (* the oldest key: the link after the root *)
      destruct ls as [|[k a] ls]; [done|].
      rewrite fmap_cons in Hnd. rewrite fmap_cons in Hks. rewrite fmap_cons in Hc.
      rewrite fmap_cons in Hinv. rewrite fmap_cons. cbn [fst snd chain] in *.
      destruct Hc as (-> & _ & _).
      apply NoDup_cons in Hnd as [Hroot _].
      rewrite decide_False by (intros ->; set_solver).
      rewrite (linked_key _ _ Hl k a) by set_solver.
      assert (state_of
                match pop self k None with
                | Returns value self0 => Returns (k, value) self0
                | Raises e self0 => Raises e self0
                end = state_of (pop self k None)) as ->
        by (by destruct (pop self k None)).
      apply (pop_invariant _ _ k None) in Hinv.
      pose proof (remove_key_split [] k (ls.*1) Hks) as Hrm.
      cbn [app] in Hrm. rewrite Hrm in Hinv. by rewrite skipn_cons, drop_0.
Qed.

(** *** All operations at once *)

(** The operations that change an instance, and [fromkeys], which makes
    a new one. *)
Inductive operation : Type :=
  | set_item (key : K) (value : V)
  | del_item (key : K)
  | pop_key (key : K) (default : option V)
  | pop_item (last : bool)
  | set_default (key : K) (default : V)
  | update_from (mapping kwargs : list (K * V))
  | clear_all
  | move (key : K) (last : bool)
  | from_keys (iterable : list K) (value : V).

(** The instance an operation leaves, whether it returns or raises; for
    [fromkeys] the instance it returns. *)
Definition run (op : operation) (self : t) : t :=
  match op with
  | set_item key value => __setitem__ self key value
  | del_item key => state_of (__delitem__ self key)
  | pop_key key default => state_of (pop self key default)
  | pop_item last => state_of (popitem self last)
  | set_default key default => state_of (setdefault self key default)
  | update_from mapping kwargs => update self mapping kwargs
  | clear_all => clear self
  | move key last => state_of (move_to_end self key last)
  | from_keys iterable value => fromkeys iterable value
  end.

(** The live keys, oldest first, after an operation on an instance whose
    live keys were [keys]: a new key is the newest, a key set again keeps
    its place, a removed key leaves the others in order. *)
Definition order_after (op : operation) (keys : list K) : list K :=
  match op with
  | set_item key _ | set_default key _ => add_key keys key
  | del_item key | pop_key key _ => remove_key keys key
  | pop_item last => if last then take (length keys - 1) keys else drop 1 keys
  | update_from mapping kwargs => foldl add_key keys (mapping ++ kwargs).*1
  | clear_all => []
  | move key last =>
      if decide (key ∈ keys)
      then (if last then remove_key keys key ++ [key]
            else key :: remove_key keys key)
      else keys
  | from_keys iterable _ => foldl add_key [] iterable
  end.

Lemma run_invariant op self keys :
  invariant self keys → invariant (run op self) (order_after op keys).
Proof.
  intros Hinv. destruct op; simpl.
  - by apply setitem_invariant.
  - by apply delitem_invariant.
  - by apply pop_invariant.
  - by apply popitem_invariant.
  - by apply setdefault_invariant.
  - by apply update_invariant.
  - by apply clear_invariant.
  - by apply move_to_end_invariant.
  - by apply fromkeys_invariant.
Qed.

(** What the claim asks of an instance whose live keys, oldest first, are
    [keys]: the invariant; one link per live key, in [_map], with the key
    in it; the root the link of no key; the two iterations in order. *)
Definition links_kept (self : t) (keys : list K) : Prop :=
  invariant self keys
  ∧ NoDup keys
  ∧ (∀ k, k ∈ keys ↔ is_Some (dict self !! k))
  ∧ (∀ k, k ∈ keys ↔ is_Some (_map self !! k))
  ∧ (∀ k1 k2 a, _map self !! k1 = Some a → _map self !! k2 = Some a → k1 = k2)
  ∧ (∀ k, _map self !! k ≠ Some (_root self))
  ∧ (∀ k a, _map self !! k = Some a → keyof (heap self) a = k)
  ∧ __iter__ self = Some keys
  ∧ __reversed__ self = Some (reverse keys).

(** C8. Every operation of an [OrderedDict] keeps the link structure: if
    the ring of links anchored at the root holds one link per live key
    before, then after the operation it holds one link per live key again,
    the root is the link of no key, the forward iteration yields the live
    keys from oldest to newest and the reverse iteration yields them from
    newest to oldest. *)
Theorem operations_preserve_links (op : operation) (self : t) (keys : list K) :
  invariant self keys → links_kept (run op self) (order_after op keys).
Proof.
  intros Hinv. pose proof (run_invariant op _ _ Hinv) as Hinv'.
  destruct (invariant_one_link _ _ Hinv') as (H1 & H2 & H3 & H4 & H5 & H6).
  destruct (invariant_iter _ _ Hinv') as [H7 H8].
  unfold links_kept. repeat (split; [assumption|]). assumption.
Qed.

(** *** Equality *)

Lemma forallb_zip_same (items rest : list (K * V)) :
  forallb (λ '(i1, i2), bool_decide (i1 = i2)) (zip items (items ++ rest)) = true.
Proof.
  induction items as [|i items IH]; [done|]. simpl.
  by rewrite bool_decide_eq_true_2.
Qed.

(** Against an instance of the class, [==] compares the items pairwise as
    far as the shorter sequence goes: an instance whose items are the
    first items of the other compares equal to it. *)
Lemma eq_prefix self other items rest :
  iteritems self = Some items →
  iteritems other = Some (items ++ rest) →
  __eq__ self (same_class other) = Some true.
Proof.
  intros H1 H2. unfold __eq__. rewrite H1, H2. simpl.
  by rewrite forallb_zip_same.
Qed.

(** Against a mapping of another type, [==] compares the contents. *)
Lemma eq_other_mapping self (other : gmap K V) :
  __eq__ self (other_mapping other) = Some (bool_decide (dict self = other)).
Proof. done. Qed.

(** *** What the operations return *)

Lemma delitem_returns self ls k a :
  linked self ls → (k, a) ∈ ls →
  ∃ s', __delitem__ self k = Returns tt s' ∧ dict s' = delete k (dict self).
Proof.
  intros Hl Hin. unfold __delitem__.
  assert (is_Some (dict self !! k)) as [v Hv].
  { apply (linked_dict _ _ Hl). apply list_elem_of_fmap. by exists (k, a). }
  rewrite Hv. simpl. apply (linked_map _ _ Hl) in Hin. rewrite Hin.
  by eexists.
Qed.

Lemma pop_returns self keys k default :
  invariant self keys →
  match dict self !! k with
  | Some v =>
      ∃ s', pop self k default = Returns v s'
            ∧ invariant s' (remove_key keys k)
            ∧ dict s' = delete k (dict self)
  | None =>
      pop self k default
      = match default with
        | Some d => Returns d self
        | None => Raises KeyError self
        end
  end.
Proof.
  intros Hinv. pose proof (pop_invariant _ _ k default Hinv) as Hinv'.
  destruct Hinv as (ls & <- & Hl).
  destruct (dict self !! k) as [v|] eqn:Hv.
  - assert (k ∈ ls.*1) as Hin by (apply (linked_dict _ _ Hl); eauto).
    apply list_elem_of_fmap in Hin as ([k' a] & -> & Hin). simpl in *.
    destruct (delitem_returns _ _ _ _ Hl Hin) as (s' & Hdel & Hdict).
    unfold pop in *. rewrite Hv in *. rewrite Hdel in *. by exists s'.
  - unfold pop. rewrite Hv. by destruct default.
Qed.

(** The key [popitem] takes: the one of the link before the root, or after
    it. *)
Lemma first_key_spec self ls (last : bool) :
  linked self ls → ls ≠ [] →
  ∃ k, (if last then list.last ls.*1 else head ls.*1) = Some k
       ∧ first_key self last = Ok k.
Proof.
  intros Hl Hne. pose proof (linked_addrs _ _ Hl) as Hnd.
  pose proof (linked_ring _ _ Hl) as Hc.
  apply NoDup_cons in Hnd as [Hroot _]. unfold first_key. destruct last.
  - destruct ls as [|[k a] ls _] using rev_ind; [done|].
    rewrite fmap_app in Hroot. rewrite fmap_app in Hc. simpl in *.
    exists k. rewrite fmap_app. simpl. rewrite last_snoc. split; [done|].
    destruct (chain_last _ _ _ _ Hc) as [_ ->]. rewrite last_link_snoc.
    rewrite decide_False by (intros ->; set_solver).
    by rewrite (linked_key _ _ Hl k a) by set_solver.
  - destruct ls as [|[k a] ls]; [done|].
    rewrite fmap_cons in Hroot. rewrite fmap_cons in Hc. cbn [fst snd chain] in *.
    exists k. rewrite fmap_cons. split; [done|].
    destruct Hc as (-> & _ & _).
    rewrite decide_False by (intros ->; set_solver).
    by rewrite (linked_key _ _ Hl k a) by set_solver.
Qed.

Lemma remove_key_app keys1 keys2 k :
  remove_key (keys1 ++ keys2) k = remove_key keys1 k ++ remove_key keys2 k.
Proof. unfold remove_key. apply filter_app. Qed.

Lemma remove_key_idemp keys k : remove_key (remove_key keys k) k = remove_key keys k.
Proof.
  apply remove_key_absent. unfold remove_key. rewrite list_elem_of_filter. tauto.
Qed.

Lemma remove_key_singleton k : remove_key [k] k = [].
Proof. unfold remove_key. by rewrite filter_cons_False by tauto. Qed.

(** Under the invariant every live key has its value, and the items come in
    the order of the keys. *)
Lemma iteritems_invariant self keys :
  invariant self keys →
  ∃ values, itervalues self = Some values
            ∧ iteritems self = Some (zip keys values)
            ∧ Forall2 (λ k v, dict self !! k = Some v) keys values.
Proof.
  intros Hinv. destruct (invariant_iter _ _ Hinv) as [Hiter _].
  destruct (invariant_one_link _ _ Hinv) as (_ & Hdict & _).
  assert (∃ values, Forall2 (λ k v, dict self !! k = Some v) keys values)
    as [values Hvalues].
  { assert (∀ k, k ∈ keys → is_Some (dict self !! k)) as Hlive
      by (intros k; apply Hdict).
    clear Hiter Hinv Hdict. induction keys as [|k keys IH].
    - exists []. constructor.
    - destruct IH as [values Hvalues].
      { intros k' Hin. apply Hlive. by right. }
      destruct (Hlive k) as [v Hv]; [by left|].
      exists (v :: values). by constructor. }
  exists values.
  assert (itervalues self = Some values) as Hvs.
  { unfold itervalues. rewrite Hiter. simpl. by apply mapM_Some. }
  split; [done|]. split; [|done].
  unfold iteritems, iterkeys. rewrite Hiter, Hvs. done.
Qed.

Lemma forallb_zip_eq (l1 l2 : list (K * V)) :
  length l1 = length l2 →
  forallb (λ '(i1, i2), bool_decide (i1 = i2)) (zip l1 l2) = bool_decide (l1 = l2).
Proof.
  revert l2. induction l1 as [|x l1 IH]; intros [|y l2] Hlen;
    try discriminate Hlen.
  - symmetry. by apply bool_decide_eq_true_2.
  - cbn [zip zip_with forallb]. rewrite IH by (simpl in Hlen; lia).
    destruct (decide (x = y)) as [->|Hne].
    + rewrite (bool_decide_eq_true_2 (y = y)) by done. cbn [andb].
      apply bool_decide_ext. split; [by intros ->|by intros [= ->]].
    + rewrite (bool_decide_eq_false_2 (x = y)) by done. cbn [andb].
      symmetry. apply bool_decide_eq_false_2. by intros [= ? ?].
Qed.

(** X12. [popitem] returns the newest item, or the oldest for [last=False],
    with its value, and unlinks it: the other keys stay live in their order.
    On an empty instance it raises [KeyError] and changes nothing. *)
Theorem popitem_returns_end_item self keys (last : bool) :
  invariant self keys →
  match (if last then list.last keys else head keys) with
  | None => keys = [] ∧ popitem self last = Raises KeyError self
  | Some k =>
      ∃ v s', dict self !! k = Some v
              ∧ popitem self last = Returns (k, v) s'
              ∧ invariant s' (if last then take (length keys - 1) keys else drop 1 keys)
              ∧ dict s' = delete k (dict self)
  end.
Proof.
  intros Hinv. pose proof (popitem_invariant _ _ last Hinv) as Hinv'.
  pose proof Hinv as (ls & <- & Hl).
  destruct ls as [|p ls].
  - assert (size (dict self) = 0%nat) as Hsize by (by apply (linked_size _ _ Hl)).
    unfold popitem. rewrite decide_True by done. by destruct last.
  - destruct (first_key_spec self (p :: ls) last Hl) as (k & Hk & Hfirst); [done|].
    rewrite Hk.
    assert (k ∈ (p :: ls).*1) as Hin.
    { destruct last; [by apply last_Some_elem_of|by apply head_Some_elem_of]. }
    assert (is_Some (dict self !! k)) as [v Hv] by (by apply (linked_dict _ _ Hl)).
    pose proof (pop_returns self _ k None Hinv) as Hpop. rewrite Hv in Hpop.
    destruct Hpop as (s' & Hpop & _ & Hdict).
    assert (size (dict self) ≠ 0%nat) as Hsize by (by rewrite (linked_size _ _ Hl)).
    unfold popitem in *. rewrite decide_False in * by done.
    rewrite Hfirst in *. rewrite Hpop in *. by exists v, s'.
Qed.

(** X13. Moving a live key to the end and then to the front leaves it the
    first key, the other keys in the order they had; after the first move it
    is the last. *)
Theorem move_to_end_then_front self keys k :
  invariant self keys → k ∈ keys →
  __iter__ (state_of (move_to_end self k true)) = Some (remove_key keys k ++ [k])
  ∧ __iter__ (state_of (move_to_end (state_of (move_to_end self k true)) k false))
    = Some (k :: remove_key keys k)
  ∧ __reversed__ (state_of (move_to_end (state_of (move_to_end self k true)) k false))
    = Some (reverse (remove_key keys k) ++ [k]).
Proof.
  intros Hinv Hk.
  set (s1 := state_of (move_to_end self k true)).
  set (s2 := state_of (move_to_end s1 k false)).
  pose proof (move_to_end_invariant _ _ k true Hinv) as H1.
  rewrite decide_True in H1 by done. fold s1 in H1.
  pose proof (move_to_end_invariant _ _ k false H1) as H2.
  rewrite decide_True in H2 by set_solver. fold s2 in H2.
  rewrite remove_key_app, remove_key_idemp, remove_key_singleton, app_nil_r in H2.
  destruct (invariant_iter _ _ H1) as [-> _].
  destruct (invariant_iter _ _ H2) as [-> ->].
  by rewrite reverse_cons.
Qed.

(** X14. Between two instances with the same number of items, [==] holds
    exactly when their item sequences are equal, key by key and value by
    value in insertion order. *)
Theorem eq_compares_items_of_equal_length self other keys1 keys2 :
  invariant self keys1 → invariant other keys2 → length keys1 = length keys2 →
  ∃ items1 items2,
    iteritems self = Some items1 ∧ iteritems other = Some items2
    ∧ __eq__ self (same_class other) = Some (bool_decide (items1 = items2)).
Proof.
  intros H1 H2 Hlen.
  destruct (iteritems_invariant _ _ H1) as (vs1 & _ & Hi1 & Hf1).
  destruct (iteritems_invariant _ _ H2) as (vs2 & _ & Hi2 & Hf2).
  exists (zip keys1 vs1), (zip keys2 vs2). split; [done|]. split; [done|].
  unfold __eq__. rewrite Hi1, Hi2. simpl. f_equal. apply forallb_zip_eq.
  apply Forall2_length in Hf1, Hf2. rewrite !length_zip. lia.
Qed.

(** X15. [pop] of a live key returns its value and unlinks the key, the
    other keys staying in order; for a key that is not live it returns the
    default, or raises [KeyError] without one, and leaves the instance as it
    was. *)
Theorem pop_returns_value_or_default self keys k default :
  invariant self keys →
  match dict self !! k with
  | Some v =>
      ∃ s', pop self k default = Returns v s'
            ∧ invariant s' (remove_key keys k)
            ∧ dict s' = delete k (dict self)
            ∧ __iter__ s' = Some (remove_key keys k)
  | None =>
      (k ∉ keys)
      ∧ pop self k default
        = match default with
          | Some d => Returns d self
          | None => Raises KeyError self
          end
  end.
Proof.
  intros Hinv. pose proof (pop_returns self keys k default Hinv) as Hpop.
  destruct (invariant_one_link _ _ Hinv) as (_ & Hdict & _).
  destruct (dict self !! k) as [v|] eqn:Hv.
  - destruct Hpop as (s' & Hpop & Hinv' & Hd). exists s'.
    repeat (split; [done|]). by destruct (invariant_iter _ _ Hinv') as [-> _].
  - split; [|done]. rewrite Hdict, Hv. by intros [? ?].
Qed.

(** X16. [iteritems] pairs every live key, in insertion order, with the
    value stored for it, and [itervalues] yields these values in the same
    order. *)
Theorem items_follow_insertion_order self keys :
  invariant self keys →
  ∃ items, iteritems self = Some items
           ∧ itervalues self = Some items.*2
           ∧ items.*1 = keys
           ∧ ∀ k v, (k, v) ∈ items ↔ dict self !! k = Some v.
Proof.
  intros Hinv. destruct (iteritems_invariant _ _ Hinv) as (values & Hvs & Hitems & Hf).
  destruct (invariant_one_link _ _ Hinv) as (_ & Hdict & _).
  pose proof (Forall2_length _ _ _ Hf) as Hlen.
  exists (zip keys values). split; [done|].
  split; [by rewrite snd_zip by lia|]. split; [by rewrite fst_zip by lia|].
  intros k v. split.
  - intros Hin. apply list_elem_of_lookup in Hin as [i Hi].
    apply lookup_zip_Some in Hi as [Hk Hv].
    by apply (Forall2_lookup_lr _ _ _ _ _ _ Hf Hk Hv).
  - intros Hkv. assert (k ∈ keys) as Hk by (apply Hdict; eauto).
    apply list_elem_of_lookup in Hk as [i Hi].
    destruct (Forall2_lookup_l _ _ _ _ _ Hf Hi) as (v' & Hv' & Hd).
    assert (v' = v) as -> by congruence.
    apply list_elem_of_lookup. exists i. by apply lookup_zip_Some.
Qed.

(** X17. Setting a live key again keeps its place in the order; deleting it
    and setting it anew makes it the newest key. *)
Theorem reinsertion_moves_key_to_end self keys k v :
  invariant self keys → k ∈ keys →
  __iter__ (__setitem__ self k v) = Some keys
  ∧ __iter__ (__setitem__ (state_of (__delitem__ self k)) k v)
    = Some (remove_key keys k ++ [k]).
Proof.
  intros Hinv Hk.
  pose proof (setitem_invariant _ _ k v Hinv) as H1.
  pose proof (setitem_invariant _ _ k v (delitem_invariant _ _ k Hinv)) as H2.
  unfold add_key in H1, H2. rewrite decide_True in H1 by done.
  rewrite decide_False in H2.
  - destruct (invariant_iter _ _ H1) as [-> _].
    by destruct (invariant_iter _ _ H2) as [-> _].
  - unfold remove_key. rewrite list_elem_of_filter. tauto.
Qed.

End ordereddict.

Arguments Returns {K _ _ V R} r self.
Arguments Raises {K _ _ V R} e self.

(** Keys are integers or [None]. *)
Abbreviation int_key := (option Z).

(** [OrderedDict([(1, 2)])] and [OrderedDict([(1, 2), (3, 4)])] *)
Definition short_example : t (K := int_key) (V := Z) :=
  __init__ None [(Some 1, 2)] [].
Definition long_example : t (K := int_key) (V := Z) :=
  __init__ None [(Some 1, 2); (Some 3, 4)] [].

(** C3. The claim has two instances with different item sequences compare
    unequal, a strict prefix included.  [OrderedDict([(1, 2)])] and
    [OrderedDict([(1, 2), (3, 4)])] have different items, and the plain
    [dict] comparison tells them apart, but [izip] stops at the shorter
    sequence and [==] answers [True], in either order. *)
Theorem eq_accepts_strict_prefix :
  iteritems None short_example = Some [(Some 1, 2)]
  ∧ iteritems None long_example = Some [(Some 1, 2); (Some 3, 4)]
  ∧ __eq__ None short_example (same_class long_example) = Some true
  ∧ __eq__ None long_example (same_class short_example) = Some true
  ∧ __eq__ None short_example (other_mapping (dict long_example)) = Some false.
Proof. repeat split; vm_compute; reflexivity. Qed.

(** [OrderedDict([(1, 2), (3, 4), (5, 6)])] *)
Definition example : t (K := int_key) (V := Z) :=
  __init__ None [(Some 1, 2); (Some 3, 4); (Some 5, 6)] [].

Lemma example_invariant : invariant None example [Some 1; Some 3; Some 5].
Proof.
  pose proof (init_invariant None [(Some 1, 2); (Some 3, 4); (Some 5, 6)] [])
    as Hinv.
  assert (foldl add_key [] ([(Some 1, 2); (Some 3, 4); (Some 5, 6)] ++ []).*1
          = [Some 1; Some 3; Some 5]) as Heq by (vm_compute; reflexivity).
  by rewrite Heq in Hinv.
Qed.

(** Moving key 1 of [example] to the end leaves the order 3, 5, 1. *)
Lemma operations_preserve_links_witness :
  links_kept None (run None (move (Some 1) true) example) [Some 3; Some 5; Some 1].
Proof.
  exact (operations_preserve_links None (move (Some 1) true) example
           [Some 1; Some 3; Some 5] example_invariant).
Defined.

(** Popping the newest item of [example] returns key 5 with its value and
    leaves the keys 1, 3. *)
Lemma popitem_returns_end_item_witness :
  ∃ v s', dict example !! Some 5 = Some v
          ∧ popitem None example true = Returns (Some 5, v) s'
          ∧ invariant None s' [Some 1; Some 3]
          ∧ dict s' = delete (Some 5) (dict example).
Proof.
  exact (popitem_returns_end_item None example [Some 1; Some 3; Some 5] true
           example_invariant).
Defined.

Lemma move_to_end_then_front_witness :
  __iter__ None (state_of (move_to_end None example (Some 3) true))
  = Some (remove_key [Some 1; Some 3; Some 5] (Some 3) ++ [Some 3])
  ∧ __iter__ None (state_of (move_to_end None
                     (state_of (move_to_end None example (Some 3) true)) (Some 3) false))
    = Some (Some 3 :: remove_key [Some 1; Some 3; Some 5] (Some 3))
  ∧ __reversed__ None (state_of (move_to_end None
                         (state_of (move_to_end None example (Some 3) true)) (Some 3) false))
    = Some (reverse (remove_key [Some 1; Some 3; Some 5] (Some 3)) ++ [Some 3]).
Proof.
  apply (move_to_end_then_front None example [Some 1; Some 3; Some 5] (Some 3)
           example_invariant).
  set_solver.
Defined.

(** [OrderedDict([(5, 6), (3, 4), (1, 2)])]: the items of [example] in
    another order. *)
Definition reordered_example : t (K := int_key) (V := Z) :=
  __init__ None [(Some 5, 6); (Some 3, 4); (Some 1, 2)] [].

Lemma reordered_example_invariant :
  invariant None reordered_example [Some 5; Some 3; Some 1].
Proof.
  pose proof (init_invariant None [(Some 5, 6); (Some 3, 4); (Some 1, 2)] [])
    as Hinv.
  assert (foldl add_key [] ([(Some 5, 6); (Some 3, 4); (Some 1, 2)] ++ []).*1
          = [Some 5; Some 3; Some 1]) as Heq by (vm_compute; reflexivity).
  by rewrite Heq in Hinv.
Qed.

(** The same items in another order compare unequal. *)
Lemma eq_compares_items_of_equal_length_witness :
  ∃ items1 items2,
    iteritems None example = Some items1
    ∧ iteritems None reordered_example = Some items2
    ∧ __eq__ None example (same_class reordered_example)
      = Some (bool_decide (items1 = items2)).
Proof.
  apply (eq_compares_items_of_equal_length None example reordered_example
           [Some 1; Some 3; Some 5] [Some 5; Some 3; Some 1]
           example_invariant reordered_example_invariant).
  reflexivity.
Defined.

Lemma pop_returns_value_or_default_witness :
  ∃ s', pop None example (Some 3) None = Returns 4 s'
        ∧ invariant None s' (remove_key [Some 1; Some 3; Some 5] (Some 3))
        ∧ dict s' = delete (Some 3) (dict example)
        ∧ __iter__ None s' = Some (remove_key [Some 1; Some 3; Some 5] (Some 3)).
Proof.
  exact (pop_returns_value_or_default None example [Some 1; Some 3; Some 5]
           (Some 3) None example_invariant).
Defined.

Lemma items_follow_insertion_order_witness :
  ∃ items, iteritems None example = Some items
           ∧ itervalues None example = Some items.*2
           ∧ items.*1 = [Some 1; Some 3; Some 5]
           ∧ ∀ k v, (k, v) ∈ items ↔ dict example !! k = Some v.
Proof.
  exact (items_follow_insertion_order None example [Some 1; Some 3; Some 5]
           example_invariant).
Defined.

Lemma reinsertion_moves_key_to_end_witness :
  __iter__ None (__setitem__ None example (Some 1) 7) = Some [Some 1; Some 3; Some 5]
  ∧ __iter__ None (__setitem__ None (state_of (__delitem__ None example (Some 1)))
                     (Some 1) 7)
    = Some (remove_key [Some 1; Some 3; Some 5] (Some 1) ++ [Some 1]).
Proof.
  apply (reinsertion_moves_key_to_end None example [Some 1; Some 3; Some 5]
           (Some 1) 7 example_invariant).
  set_solver.
Defined.

End OrderedDict.

(** ** The immutable mappings: classes, method resolution, rejection *)

Module Immutable.

(** The mapping classes of the module and the two built-in classes under
    them. *)
Inductive class : Type :=
  | object
  | dict
  | ImmutableDictMixin
  | ImmutableDict
  | CombinedDictMixin
  | CombinedDict
  | MultiDictMixin
  | MultiDict
  | ImmutableMultiDictMixin
  | ImmutableMultiDict
  | CombinedMultiDict
  | OrderedDict
  | ImmutableOrderedDict
  | OrderedMultiDict
  | ImmutableOrderedMultiDict.

#[global] Instance class_eq_dec : EqDecision class.
Proof. solve_decision. Defined.

(** The base classes, as each [class] statement lists them. *)
Definition bases (c : class) : list class :=
  match c with
  | object => []
  | dict => [object]
  | ImmutableDictMixin => [object]
  | ImmutableDict => [ImmutableDictMixin; dict]
  | CombinedDictMixin => [object]
  | CombinedDict => [CombinedDictMixin; ImmutableDictMixin; dict]
  | MultiDictMixin => [object]
  | MultiDict => [MultiDictMixin; dict]
  | ImmutableMultiDictMixin => [ImmutableDictMixin; MultiDictMixin]
  | ImmutableMultiDict => [ImmutableMultiDictMixin; dict]
  | CombinedMultiDict => [CombinedDictMixin; ImmutableMultiDictMixin; dict]
  | OrderedDict => [dict]
  | ImmutableOrderedDict => [ImmutableDictMixin; OrderedDict]
  | OrderedMultiDict => [MultiDictMixin; OrderedDict]
  | ImmutableOrderedMultiDict => [ImmutableMultiDictMixin; ImmutableOrderedDict]
  end.

(** [cls.__name__] *)
Definition __name__ (c : class) : string :=
  match c with
  | object => "object"
  | dict => "dict"
  | ImmutableDictMixin => "ImmutableDictMixin"
  | ImmutableDict => "ImmutableDict"
  | CombinedDictMixin => "CombinedDictMixin"
  | CombinedDict => "CombinedDict"
  | MultiDictMixin => "MultiDictMixin"
  | MultiDict => "MultiDict"
  | ImmutableMultiDictMixin => "ImmutableMultiDictMixin"
  | ImmutableMultiDict => "ImmutableMultiDict"
  | CombinedMultiDict => "CombinedMultiDict"
  | OrderedDict => "OrderedDict"
  | ImmutableOrderedDict => "ImmutableOrderedDict"
  | OrderedMultiDict => "OrderedMultiDict"
  | ImmutableOrderedMultiDict => "ImmutableOrderedMultiDict"
  end.

(** The operations that change a mapping, and [fromkeys]. *)
Inductive method : Type :=
  | __setitem__ | __delitem__ | setdefault | update | pop | popitem | clear
  | move_to_end
  | add | setlist | setlistdefault | poplist | popitemlist
  | fromkeys.

#[global] Instance method_eq_dec : EqDecision method.
Proof. solve_decision. Defined.

(** What a class body binds a method name to. *)
Inductive attribute : Type :=
  (** [name = raise_immutable]: the module-level [classmethod] object *)
  | raise_immutable
  (** [def name(self, ...): raise_immutable(self)] *)
  | calls_raise_immutable
  (** [ImmutableDictMixin.fromkeys]: [cls(zip(keys, repeat(value)))] *)
  | fromkeys_of_items
  (** [CombinedDictMixin.fromkeys]: raises [TypeError] *)
  | fromkeys_refused
  (** any other function or built-in method, which does its work *)
  | ordinary.

(** The methods each class body defines itself. *)
Definition defines (c : class) (m : method) : option attribute :=
  match c, m with
  | dict, (__setitem__ | __delitem__ | setdefault | update | pop | popitem
           | clear | fromkeys) => Some ordinary
  | ImmutableDictMixin, fromkeys => Some fromkeys_of_items
  | ImmutableDictMixin, (__setitem__ | __delitem__ | setdefault | update | pop
                         | popitem | clear) => Some raise_immutable
  | CombinedDictMixin, fromkeys => Some fromkeys_refused
  | MultiDictMixin, (__setitem__ | add | setlist | setdefault | setlistdefault
                     | pop | popitem | poplist | popitemlist | update) =>
      Some ordinary
  | ImmutableMultiDictMixin, (add | setlist | setlistdefault | poplist
                              | popitemlist) => Some calls_raise_immutable
  | OrderedDict, (fromkeys | __setitem__ | __delitem__ | setdefault | pop
                  | popitem | move_to_end | update | clear) => Some ordinary
  | ImmutableOrderedDict, move_to_end => Some raise_immutable
  | _, _ => None
  end.

(** *** Method resolution order (C3 linearisation) *)

(** A head may be taken when no sequence has it in its tail. *)
Definition good_head (seqs : list (list class)) (c : class) : bool :=
  forallb (λ seq, bool_decide (c ∉ tail seq)) seqs.

Fixpoint merge (fuel : nat) (seqs : list (list class)) : option (list class) :=
  match fuel with
  | O => None
  | S fuel =>
      let seqs := filter (λ seq, seq ≠ []) seqs in
      match seqs with
      | [] => Some []
      | _ =>
          match List.find (good_head seqs) (omap head seqs) with
          | None => None
          | Some c =>
              rest ← merge fuel ((λ seq, filter (λ x, x ≠ c) seq) <$> seqs);
              Some (c :: rest)
          end
      end
  end.

Fixpoint mro_fuel (fuel : nat) (c : class) : option (list class) :=
  match fuel with
  | O => None
  | S fuel =>
      parents ← mapM (mro_fuel fuel) (bases c);
      rest ← merge 32 (parents ++ [bases c]);
      Some (c :: rest)
  end.

(** [cls.__mro__]; the hierarchy is five classes deep. *)
Definition mro (c : class) : list class := default [] (mro_fuel 6 c).

(** Attribute lookup on the class: the first class of the resolution order
    that defines the name, with what it binds the name to. *)
Fixpoint lookup_in (classes : list class) (m : method) : option (class * attribute) :=
  match classes with
  | [] => None
  | c :: classes =>
      match defines c m with
      | Some a => Some (c, a)
      | None => lookup_in classes m
      end
  end.

Definition lookup (cls : class) (m : method) : option (class * attribute) :=
  lookup_in (mro cls) m.

(** What invoking a method does, as far as rejection is concerned: it
    raises, or the body of the class that defines it runs, or the name is
    not found at all. *)
Inductive outcome : Type :=
  | Raises (e : exn)
  | Runs (definer : class)
  | AttributeError.

(** ['%r' % s] for a plain string: the string between single quotes. *)
Definition repr (s : string) : string := ("'" +:+ s +:+ "'")%string.

(** The metaclass of the combined classes, [cls.__class__]. *)
Definition metaclass_name : string := "AbstractClassMeta".

(** [m] invoked on an instance of [cls] (on [cls] itself for [fromkeys]).
    A name bound to the [classmethod] object receives [cls] and raises the
    message built from [cls.__name__].  A body that calls the module-level
    name [raise_immutable] calls the [classmethod] object itself, which
    Python refuses with a [TypeError] of its own. *)
Definition call (cls : class) (m : method) : outcome :=
  match lookup cls m with
  | None => AttributeError
  | Some (_, raise_immutable) =>
      Raises (TypeError (repr (__name__ cls) +:+ " objects are immutable"))
  | Some (_, calls_raise_immutable) =>
      Raises (TypeError "'classmethod' object is not callable")
  | Some (definer, fromkeys_of_items) => Runs definer
  | Some (_, fromkeys_refused) =>
      Raises (TypeError ("cannot create " +:+ repr metaclass_name
                         +:+ " instances with .fromkeys()"))
  | Some (definer, ordinary) => Runs definer
  end.








(** *** Properties *)

Example mro_ImmutableOrderedMultiDict :
  mro ImmutableOrderedMultiDict =
    [ImmutableOrderedMultiDict; ImmutableMultiDictMixin; ImmutableOrderedDict;
     ImmutableDictMixin; MultiDictMixin; OrderedDict; dict; object].
Proof. vm_compute. reflexivity. Qed.

Example mro_CombinedMultiDict :
  mro CombinedMultiDict =
    [CombinedMultiDict; CombinedDictMixin; ImmutableMultiDictMixin;
     ImmutableDictMixin; MultiDictMixin; dict; object].
Proof. vm_compute. reflexivity. Qed.




(** The messages on [ImmutableMultiDict]: item assignment names the type;
    [add] reports that the [classmethod] object cannot be called. *)
Example immutable_multidict_messages :
  call ImmutableMultiDict __setitem__
    = Raises (TypeError "'ImmutableMultiDict' objects are immutable")
  ∧ call ImmutableMultiDict add
    = Raises (TypeError "'classmethod' object is not callable")
  ∧ call CombinedDict fromkeys
    = Raises (TypeError "cannot create 'AbstractClassMeta' instances with .fromkeys()")
  ∧ call MultiDict add = Runs MultiDictMixin.
Proof. repeat split; vm_compute; reflexivity. Qed.

End Immutable.

(** ** LazyList *)

Module LazyList.
Section lazylist.
Context {A : Type}.

(** The iterator under a lazy list: one over finitely many remaining
    items, or one that never ends, such as [itertools.count()], whose
    [n]-th item is [f n]. *)
Inductive iterator : Type :=
  | finite (rest : list A)
  | endless (f : nat → A) (n : nat).

(** [iterator.next()]; [None] stands for [StopIteration]. *)
Definition next (it : iterator) : option (A * iterator) :=
  match it with
  | finite [] => None
  | finite (x :: rest) => Some (x, finite rest)
  | endless f n => Some (f n, endless f (S n))
  end.

(** The instance attributes.  An instance built from a list has no
    [_iterator] attribute and never reads it; the empty iterator fills the
    field. *)
Record t : Type := {
  exhausted : bool;
  _collected_data : list A;
  _iterator : iterator;
}.

(** The argument of the constructor: a list, tuple or string, or anything
    else that can be iterated over. *)
Inductive iterable : Type :=
  | of_list (l : list A)
  | of_iterator (it : iterator).

Definition __init__ (iterable : iterable) : t :=
  match iterable with
  | of_list l =>
      {| exhausted := true; _collected_data := l; _iterator := finite [] |}
  | of_iterator it =>
      {| exhausted := false; _collected_data := []; _iterator := it |}
  end.

Definition known_length (self : t) : Z := Z.of_nat (length (_collected_data self)).

(** The argument of [_exhaust]: [None], an integer or a slice. *)
Inductive index : Type :=
  | no_index
  | int_index (i : Z)
  | slice_index (start stop : option Z).

(** The loop of [_exhaust] over an [xrange] of [n] numbers: each round
    appends the next item, and [StopIteration] sets [exhausted] and leaves
    the loop. *)
Fixpoint pull (n : nat) (self : t) : t :=
  match n with
  | O => self
  | S n =>
      match next (_iterator self) with
      | Some (x, it) =>
          pull n {| exhausted := exhausted self;
                    _collected_data := _collected_data self ++ [x];
                    _iterator := it |}
      | None =>
          {| exhausted := true;
             _collected_data := _collected_data self;
             _iterator := _iterator self |}
      end
  end.

(** The loop of [_exhaust] over [count(self.known_length)]: it ends at
    [StopIteration], after as many rounds as items remain and one more,
    and never over an endless iterator ([None]). *)
Definition drain (self : t) : option t :=
  match _iterator self with
  | finite rest => Some (pull (S (length rest)) self)
  | endless _ _ => None
  end.

(** [bound < 0] for a slice bound; in Python 2 [None < 0] holds. *)
Definition negative_bound (bound : option Z) : bool :=
  match bound with
  | None => true
  | Some bound => bool_decide (bound < 0)
  end.

(** [_exhaust(i)]; [None] when the call does not return. *)
Definition _exhaust (self : t) (i : index) : option t :=
  if exhausted self then Some self
  else
    match i with
    | no_index => drain self
    | int_index i =>
        if decide (i < 0) then drain self
        else Some (pull (Z.to_nat (i + 1 - known_length self)) self)
    | slice_index start stop =>
        if negative_bound start || negative_bound stop then drain self
        else Some (pull (Z.to_nat (default 0 stop - known_length self)) self)
    end.

(** How a method call ends: it returns a value, raises, or does not
    return; the instance is left in the state given. *)
Inductive outcome (R : Type) : Type :=
  | Returns (r : R) (self : t)
  | Raises (e : exn) (self : t)
  | Diverges.
Arguments Returns {R} r self.
Arguments Raises {R} e self.
Arguments Diverges {R}.

(** [__getitem__(i)] for an integer [i]. *)
Definition __getitem__ (self : t) (i : Z) : outcome A :=
  match _exhaust self (int_index i) with
  | None => Diverges
  | Some self =>
      match list_getitem (_collected_data self) i with
      | Ok x => Returns x self
      | Raise e => Raises e self
      end
  end.

Definition __nonzero__ (self : t) : outcome bool :=
  match _exhaust self (int_index 0) with
  | None => Diverges
  | Some self => Returns (bool_decide (_collected_data self ≠ [])) self
  end.

(** *** Ordering *)

(** What [__lt__] and [__gt__] return: [True], [False], or [None] when
    the body ends without a [return]. *)
Inductive py : Type := PyTrue | PyFalse | PyNone.

(** [not value] *)
Definition py_not (value : py) : py :=
  match value with
  | PyTrue => PyFalse
  | PyFalse | PyNone => PyTrue
  end.

(** The comparisons of the items: [a < b] and [a == b] on two items, and
    what the host answers when one side of [<] is the fill object. *)
Variable lt : A → A → bool.
Variable eq : A → A → bool.
Variable item_lt_missing : A → bool.
Variable missing_lt_item : A → bool.

(** An item of the padded zip: [None] is the fill object [missing]. *)
Definition lt_padded (a b : option A) : bool :=
  match a, b with
  | Some a, Some b => lt a b
  | Some a, None => item_lt_missing a
  | None, Some b => missing_lt_item b
  | None, None => false
  end.

Definition eq_padded (a b : option A) : bool :=
  match a, b with
  | Some a, Some b => eq a b
  | None, None => true
  | _, _ => false
  end.

(** [bool(self)], with the state it leaves. *)
Definition truth (self : t) : option (bool * t) :=
  match __nonzero__ self with
  | Returns b self => Some (b, self)
  | _ => None
  end.

(** Modelled from the spec: [izip_longest] of [brownie.itools], the
    fill-padded zip, which combines the operands elementwise, lets an
    operand that has ended contribute the fill value, and stops once all
    have ended.  An operand is iterated through [__getitem__] with 0, 1,
    2, ... until [IndexError], the only exception list indexing raises. *)
Definition padded_item (self : t) (k : Z) : option (option A * t) :=
  match __getitem__ self k with
  | Returns x self => Some (Some x, self)
  | Raises _ self => Some (None, self)
  | Diverges => None
  end.

(** The [for] loop of [__lt__] from position [k]; [fuel] bounds the
    rounds, and [None] says the bound was reached. *)
Fixpoint lt_loop (fuel : nat) (k : Z) (self other : t) : option (py * t * t) :=
  match fuel with
  | O => None
  | S fuel =>
      '(a, self) ← padded_item self k;
      '(b, other) ← padded_item other k;
      match a, b with
      | None, None => Some (PyNone, self, other)
      | _, _ =>
          if lt_padded a b then Some (PyTrue, self, other)
          else if eq_padded a b then lt_loop fuel (k + 1) self other
          else if bool_decide (a = None) && bool_decide (b ≠ None)
               then Some (PyTrue, self, other)
          else Some (PyFalse, self, other)
      end
  end.

Definition __lt__ (fuel : nat) (self other : t) : option (py * t * t) :=
  (* if not self and other *)
  '(s, self) ← truth self;
  '(c, other) ← (if negb s then truth other else Some (false, other));
  if negb s && c then Some (PyTrue, self, other) else
  (* elif self and not other *)
  '(s, self) ← truth self;
  '(c, other) ← (if s then '(o, other) ← truth other; Some (negb o, other)
                 else Some (false, other));
  if s && c then Some (PyFalse, self, other) else
  (* elif not self and not other *)
  '(s, self) ← truth self;
  '(c, other) ← (if negb s then '(o, other) ← truth other; Some (negb o, other)
                 else Some (false, other));
  if negb s && c then Some (PyFalse, self, other) else
  lt_loop fuel 0 self other.

Definition __gt__ (fuel : nat) (self other : t) : option (py * t * t) :=
  (* if not self and not other *)
  '(s, self) ← truth self;
  '(c, other) ← (if negb s then '(o, other) ← truth other; Some (negb o, other)
                 else Some (false, other));
  if negb s && c then Some (PyFalse, self, other) else
  '(r, self, other) ← __lt__ fuel self other;
  Some (py_not r, self, other).

(** *** Reading an index realises the minimum *)

(** [n] calls of [next]: the items and the iterator left, if none of the
    calls meets [StopIteration]. *)
Fixpoint take_items (n : nat) (it : iterator) : option (list A * iterator) :=
  match n with
  | O => Some ([], it)
  | S n =>
      '(x, it) ← next it;
      '(xs, it) ← take_items n it;
      Some (x :: xs, it)
  end.

Lemma take_items_length n it xs it' :
  take_items n it = Some (xs, it') → length xs = n.
Proof.
  revert it xs. induction n as [|n IH]; intros it xs Htake; simpl in Htake.
  - by injection Htake as <- <-.
  - destruct (next it) as [[x it1]|]; [|done]. simpl in Htake.
    destruct (take_items n it1) as [[xs1 it2]|] eqn:Hrest; [|done].
    simpl in Htake. injection Htake as <- <-. simpl. f_equal. by eapply IH.
Qed.

Lemma pull_take_items n e c it xs it' :
  take_items n it = Some (xs, it') →
  pull n {| exhausted := e; _collected_data := c; _iterator := it |}
  = {| exhausted := e; _collected_data := c ++ xs; _iterator := it' |}.
Proof.
  revert c it xs. induction n as [|n IH]; intros c it xs Htake; simpl in *.
  - injection Htake as <- <-. by rewrite app_nil_r.
  - destruct (next it) as [[x it1]|]; [|done]. simpl in Htake.
    destruct (take_items n it1) as [[xs1 it2]|] eqn:Hrest; [|done].
    simpl in Htake. injection Htake as <- <-.
    rewrite (IH _ _ _ Hrest). by rewrite <- app_assoc.
Qed.

(** C7. Over an iterator that still has more than [i] items, reading the
    index [i >= 0] of a new lazy list calls [next] exactly [i + 1] times:
    the buffer holds the items 0 to [i] ([known_length] is [i + 1]), the
    iterator is left right after them, the item at [i] is returned and
    [exhausted] stays false. *)
Theorem getitem_realises_up_to_index (it it' : iterator) (i : Z) (xs : list A) :
  0 ≤ i →
  take_items (Z.to_nat (i + 1)) it = Some (xs, it') →
  ∃ x self',
    __getitem__ (__init__ (of_iterator it)) i = Returns x self'
    ∧ xs !! Z.to_nat i = Some x
    ∧ _collected_data self' = xs
    ∧ known_length self' = i + 1
    ∧ _iterator self' = it'
    ∧ exhausted self' = false.
Proof.
  intros Hi Htake. pose proof (take_items_length _ _ _ _ Htake) as Hlen.
  destruct (lookup_lt_is_Some_2 xs (Z.to_nat i)) as [x Hx]; [lia|].
  exists x, {| exhausted := false; _collected_data := xs; _iterator := it' |}.
  unfold __getitem__, _exhaust, known_length. simpl.
  rewrite decide_False by lia. rewrite Z.sub_0_r.
  rewrite (pull_take_items _ _ _ _ _ _ Htake). simpl.
  rewrite <- (Z2Nat.id i) at 1 by lia.
  rewrite (list_getitem_nonneg _ _ _ Hx).
  repeat split; [done|]. rewrite Hlen. lia.
Qed.

(** *** Extending, length, and the items behind the buffer *)

(** [itertools.chain(iterator, objects)]: the items of [objects] follow
    those of the iterator, and are never reached behind an endless one. *)
Definition chain (it : iterator) (objects : list A) : iterator :=
  match it with
  | finite rest => finite (rest ++ objects)
  | endless f n => endless f n
  end.

Definition extend (self : t) (objects : list A) : t :=
  if exhausted self then
    {| exhausted := exhausted self;
       _collected_data := _collected_data self ++ objects;
       _iterator := _iterator self |}
  else
    {| exhausted := exhausted self;
       _collected_data := _collected_data self;
       _iterator := chain (_iterator self) objects |}.

Definition append (self : t) (object : A) : t := extend self [object].

(** [__len__], wrapped by [exhausting]. *)
Definition __len__ (self : t) : outcome Z :=
  match _exhaust self no_index with
  | None => Diverges
  | Some self => Returns (known_length self) self
  end.

(** The items the list stands for: the buffer, followed by what a finite
    iterator still holds.  A list over an endless iterator has no such
    finite sequence. *)
Definition items (self : t) : option (list A) :=
  if exhausted self then Some (_collected_data self)
  else
    match _iterator self with
    | finite rest => Some (_collected_data self ++ rest)
    | endless _ _ => None
    end.

Lemma pull_finite n e c rest :
  pull n {| exhausted := e; _collected_data := c; _iterator := finite rest |}
  = {| exhausted := e || bool_decide (length rest < n)%nat;
       _collected_data := c ++ take n rest;
       _iterator := finite (drop n rest) |}.
Proof.
  revert c rest. induction n as [|n IH]; intros c rest.
  - cbn [pull]. rewrite take_0, drop_0, app_nil_r.
    rewrite bool_decide_eq_false_2 by lia. by rewrite orb_false_r.
  - destruct rest as [|x rest]; cbn [pull next _iterator exhausted _collected_data].
    + rewrite bool_decide_eq_true_2 by (cbn [length]; lia).
      by rewrite orb_true_r, take_nil, drop_nil, app_nil_r.
    + rewrite IH, <- app_assoc. cbn [take drop app length]. f_equal. f_equal.
      apply bool_decide_ext. lia.
Qed.

Lemma pull_keeps_items n c rest :
  items (pull n {| exhausted := false; _collected_data := c;
                   _iterator := finite rest |}) = Some (c ++ rest).
Proof.
  rewrite pull_finite. unfold items. simpl.
  destruct (decide (length rest < n)%nat) as [Hlt|Hge].
  - rewrite bool_decide_eq_true_2 by done. by rewrite take_ge by lia.
  - rewrite bool_decide_eq_false_2 by done.
    by rewrite <- app_assoc, take_drop.
Qed.

Lemma drain_finite c rest :
  drain {| exhausted := false; _collected_data := c; _iterator := finite rest |}
  = Some {| exhausted := true; _collected_data := c ++ rest;
            _iterator := finite [] |}.
Proof.
  unfold drain. cbn [_iterator]. rewrite pull_finite.
  rewrite bool_decide_eq_true_2 by lia.
  by rewrite take_ge, drop_ge by lia.
Qed.

Lemma list_getitem_prefix (c l : list A) (i : Z) :
  c `prefix_of` l → 0 ≤ i < Z.of_nat (length c) →
  list_getitem c i = list_getitem l i.
Proof.
  intros Hpre Hi. pose proof (prefix_length _ _ Hpre) as Hlen.
  destruct (lookup_lt_is_Some_2 c (Z.to_nat i)) as [x Hx]; [lia|].
  pose proof (prefix_lookup_Some _ _ _ _ Hx Hpre) as Hx'.
  rewrite <- (Z2Nat.id i) by lia.
  by rewrite (list_getitem_nonneg _ _ _ Hx), (list_getitem_nonneg _ _ _ Hx').
Qed.

(** Reading an index of a lazy list reads that index of its items. *)
Lemma getitem_items self (i : Z) l :
  items self = Some l →
  ∃ self',
    items self' = Some l
    ∧ __getitem__ self i
      = match list_getitem l i with
        | Ok x => Returns x self'
        | Raise e => Raises e self'
        end
    ∧ (exhausted self = false → 0 ≤ i →
       known_length self'
       = Z.max (known_length self) (Z.min (i + 1) (Z.of_nat (length l)))).
Proof.
  destruct self as [[] c it]; unfold items, __getitem__, _exhaust; simpl.
  - intros [= <-]. eexists. split; [|split; [done|done]]. done.
  - destruct it as [rest|f n]; [|done]. intros [= <-].
    destruct (decide (i < 0)) as [Hneg|Hpos].
    + rewrite drain_finite. eexists. split; [|split; [done|lia]]. done.
    + unfold known_length. cbn [_collected_data].
      pose proof (pull_keeps_items (Z.to_nat (i + 1 - Z.of_nat (length c))) c rest)
        as Hitems.
      rewrite pull_finite in Hitems. rewrite pull_finite.
      set (n := Z.to_nat (i + 1 - Z.of_nat (length c))) in *.
      cbn [_collected_data orb] in *.
      eexists. split; [exact Hitems|]. cbn [_collected_data].
      rewrite !length_app, length_take. split; [|lia].
      destruct (decide (length rest < n)%nat) as [Hlt|Hge].
      * by rewrite take_ge by lia.
      * rewrite (list_getitem_prefix (c ++ take n rest) (c ++ rest)); [done| |].
        -- apply prefix_app, prefix_take.
        -- rewrite length_app, length_take. lia.
Qed.

(** X23. [_exhaust] only moves items from the iterator to the buffer: the
    list stands for the same items after it, the buffer has grown at its
    end and is a prefix of the items, and without an index the buffer holds
    all of them and the list is exhausted. *)
Theorem exhaust_keeps_items self (i : index) l :
  items self = Some l →
  ∃ self',
    _exhaust self i = Some self'
    ∧ items self' = Some l
    ∧ _collected_data self `prefix_of` _collected_data self'
    ∧ _collected_data self' `prefix_of` l
    ∧ match i with
      | no_index => exhausted self' = true ∧ _collected_data self' = l
      | _ => True
      end.
Proof.
  destruct self as [[] c it]; unfold items, _exhaust; simpl.
  - intros [= <-]. eexists. split; [done|]. simpl. by destruct i.
  - destruct it as [rest|f n]; [|done]. intros [= <-].
    assert (∃ self',
              drain {| exhausted := false; _collected_data := c;
                       _iterator := finite rest |} = Some self'
              ∧ items self' = Some (c ++ rest)
              ∧ c `prefix_of` _collected_data self'
              ∧ _collected_data self' `prefix_of` c ++ rest
              ∧ exhausted self' = true ∧ _collected_data self' = c ++ rest)
      as Hdrain.
    { rewrite drain_finite. eexists. split; [done|]. simpl.
      split; [done|]. split; [by apply prefix_app_r|]. done. }
    assert (∀ n, ∃ self',
              Some (pull n {| exhausted := false; _collected_data := c;
                              _iterator := finite rest |}) = Some self'
              ∧ items self' = Some (c ++ rest)
              ∧ c `prefix_of` _collected_data self'
              ∧ _collected_data self' `prefix_of` c ++ rest) as Hpull.
    { intros n. eexists. split; [done|]. split; [apply pull_keeps_items|].
      rewrite pull_finite. simpl. split; [by apply prefix_app_r|].
      apply prefix_app, prefix_take. }
    destruct i as [|i|start stop].
    + destruct Hdrain as (s & -> & ? & ? & ? & ? & ?). by exists s.
    + destruct (decide (i < 0)).
      * destruct Hdrain as (s & -> & ? & ? & ? & _). by exists s.
      * destruct (Hpull (Z.to_nat (i + 1 - known_length
                    {| exhausted := false; _collected_data := c;
                       _iterator := finite rest |})))
          as (s & [= <-] & ? & ? & ?).
        eexists. by split.
    + destruct (negative_bound start || negative_bound stop).
      * destruct Hdrain as (s & -> & ? & ? & ? & _). by exists s.
      * destruct (Hpull (Z.to_nat (default 0 stop - known_length
                    {| exhausted := false; _collected_data := c;
                       _iterator := finite rest |})))
          as (s & [= <-] & ? & ? & ?).
        eexists. by split.
Qed.

(** X24. Reading an index of a lazy list over a finite iterator gives what
    reading that index of the list of all its items gives, a negative index
    and [IndexError] included, and reading it again gives the same; a
    non-negative index [i] realises the items up to [i] and no more, or all
    of them when there are fewer. *)
Theorem getitem_agrees_with_list self (i : Z) l :
  items self = Some l →
  ∃ self' self'',
    __getitem__ self i
    = match list_getitem l i with
      | Ok x => Returns x self'
      | Raise e => Raises e self'
      end
    ∧ __getitem__ self' i
      = match list_getitem l i with
        | Ok x => Returns x self''
        | Raise e => Raises e self''
        end
    ∧ (exhausted self = false → 0 ≤ i →
       known_length self'
       = Z.max (known_length self) (Z.min (i + 1) (Z.of_nat (length l)))).
Proof.
  intros Hitems.
  destruct (getitem_items self i l Hitems) as (self' & Hitems' & Hget & Hlen).
  destruct (getitem_items self' i l Hitems') as (self'' & _ & Hget' & _).
  by exists self', self''.
Qed.

(** Over an endless iterator no round of the loop meets [StopIteration]:
    [n] rounds buffer the next [n] items and leave [exhausted] as it was. *)
Lemma pull_endless n e c f k :
  pull n {| exhausted := e; _collected_data := c; _iterator := endless f k |}
  = {| exhausted := e;
       _collected_data := c ++ (f <$> seq k n);
       _iterator := endless f (k + n) |}.
Proof.
  revert c k. induction n as [|n IH]; intros c k.
  - cbn [pull seq fmap list_fmap]. by rewrite app_nil_r, Nat.add_0_r.
  - cbn [pull next _iterator exhausted _collected_data].
    rewrite IH, <- app_assoc. cbn [seq fmap list_fmap app].
    by rewrite Nat.add_succ_r.
Qed.

(** X25. [len] of a list over a finite iterator is the number of all its
    items and leaves the list exhausted with all of them in the buffer.
    Over an endless iterator that is not exhausted the loop that [len] runs
    never meets [StopIteration]: after any number of rounds the list is
    still not exhausted and the buffer has grown by that many items. *)
Theorem len_counts_all_items self :
  match items self with
  | Some l =>
      ∃ self', __len__ self = Returns (Z.of_nat (length l)) self'
               ∧ exhausted self' = true
               ∧ _collected_data self' = l
  | None =>
      ∀ n, exhausted (pull n self) = false
           ∧ known_length (pull n self) = known_length self + Z.of_nat n
           ∧ _collected_data self `prefix_of` _collected_data (pull n self)
  end.
Proof.
  destruct self as [[] c it]; unfold items, __len__, _exhaust; simpl.
  - by eexists.
  - destruct it as [rest|f k].
    + rewrite drain_finite. by eexists.
    + intros n. rewrite pull_endless. unfold known_length. simpl.
      split; [done|]. split; [|by apply prefix_app_r].
      rewrite length_app, length_fmap, length_seq. lia.
Qed.

(** X26. [extend] realises nothing: on a list that is not exhausted the
    buffer stays as it is and the objects are chained behind the iterator.
    The list then stands for its former items followed by the objects, and
    indexing it reads that list. *)
Theorem extend_appends_behind_iterator self (objects : list A) l (i : Z) :
  items self = Some l →
  items (extend self objects) = Some (l ++ objects)
  ∧ (exhausted self = false →
     exhausted (extend self objects) = false
     ∧ _collected_data (extend self objects) = _collected_data self)
  ∧ ∃ self',
      items self' = Some (l ++ objects)
      ∧ __getitem__ (extend self objects) i
        = match list_getitem (l ++ objects) i with
          | Ok x => Returns x self'
          | Raise e => Raises e self'
          end.
Proof.
  intros Hitems.
  assert (items (extend self objects) = Some (l ++ objects)) as Hext.
  { destruct self as [[] c it]; unfold items, extend in *; simpl in *.
    - by injection Hitems as <-.
    - destruct it as [rest|f n]; [|done]. injection Hitems as <-.
      simpl. by rewrite app_assoc. }
  split; [done|]. split.
  - intros Hex. unfold extend. by rewrite Hex.
  - destruct (getitem_items _ i _ Hext) as (self' & ? & ? & _). by exists self'.
Qed.

(** X27. The truth test never fails to return, also over an endless
    iterator: it takes at most one item from the iterator, and over a list
    with finitely many items it tells whether there is any. *)
Theorem nonzero_takes_one_item self :
  ∃ b self',
    __nonzero__ self = Returns b self'
    ∧ known_length self' ≤ Z.max 1 (known_length self)
    ∧ _collected_data self `prefix_of` _collected_data self'
    ∧ ∀ l, items self = Some l → b = bool_decide (l ≠ []).
Proof.
  destruct self as [[] c it]; unfold __nonzero__, _exhaust, items; simpl.
  - eexists _, _. split; [done|]. simpl. split; [lia|]. split; [done|].
    by intros l [= <-].
  - unfold known_length. cbn [_collected_data].
    destruct c as [|x c].
    + destruct it as [[|y rest]|f n]; simpl.
      * eexists _, _. split; [done|]. simpl. split; [lia|]. split; [done|].
        by intros l [= <-].
      * eexists _, _. split; [done|]. simpl. split; [lia|].
        split; [apply prefix_nil|]. by intros l [= <-].
      * eexists _, _. split; [done|]. simpl. split; [lia|].
        split; [apply prefix_nil|]. done.
    + replace (Z.to_nat (0 + 1 - Z.of_nat (length (x :: c)))) with 0%nat
        by (cbn [length]; lia).
      cbn [pull]. eexists _, _. split; [done|]. cbn [_collected_data length].
      split; [lia|]. split; [done|].
      destruct it as [rest|f n]; [|done]. by intros l [= <-].
Qed.


End lazylist.

Arguments Returns {A R} r self.
Arguments Raises {A R} e self.
Arguments Diverges {A R}.

(** [itertools.count()] *)
Definition count : iterator := endless Z.of_nat 0.

(** [LazyList(iter([1, 2, 3]))] *)
Definition three : t := __init__ (of_iterator (finite [1; 2; 3])).

Lemma exhaust_keeps_items_witness :
  ∃ self',
    _exhaust three no_index = Some self'
    ∧ items self' = Some [1; 2; 3]
    ∧ _collected_data three `prefix_of` _collected_data self'
    ∧ _collected_data self' `prefix_of` [1; 2; 3]
    ∧ exhausted self' = true ∧ _collected_data self' = [1; 2; 3].
Proof. exact (exhaust_keeps_items three no_index [1; 2; 3] eq_refl). Defined.

(** Reading index 1 of [three] realises two of the three items. *)
Lemma getitem_agrees_with_list_witness :
  ∃ self' self'',
    __getitem__ three 1 = Returns 2 self'
    ∧ __getitem__ self' 1 = Returns 2 self''
    ∧ (exhausted three = false → 0 ≤ 1 →
       known_length self'
       = Z.max (known_length three) (Z.min (1 + 1) (Z.of_nat (length [1; 2; 3])))).
Proof. exact (getitem_agrees_with_list three 1 [1; 2; 3] eq_refl). Defined.

Lemma extend_appends_behind_iterator_witness :
  items (extend three [4]) = Some ([1; 2; 3] ++ [4])
  ∧ (exhausted three = false →
     exhausted (extend three [4]) = false
     ∧ _collected_data (extend three [4]) = _collected_data three)
  ∧ ∃ self',
      items self' = Some ([1; 2; 3] ++ [4])
      ∧ __getitem__ (extend three [4]) 3 = Returns 4 self'.
Proof. exact (extend_appends_behind_iterator three [4] [1; 2; 3] 3 eq_refl). Defined.

(** Reading index 5 over [count()]: the items 0 to 5 are realised, the
    counter stands at 6, nothing is exhausted. *)
Lemma getitem_realises_up_to_index_witness :
  ∃ x self',
    __getitem__ (__init__ (of_iterator count)) 5 = Returns x self'
    ∧ [0; 1; 2; 3; 4; 5] !! Z.to_nat 5 = Some x
    ∧ _collected_data self' = [0; 1; 2; 3; 4; 5]
    ∧ known_length self' = 5 + 1
    ∧ _iterator self' = endless Z.of_nat 6
    ∧ exhausted self' = false.
Proof.
  apply (getitem_realises_up_to_index count (endless Z.of_nat 6) 5
           [0; 1; 2; 3; 4; 5]); [lia | reflexivity].
Defined.

(** *** Ordering of lists of integers with the same content *)

Section equal_content.
(** What the host answers for [item < missing] and [missing < item]. *)
Variable item_lt_missing missing_lt_item : Z → bool.

Abbreviation lt_loop_int := (lt_loop Z.ltb Z.eqb item_lt_missing missing_lt_item).
Abbreviation lt_int := (__lt__ Z.ltb Z.eqb item_lt_missing missing_lt_item).
Abbreviation gt_int := (__gt__ Z.ltb Z.eqb item_lt_missing missing_lt_item).

Lemma padded_item_of_list (l : list Z) (k : nat) :
  padded_item (__init__ (of_list l)) (Z.of_nat k)
  = Some (l !! k, __init__ (of_list l)).
Proof.
  unfold padded_item, __getitem__. simpl.
  destruct (l !! k) as [x|] eqn:Hk.
  - by rewrite (list_getitem_nonneg _ _ _ Hk).
  - apply lookup_ge_None in Hk. rewrite list_getitem_past_end by lia. done.
Qed.

(** Over two lists with the same content the loop meets no pair that
    differs, ends with both, and the body returns nothing. *)
Lemma lt_loop_equal_content (l : list Z) (fuel k : nat) :
  (k ≤ length l)%nat → (length l - k < fuel)%nat →
  lt_loop_int fuel (Z.of_nat k) (__init__ (of_list l)) (__init__ (of_list l))
  = Some (PyNone, __init__ (of_list l), __init__ (of_list l)).
Proof.
  revert k. induction fuel as [|fuel IH]; intros k Hk Hfuel; [lia|].
  cbn [lt_loop]. rewrite !padded_item_of_list. simpl.
  destruct (l !! k) as [x|] eqn:Hx; [|done].
  pose proof (lookup_lt_Some _ _ _ Hx).
  simpl. rewrite Z.ltb_irrefl, Z.eqb_refl.
  replace (Z.of_nat k + 1) with (Z.of_nat (S k)) by lia.
  apply IH; lia.
Qed.

(** For two non-empty lists with the same content [__lt__] returns [None]
    and [__gt__], its negation, returns [True]. *)
Lemma gt_holds_on_equal_content (x : Z) (l : list Z) (fuel : nat) :
  (S (length l) < fuel)%nat →
  let self := __init__ (of_list (x :: l)) in
  lt_int fuel self self = Some (PyNone, self, self)
  ∧ gt_int fuel self self = Some (PyTrue, self, self).
Proof.
  intros Hfuel self.
  assert (lt_int fuel self self = Some (PyNone, self, self)) as Hlt.
  { unfold __lt__, truth, __nonzero__. simpl.
    apply (lt_loop_equal_content (x :: l) fuel 0); simpl; lia. }
  split; [done|]. unfold __gt__, truth, __nonzero__. simpl.
  fold self. by rewrite Hlt.
Qed.
End equal_content.

(** C6. The claim has both [a < b] and [a > b] false for operands with the
    same content.  For [a = LazyList([1])] and [b = LazyList([1])] the loop
    of [__lt__] ends without a [return], so [a < b] is [None], and [__gt__]
    returns its negation: [a > b] is [True]. *)
Theorem gt_of_equal_lists_is_true (item_lt_missing missing_lt_item : Z → bool) :
  let a := __init__ (of_list [1]) in
  let b := __init__ (of_list [1]) in
  __lt__ Z.ltb Z.eqb item_lt_missing missing_lt_item 3 a b = Some (PyNone, a, b)
  ∧ __gt__ Z.ltb Z.eqb item_lt_missing missing_lt_item 3 a b = Some (PyTrue, a, b).
Proof. split; vm_compute; reflexivity. Qed.

End LazyList.

(** ** FixedDict *)

Module FixedDict.
Section fixeddict.
Context {K : Type} `{Countable K} {V : Type}.

(** [__setitem__]: a bound key is refused with [KeyError('already set')]. *)
Definition __setitem__ (self : gmap K V) (key : K) (value : V) : result (gmap K V) :=
  match self !! key with
  | Some _ => Raise KeyError
  | None => Ok (<[key := value]> self)
  end.

(** How [update] ends, and the mapping it leaves. *)
Inductive outcome : Type :=
  | Returns (self : gmap K V)
  | Raises (e : exn) (self : gmap K V).

Definition state_of (o : outcome) : gmap K V :=
  match o with
  | Returns self => self
  | Raises _ self => self
  end.

(** [for key, value in mapping: FixedDict.__setitem__(self, key, value)];
    an exception leaves the loop with the items set so far. *)
Fixpoint setitems (self : gmap K V) (mapping : list (K * V)) : outcome :=
  match mapping with
  | [] => Returns self
  | (key, value) :: mapping =>
      match __setitem__ self key value with
      | Ok self => setitems self mapping
      | Raise e => Raises e self
      end
  end.

(** [update]: the positional mapping, given by its items in order, then
    the keyword arguments. *)
Definition update (self : gmap K V) (mapping kwargs : list (K * V)) : outcome :=
  match setitems self mapping with
  | Returns self => setitems self kwargs
  | Raises e self => Raises e self
  end.

(** *** Properties *)

Lemma update_setitems (self : gmap K V) mapping kwargs :
  update self mapping kwargs = setitems self (mapping ++ kwargs).
Proof.
  unfold update. revert self.
  induction mapping as [|[k v] mapping IH]; intros self; simpl.
  - by destruct (setitems self kwargs).
  - unfold __setitem__. destruct (self !! k); [done|]. apply IH.
Qed.

(** The loop sets the items up to the first one whose key is bound, by the
    mapping or by an earlier item, and raises there; it returns when there
    is none. *)
Lemma setitems_spec (self : gmap K V) (pairs : list (K * V)) :
  match setitems self pairs with
  | Returns self' =>
      NoDup pairs.*1 ∧ (∀ k, k ∈ pairs.*1 → self !! k = None)
      ∧ self' = list_to_map pairs ∪ self
  | Raises e self' =>
      e = KeyError
      ∧ ∃ pre k v post,
          pairs = pre ++ (k, v) :: post
          ∧ NoDup pre.*1 ∧ (∀ k, k ∈ pre.*1 → self !! k = None)
          ∧ self' = list_to_map pre ∪ self
          ∧ is_Some (self' !! k)
  end.
Proof.
  revert self. induction pairs as [|[k v] pairs IH]; intros self; simpl.
  - split; [apply NoDup_nil_2|]. split; [by intros k Hk; apply elem_of_nil in Hk|].
    by rewrite (left_id_L ∅ (∪)).
  - unfold __setitem__. destruct (self !! k) as [v0|] eqn:Hk.
    + split; [done|]. exists [], k, v, pairs. split; [done|].
      split; [apply NoDup_nil_2|].
      split; [by intros k' Hk'; apply elem_of_nil in Hk'|].
      simpl. rewrite (left_id_L ∅ (∪)). split; [done|]. by rewrite Hk.
    + specialize (IH (<[k := v]> self)).
      destruct (setitems (<[k := v]> self) pairs) as [self'|e self'].
      * destruct IH as (Hnd & Hfresh & ->).
        assert (k ∉ pairs.*1) as Hnotin.
        { intros Hin. apply Hfresh in Hin. by rewrite lookup_insert_eq in Hin. }
        split; [by apply NoDup_cons|]. split.
        -- intros k' Hk'. apply elem_of_cons in Hk' as [->|Hk']; [done|].
           specialize (Hfresh k' Hk'). destruct (decide (k = k')) as [->|Hne]; [done|].
           by rewrite lookup_insert_ne in Hfresh.
        -- rewrite <- insert_union_r by by apply not_elem_of_list_to_map_1.
           by rewrite insert_union_l.
      * destruct IH as (-> & pre & k' & v' & post & -> & Hnd & Hfresh & -> & Hsome).
        split; [done|]. exists ((k, v) :: pre), k', v', post.
        assert (k ∉ pre.*1) as Hnotin.
        { intros Hin. apply Hfresh in Hin. by rewrite lookup_insert_eq in Hin. }
        assert (list_to_map pre ∪ <[k:=v]> self
                = list_to_map ((k, v) :: pre) ∪ self) as Heq.
        { simpl. rewrite <- insert_union_r by by apply not_elem_of_list_to_map_1.
          by rewrite insert_union_l. }
        split; [done|]. split; [by apply NoDup_cons|]. split.
        -- intros k'' Hk''. apply elem_of_cons in Hk'' as [->|Hk'']; [done|].
           specialize (Hfresh k'' Hk''). destruct (decide (k = k'')) as [->|Hne]; [done|].
           by rewrite lookup_insert_ne in Hfresh.
        -- split; done.
Qed.

Lemma union_fresh_subseteq (self : gmap K V) (pre : list (K * V)) :
  (∀ k, k ∈ pre.*1 → self !! k = None) → self ⊆ list_to_map pre ∪ self.
Proof.
  intros Hfresh. apply map_subseteq_spec. intros k v Hk.
  apply lookup_union_Some_raw. right. split; [|done].
  apply not_elem_of_list_to_map_1. intros Hin. apply Hfresh in Hin. congruence.
Qed.

(** X5. [update] never changes or removes a binding the mapping had:
    whether it returns or raises, every key bound before is bound to the
    same value after. *)
Theorem update_keeps_bindings (self : gmap K V) (mapping kwargs : list (K * V)) :
  self ⊆ state_of (update self mapping kwargs).
Proof.
  rewrite update_setitems. pose proof (setitems_spec self (mapping ++ kwargs)) as Hspec.
  destruct (setitems self (mapping ++ kwargs)) as [self'|e self']; simpl.
  - destruct Hspec as (_ & Hfresh & ->). by apply union_fresh_subseteq.
  - destruct Hspec as (_ & pre & k & v & post & _ & _ & Hfresh & -> & _).
    by apply union_fresh_subseteq.
Qed.

(** X6. [update] returns exactly when the keys it is given are pairwise
    distinct and not bound yet, and then the mapping holds the old and the
    new items; otherwise it raises [KeyError] at the first item whose key is
    bound, by the mapping or by an item before it, and keeps exactly the
    items it set before that one: their keys are pairwise distinct and were
    not bound. *)
Theorem update_sets_each_key_once (self : gmap K V) (mapping kwargs : list (K * V)) :
  let items := mapping ++ kwargs in
  let fresh := NoDup items.*1 ∧ ∀ k, k ∈ items.*1 → self !! k = None in
  match update self mapping kwargs with
  | Returns self' => fresh ∧ self' = list_to_map items ∪ self
  | Raises e self' =>
      ¬ fresh ∧ e = KeyError
      ∧ ∃ pre k v post,
          items = pre ++ (k, v) :: post
          ∧ NoDup pre.*1
          ∧ (∀ k', k' ∈ pre.*1 → self !! k' = None)
          ∧ (k ∈ pre.*1 ∨ is_Some (self !! k))
          ∧ self' = list_to_map pre ∪ self
          ∧ is_Some (self' !! k)
  end.
Proof.
  intros items fresh. rewrite update_setitems. fold items.
  pose proof (setitems_spec self items) as Hspec.
  destruct (setitems self items) as [self'|e self'].
  - destruct Hspec as (Hnd & Hfresh & ->). done.
  - destruct Hspec as (-> & pre & k & v & post & Hitems & Hnd & Hfresh & -> & Hsome).
    split; [|split; [done|]].
    2:{ exists pre, k, v, post. repeat (split; [done|]). split; [|done].
        destruct Hsome as [v' Hv'].
        apply lookup_union_Some_raw in Hv' as [Hv'|[_ Hv']]; [left|right; eauto].
        apply elem_of_list_to_map_2 in Hv'.
        apply list_elem_of_fmap. by exists (k, v'). }
    intros [Hnd' Hfresh']. rewrite Hitems in Hnd', Hfresh'.
    rewrite fmap_app, fmap_cons in Hnd', Hfresh'. simpl in *.
    destruct Hsome as [v' Hv']. apply lookup_union_Some_raw in Hv' as [Hv'|[_ Hv']].
    + apply elem_of_list_to_map_2 in Hv'.
      apply NoDup_app in Hnd' as (_ & Hdisj & _). apply (Hdisj k).
      * apply list_elem_of_fmap. by exists (k, v').
      * by left.
    + rewrite Hfresh' in Hv'; [done|]. apply elem_of_app. right. by left.
Qed.

End fixeddict.
End FixedDict.

(** ** CombinedDict *)

Module CombinedDict.
Section combineddict.
Context {K : Type} `{Countable K} {V : Type}.

(** A combined dictionary holds [self.dicts], the list of its constituents,
    here dictionaries. *)
Definition __init__ (dicts : option (list (gmap K V))) : list (gmap K V) :=
  match dicts with
  | None => []
  | Some dicts => dicts
  end.

Fixpoint __getitem__ (self : list (gmap K V)) (key : K) : result V :=
  match self with
  | [] => Raise KeyError
  | d :: self =>
      match d !! key with
      | Some value => Ok value
      | None => __getitem__ self key
      end
  end.

Definition get (self : list (gmap K V)) (key : K) (default : V) : V :=
  match __getitem__ self key with
  | Ok value => value
  | Raise _ => default
  end.

(** Modelled from the spec: [unique] of [brownie.itools], the
    order-preserving de-duplication, which yields each distinct element
    once, in first-occurrence order, and tracks the elements seen. *)
Fixpoint unique (l : list K) (seen : gset K) : list K :=
  match l with
  | [] => []
  | x :: l => if decide (x ∈ seen) then unique l seen
              else x :: unique l ({[x]} ∪ seen)
  end.

(** [d.iterkeys()] of a constituent. *)
Definition dict_iterkeys (d : gmap K V) : list K := (map_to_list d).*1.

(** [unique(chain.from_iterable(d.iterkeys() for d in self.dicts))] *)
Definition __iter__ (self : list (gmap K V)) : list K :=
  unique (concat (dict_iterkeys <$> self)) ∅.

Definition keys (self : list (gmap K V)) : list K := __iter__ self.

(** [for key in self: yield key, self[key]], run to its end. *)
Definition iteritems (self : list (gmap K V)) : result (list (K * V)) :=
  foldr (λ key rest,
           value ← __getitem__ self key;
           items ← rest;
           Ok ((key, value) :: items))
        (Ok []) (__iter__ self).

Definition __len__ (self : list (gmap K V)) : nat := length (keys self).

(** [any(key in d for d in self.dicts)] *)
Definition __contains__ (self : list (gmap K V)) (key : K) : bool :=
  existsb (λ d, bool_decide (is_Some (d !! key))) self.

(** *** Properties *)

Lemma getitem_union (self : list (gmap K V)) key :
  __getitem__ self key
  = match (⋃ self) !! key with
    | Some value => Ok value
    | None => Raise KeyError
    end.
Proof.
  induction self as [|d self IH]; simpl.
  - by rewrite lookup_empty.
  - rewrite lookup_union. destruct (d !! key) as [v|]; simpl.
    + by rewrite union_Some_l.
    + rewrite (left_id_L None union). apply IH.
Qed.

Lemma contains_union (self : list (gmap K V)) key :
  __contains__ self key = bool_decide (is_Some ((⋃ self) !! key)).
Proof.
  induction self as [|d self IH]; simpl.
  - rewrite lookup_empty. symmetry. apply bool_decide_eq_false. by intros [? ?].
  - rewrite IH, lookup_union. destruct (d !! key) as [v|]; simpl.
    + rewrite union_Some_l. rewrite !bool_decide_eq_true_2; eauto.
    + by rewrite (left_id_L None union).
Qed.

Lemma unique_spec (l : list K) (seen : gset K) :
  NoDup (unique l seen)
  ∧ ∀ x, x ∈ unique l seen ↔ x ∈ l ∧ x ∉ seen.
Proof.
  revert seen. induction l as [|y l IH]; intros seen; simpl.
  - split; [apply NoDup_nil_2|]. intros x. rewrite elem_of_nil. tauto.
  - destruct (decide (y ∈ seen)) as [Hy|Hy].
    + destruct (IH seen) as [Hnd Hin]. split; [done|].
      intros x. rewrite Hin, elem_of_cons. split; [tauto|].
      intros [[->|?] ?]; tauto.
    + destruct (IH ({[y]} ∪ seen)) as [Hnd Hin]. split.
      * apply NoDup_cons. split; [|done]. rewrite Hin, elem_of_union, elem_of_singleton.
        tauto.
      * intros x. rewrite !elem_of_cons, Hin, elem_of_union, elem_of_singleton.
        split.
        -- intros [->|[Hl Hs]]; [split; [by left|done]|].
           split; [by right|]. tauto.
        -- intros [[->|Hl] Hs]; [by left|].
           destruct (decide (x = y)) as [->|Hne]; [by left|]. right. tauto.
Qed.

Lemma elem_of_iterkeys_union (self : list (gmap K V)) key :
  key ∈ concat (dict_iterkeys <$> self) ↔ is_Some ((⋃ self) !! key).
Proof.
  induction self as [|d self IH]; simpl.
  - rewrite lookup_empty, elem_of_nil. split; [done|]. by intros [? ?].
  - rewrite elem_of_app, IH, lookup_union. unfold dict_iterkeys.
    rewrite list_elem_of_fmap. split.
    + intros [([k v] & -> & Hin)|Hin].
      * apply elem_of_map_to_list in Hin. simpl. rewrite Hin.
        rewrite union_Some_l. eauto.
      * destruct (d !! key); simpl; [rewrite union_Some_l; eauto|].
        by rewrite (left_id_L None union).
    + destruct (d !! key) as [v|] eqn:Hd; simpl.
      * intros _. left. exists (key, v). split; [done|]. by apply elem_of_map_to_list.
      * rewrite (left_id_L None union). by right.
Qed.

Lemma iter_spec (self : list (gmap K V)) :
  NoDup (__iter__ self)
  ∧ ∀ key, key ∈ __iter__ self ↔ is_Some ((⋃ self) !! key).
Proof.
  unfold __iter__.
  destruct (unique_spec (concat (dict_iterkeys <$> self)) ∅) as [Hnd Hin].
  split; [done|]. intros key. rewrite Hin, elem_of_iterkeys_union. set_solver.
Qed.

Lemma iteritems_loop (self : list (gmap K V)) (ks : list K) :
  (∀ key, key ∈ ks → is_Some ((⋃ self) !! key)) →
  ∃ items,
    foldr (λ key rest,
             value ← __getitem__ self key;
             items ← rest;
             Ok ((key, value) :: items)) (Ok []) ks = Ok items
    ∧ items.*1 = ks
    ∧ ∀ key value, (key, value) ∈ items → (⋃ self) !! key = Some value.
Proof.
  induction ks as [|k ks IH]; intros Hks; simpl.
  - exists []. split; [done|]. split; [done|]. intros ?? Hin. by apply elem_of_nil in Hin.
  - destruct IH as (items & -> & Hfst & Hval).
    { intros key Hin. apply Hks. by right. }
    destruct (Hks k) as [v Hv]; [by left|].
    rewrite getitem_union, Hv. simpl. exists ((k, v) :: items).
    split; [done|]. split; [by rewrite fmap_cons, Hfst|].
    intros key value Hin. apply elem_of_cons in Hin as [[= -> ->]|Hin]; [done|].
    by apply Hval.
Qed.

(** X7. A combined dictionary reads like the union of its constituents in
    which an earlier constituent wins: [self[key]] is the value of the first
    constituent that holds the key and raises [KeyError] when none does,
    [get] falls back on its default exactly then, and [key in self] says
    whether the lookup succeeds. *)
Theorem lookup_is_first_match (self : list (gmap K V)) (key : K) (default : V) :
  __getitem__ self key
  = match (⋃ self) !! key with
    | Some value => Ok value
    | None => Raise KeyError
    end
  ∧ get self key default = from_option id default ((⋃ self) !! key)
  ∧ __contains__ self key = bool_decide (is_Some ((⋃ self) !! key)).
Proof.
  split; [apply getitem_union|]. split; [|apply contains_union].
  unfold get. rewrite getitem_union. by destruct ((⋃ self) !! key).
Qed.

(** X8. Iterating over a combined dictionary yields every key of the
    constituents once; its length is the number of distinct keys; and
    [iteritems] never raises: it pairs each of these keys, in the order of
    the iteration, with the value a lookup gives. *)
Theorem iteration_yields_each_key_once (self : list (gmap K V)) :
  NoDup (__iter__ self)
  ∧ (∀ key, key ∈ __iter__ self ↔ __contains__ self key = true)
  ∧ __len__ self = size (⋃ self)
  ∧ ∃ items, iteritems self = Ok items
             ∧ items.*1 = __iter__ self
             ∧ ∀ key value, (key, value) ∈ items ↔ __getitem__ self key = Ok value.
Proof.
  destruct (iter_spec self) as [Hnd Hin].
  split; [done|]. split; [|split].
  - intros key. rewrite Hin, contains_union. by rewrite bool_decide_eq_true.
  - unfold __len__, keys. rewrite <- size_dom.
    rewrite <- (size_list_to_set (C := gset K) (__iter__ self)) by done.
    f_equal. apply set_eq. intros key.
    by rewrite elem_of_list_to_set, Hin, elem_of_dom.
  - destruct (iteritems_loop self (__iter__ self)) as (items & Hitems & Hfst & Hval).
    { intros key. by rewrite Hin. }
    exists items. split; [done|]. split; [done|].
    intros key value. rewrite getitem_union. split.
    + intros Hkv. by rewrite (Hval _ _ Hkv).
    + destruct ((⋃ self) !! key) as [v|] eqn:Hv; [|done]. intros [= ->].
      assert (key ∈ items.*1) as Hk by (rewrite Hfst, Hin; eauto).
      apply list_elem_of_fmap in Hk as ([k' v'] & -> & Hk). simpl in *.
      pose proof (Hval _ _ Hk) as Hv'. congruence.
Qed.

End combineddict.
End CombinedDict.

(** ** OrderedSet *)

Module OrderedSet.
Section orderedset.
Context {K : Type} `{Countable K}.
Variable none_key : K.

(** An instance holds [_orderedmap], an [OrderedDict] all of whose values
    are [None]. *)
Definition t : Type := OrderedDict.t (K := K) (V := unit).

Abbreviation outcome := (OrderedDict.outcome (K := K) (V := unit)).
Abbreviation Returns := OrderedDict.Returns.
Abbreviation Raises := OrderedDict.Raises.
Abbreviation state_of := OrderedDict.state_of.
Abbreviation invariant := (OrderedDict.invariant none_key).
Abbreviation add_key := OrderedDict.add_key.
Abbreviation remove_key := OrderedDict.remove_key.

(** [OrderedDict.fromkeys(iterable or ())] *)
Definition __init__ (iterable : list K) : t :=
  OrderedDict.fromkeys none_key iterable tt.

Definition __len__ (self : t) : nat := size (OrderedDict.dict self).

Definition __contains__ (self : t) (element : K) : bool :=
  bool_decide (is_Some (OrderedDict.dict self !! element)).

Definition add (self : t) (element : K) : t :=
  OrderedDict.__setitem__ none_key self element tt.

Definition remove (self : t) (element : K) : outcome unit :=
  OrderedDict.__delitem__ none_key self element.

(** [self._orderedmap.pop(element, None)], the result dropped. *)
Definition discard (self : t) (element : K) : outcome unit :=
  match OrderedDict.pop none_key self element (Some tt) with
  | OrderedDict.Returns _ self => Returns tt self
  | OrderedDict.Raises e self => Raises e self
  end.

Definition pop (self : t) (last : bool) : outcome K :=
  if decide (__len__ self = 0%nat) then Raises KeyError self
  else
    match OrderedDict.popitem none_key self last with
    | OrderedDict.Returns item self => Returns item.1 self
    | OrderedDict.Raises e self => Raises e self
    end.

Definition clear (self : t) : t := OrderedDict.clear none_key self.

(** [update]: every other iterable is given by the list of its elements. *)
Definition update (self : t) (others : list (list K)) : t :=
  foldl (λ self other, foldl add self other) self others.

Definition __iter__ (self : t) : option (list K) :=
  OrderedDict.__iter__ none_key self.

Definition __reversed__ (self : t) : option (list K) :=
  OrderedDict.__reversed__ none_key self.

Definition copy (self : t) : option t :=
  elements ← __iter__ self; Some (__init__ elements).

Definition issubset (self other : t) : option bool :=
  elements ← __iter__ self; Some (forallb (__contains__ other) elements).

Definition issuperset (self other : t) : option bool :=
  elements ← __iter__ other; Some (forallb (__contains__ self) elements).

(** [==] with another instance of the class. *)
Definition __eq__ (self other : t) : option bool :=
  if decide (__len__ self = __len__ other) then
    elements ← __iter__ self;
    others ← __iter__ other;
    Some (bool_decide (elements = others))
  else Some false.

Definition __ne__ (self other : t) : option bool := negb <$> __eq__ self other.

Definition __le__ (self other : t) : option bool := issubset self other.

Definition __lt__ (self other : t) : option bool :=
  is_subset ← issubset self other;
  if (is_subset : bool) then __ne__ self other else Some false.

Definition __ge__ (self other : t) : option bool := issuperset self other.

Definition __gt__ (self other : t) : option bool :=
  is_superset ← issuperset self other;
  if (is_superset : bool) then __ne__ self other else Some false.

(** [chain.from_iterable((self, ) + others)] *)
Definition union (self : t) (others : list t) : option t :=
  elements ← mapM __iter__ (self :: others); Some (__init__ (concat elements)).

Definition __or__ (self other : t) : option t := union self [other].

(** [min] and [max] with [key=len] return the first of [a], [b] among
    those of the least, respectively greatest, length. *)
Definition intersect (a b : t) : option t :=
  let smallest := if decide (__len__ a ≤ __len__ b)%nat then a else b in
  let largest := if decide (__len__ b ≤ __len__ a)%nat then a else b in
  elements ← __iter__ largest;
  Some (foldl (λ result element,
                 if __contains__ smallest element then add result element
                 else result)
              (__init__ []) elements).

Definition intersection (self : t) (others : list t) : option t :=
  foldl (λ a b, a ← a; intersect a b) (Some self) others.

Definition __and__ (self other : t) : option t := intersection self [other].

Definition difference (self : t) (others : list t) : option t :=
  elements ← __iter__ self;
  Some (__init__
          (filter (λ key, existsb (λ s, __contains__ s key) others = false)
                  elements)).

Definition __sub__ (self other : t) : option t := difference self [other].

(** [symmetric_difference(other)], the iterable [other] given by the list
    of its elements. *)
Definition symmetric_difference (self : t) (other : list K) : option t :=
  let other := __init__ other in
  left ← __sub__ self other;
  right ← __sub__ other self;
  left ← __iter__ left;
  right ← __iter__ right;
  Some (__init__ (left ++ right)).

Implicit Types (self other : t) (keys : list K).

(** *** The order of first occurrences *)

Lemma foldl_add_key_spec keys (l : list K) :
  ∃ new, foldl add_key keys l = keys ++ new
         ∧ ∀ x, x ∈ new ↔ (x ∉ keys) ∧ x ∈ l.
Proof.
  revert keys. induction l as [|k l IH]; intros keys.
  - exists []. split; [by rewrite app_nil_r|].
    intros x. split; [intros Hx|intros [_ Hx]]; by apply elem_of_nil in Hx.
  - simpl. unfold OrderedDict.add_key at 2.
    destruct (decide (k ∈ keys)) as [Hin|Hin].
    + destruct (IH keys) as (new & -> & Hnew). exists new. split; [done|].
      intros x. rewrite Hnew, elem_of_cons.
      split; [tauto|]. intros [Hx [->|Hl]]; [done|tauto].
    + destruct (IH (keys ++ [k])) as (new & -> & Hnew). exists (k :: new).
      split; [by rewrite <- app_assoc|].
      intros x.
      rewrite elem_of_cons, Hnew, elem_of_app, list_elem_of_singleton, elem_of_cons.
      destruct (decide (x = k)) as [->|Hne]; tauto.
Qed.

Lemma foldl_add_key_NoDup (l : list K) : NoDup l → foldl add_key [] l = l.
Proof.
  assert (∀ keys, NoDup (keys ++ l) → foldl add_key keys l = keys ++ l) as Hgen.
  { induction l as [|k l IH]; intros keys Hnd.
    - by rewrite app_nil_r.
    - simpl. unfold OrderedDict.add_key at 2.
      rewrite decide_False.
      + rewrite IH; rewrite <- app_assoc; done.
      + apply NoDup_app in Hnd as (_ & Hdisj & _). intros Hin.
        apply (Hdisj k Hin). by left. }
  intros Hnd. by apply (Hgen []).
Qed.

(** *** Reading an instance under the invariant *)

Lemma init_first_occurrences (iterable : list K) :
  invariant (__init__ iterable) (foldl add_key [] iterable).
Proof. apply OrderedDict.fromkeys_invariant. Qed.

Lemma len_invariant self keys : invariant self keys → __len__ self = length keys.
Proof.
  intros Hinv.
  destruct (OrderedDict.invariant_one_link none_key _ _ Hinv) as (Hnd & Hdict & _).
  unfold __len__. rewrite <- (size_dom (D := gset K)).
  assert (dom (OrderedDict.dict self) = list_to_set (C := gset K) keys) as ->.
  { apply set_eq. intros k. rewrite elem_of_dom, elem_of_list_to_set.
    symmetry. apply Hdict. }
  by apply size_list_to_set.
Qed.

Lemma contains_invariant self keys element :
  invariant self keys → __contains__ self element = bool_decide (element ∈ keys).
Proof.
  intros Hinv.
  destruct (OrderedDict.invariant_one_link none_key _ _ Hinv) as (_ & Hdict & _).
  unfold __contains__. apply bool_decide_ext. symmetry. apply Hdict.
Qed.

Lemma iter_invariant self keys : invariant self keys → __iter__ self = Some keys.
Proof. intros Hinv. by destruct (OrderedDict.invariant_iter none_key _ _ Hinv). Qed.

Lemma invariant_NoDup self keys : invariant self keys → NoDup keys.
Proof.
  intros Hinv. by destruct (OrderedDict.invariant_one_link none_key _ _ Hinv).
Qed.

Lemma iter_all_invariant (others : list t) (okeys : list (list K)) :
  Forall2 invariant others okeys → mapM __iter__ others = Some okeys.
Proof.
  intros Hall. apply mapM_Some. eapply Forall2_impl; [done|].
  intros s l. apply iter_invariant.
Qed.

Lemma contains_any_invariant (others : list t) (okeys : list (list K)) key :
  Forall2 invariant others okeys →
  existsb (λ s, __contains__ s key) others = false ↔ key ∉ concat okeys.
Proof.
  induction 1 as [|s l others okeys Hinv Hall IH]; simpl.
  - split; [|done]. intros _. apply not_elem_of_nil.
  - rewrite (contains_invariant _ _ _ Hinv), orb_false_iff, IH.
    rewrite bool_decide_eq_false, elem_of_app. tauto.
Qed.

Lemma forallb_contains self keys (l : list K) :
  invariant self keys →
  forallb (__contains__ self) l = bool_decide (l ⊆ keys).
Proof.
  intros Hinv. induction l as [|x l IH].
  - symmetry. apply bool_decide_eq_true_2.
    intros y Hy. by apply elem_of_nil in Hy.
  - cbn [forallb]. rewrite IH, (contains_invariant _ _ _ Hinv).
    destruct (decide (x ∈ keys)) as [Hx|Hx].
    + rewrite (bool_decide_eq_true_2 _ Hx). cbn [andb].
      apply bool_decide_ext. split; intros Hsub y Hy.
      * apply elem_of_cons in Hy as [->|Hy]; [done|by apply Hsub].
      * apply Hsub. by right.
    + rewrite (bool_decide_eq_false_2 _ Hx). cbn [andb].
      symmetry. apply bool_decide_eq_false_2.
      intros Hsub. apply Hx, Hsub. by left.
Qed.

Lemma difference_invariant self keys (others : list t) (okeys : list (list K)) :
  invariant self keys → Forall2 invariant others okeys →
  ∃ d, difference self others = Some d
       ∧ invariant d (filter (λ key, key ∉ concat okeys) keys).
Proof.
  intros Hinv Hall. unfold difference. rewrite (iter_invariant _ _ Hinv). simpl.
  eexists. split; [done|].
  rewrite (list_filter_iff _ (λ key, key ∉ concat okeys))
    by (intros key; by apply contains_any_invariant).
  rewrite <- (foldl_add_key_NoDup (filter _ keys)) at 2
    by (apply NoDup_filter; by apply (invariant_NoDup self)).
  apply init_first_occurrences.
Qed.

Lemma filter_all (P : K → Prop) `{∀ x, Decision (P x)} (l : list K) :
  (∀ x, x ∈ l → P x) → filter P l = l.
Proof.
  induction l as [|x l IH]; intros HP; [done|].
  rewrite filter_cons_True by (apply HP; by left).
  f_equal. apply IH. intros y Hy. apply HP. by right.
Qed.

Lemma intersect_loop smallest result keys (l : list K) :
  invariant result keys →
  invariant (foldl (λ result element,
                      if __contains__ smallest element then add result element
                      else result) result l)
            (foldl add_key keys (filter (λ x, __contains__ smallest x = true) l)).
Proof.
  revert result keys. induction l as [|x l IH]; intros result keys Hinv; [done|].
  simpl. destruct (__contains__ smallest x) eqn:Hx.
  - rewrite filter_cons_True by done. simpl. apply IH.
    by apply OrderedDict.setitem_invariant.
  - rewrite filter_cons_False by (by rewrite Hx). by apply IH.
Qed.

Lemma intersect_invariant a b ka kb :
  invariant a ka → invariant b kb →
  ∃ r, intersect a b = Some r
       ∧ invariant r (if decide (length ka < length kb)%nat
                      then filter (λ x, x ∈ ka) kb
                      else if decide (length kb < length ka)%nat
                           then filter (λ x, x ∈ kb) ka
                           else ka).
Proof.
  intros Ha Hb. unfold intersect.
  rewrite (len_invariant _ _ Ha), (len_invariant _ _ Hb).
  assert (∀ s ks l, invariant s ks → NoDup l →
            invariant (foldl (λ result element,
                                if __contains__ s element then add result element
                                else result) (__init__ []) l)
                      (filter (λ x, x ∈ ks) l)) as Hloop.
  { intros s ks l Hs Hnd.
    pose proof (intersect_loop s (__init__ []) [] l (init_first_occurrences [])) as Hinv.
    rewrite (list_filter_iff _ (λ x, x ∈ ks)) in Hinv
      by (intros x; rewrite (contains_invariant _ _ _ Hs); apply bool_decide_eq_true).
    by rewrite foldl_add_key_NoDup in Hinv by (by apply NoDup_filter). }
  destruct (decide (length ka < length kb)%nat) as [Hlt|Hge].
  - rewrite decide_True, decide_False by lia.
    rewrite (iter_invariant _ _ Hb). simpl. eexists. split; [done|].
    apply Hloop; [done|]. by apply (invariant_NoDup b).
  - rewrite (decide_True (P := (length kb ≤ length ka)%nat)) by lia.
    rewrite (iter_invariant _ _ Ha). simpl. eexists. split; [done|].
    destruct (decide (length kb < length ka)%nat) as [Hgt|Heq].
    + rewrite decide_False by lia.
      apply Hloop; [done|]. by apply (invariant_NoDup a).
    + rewrite decide_True by lia.
      pose proof (Hloop a ka ka Ha (invariant_NoDup _ _ Ha)) as Hinv.
      by rewrite (filter_all (λ x, x ∈ ka) ka) in Hinv.
Qed.

(** X18. [union] keeps the elements of [self] in their order and appends,
    in the order of first occurrence, the elements of the other sets that
    [self] does not hold. *)
Theorem union_appends_new_elements self keys (others : list t)
    (okeys : list (list K)) :
  invariant self keys → Forall2 invariant others okeys →
  ∃ u new, union self others = Some u
           ∧ invariant u (keys ++ new)
           ∧ keys ++ new = foldl add_key keys (concat okeys)
           ∧ ∀ x, x ∈ new ↔ (x ∉ keys) ∧ x ∈ concat okeys.
Proof.
  intros Hinv Hall. unfold union.
  rewrite (iter_all_invariant (self :: others) (keys :: okeys))
    by (by constructor).
  simpl. destruct (foldl_add_key_spec keys (concat okeys)) as (new & Heq & Hnew).
  eexists _, new. split; [done|]. split; [|done].
  rewrite <- Heq. rewrite <- (foldl_add_key_NoDup keys) at 2
    by (by apply (invariant_NoDup self)).
  rewrite <- foldl_app. apply init_first_occurrences.
Qed.

(** X19. [difference] keeps, in their order, the elements of [self] that
    none of the other sets holds; [symmetric_difference] yields these for
    [self] against [other], followed by those of [other], in the order of
    their first occurrence, that [self] does not hold. *)
Theorem difference_keeps_order self keys (others : list t)
    (okeys : list (list K)) (other : list K) :
  invariant self keys → Forall2 invariant others okeys →
  (∃ d, difference self others = Some d
        ∧ invariant d (filter (λ key, key ∉ concat okeys) keys))
  ∧ (∃ d, symmetric_difference self other = Some d
          ∧ invariant d (filter (λ key, key ∉ other) keys
                         ++ filter (λ key, key ∉ keys) (foldl add_key [] other))).
Proof.
  intros Hinv Hall. split; [by apply difference_invariant|].
  pose proof (init_first_occurrences other) as Hother.
  unfold symmetric_difference, __sub__.
  destruct (difference_invariant self keys [__init__ other] [foldl add_key [] other])
    as (d1 & -> & H1); [done|by repeat constructor|].
  destruct (difference_invariant (__init__ other) (foldl add_key [] other) [self] [keys])
    as (d2 & -> & H2); [done|by repeat constructor|].
  simpl in *. rewrite app_nil_r in H1, H2.
  rewrite (iter_invariant _ _ H1), (iter_invariant _ _ H2). simpl.
  eexists. split; [done|].
  assert (∀ x, x ∈ foldl add_key [] other ↔ x ∈ other) as Hmem.
  { intros x. destruct (foldl_add_key_spec [] other) as (new & -> & Hnew).
    rewrite app_nil_l, Hnew. split; [tauto|].
    intros Hx. split; [apply not_elem_of_nil|done]. }
  rewrite (list_filter_iff (λ key, key ∉ other) (λ key, key ∉ foldl add_key [] other))
    by (intros x; by rewrite Hmem).
  rewrite <- (foldl_add_key_NoDup (filter _ keys ++ filter _ (foldl add_key [] other))) at 2.
  - apply init_first_occurrences.
  - apply NoDup_app. split; [apply NoDup_filter; by apply (invariant_NoDup self)|].
    split; [|apply NoDup_filter; by apply (invariant_NoDup (__init__ other))].
    intros x. rewrite !list_elem_of_filter. tauto.
Qed.

(** X20. [&] iterates over the longer operand and keeps its elements that
    the shorter one holds, so the result has the order of the longer
    operand; when both have the same length, [min] and [max] both pick
    [self], and the result is a copy of [self] whatever [other] holds. *)
Theorem intersection_follows_longer_operand self other keys okeys :
  invariant self keys → invariant other okeys →
  ∃ r, __and__ self other = Some r
       ∧ invariant r (if decide (length keys < length okeys)%nat
                      then filter (λ x, x ∈ keys) okeys
                      else if decide (length okeys < length keys)%nat
                           then filter (λ x, x ∈ okeys) keys
                           else keys).
Proof.
  intros Hinv Hother. unfold __and__, intersection. simpl.
  by apply intersect_invariant.
Qed.

(** X21. Between two instances [==] holds exactly when they have the same
    elements in the same order; [<=] is inclusion whatever the order, and
    [<] is inclusion together with [!=], so that it holds between two
    instances with the same elements in different orders. *)
Theorem comparisons_depend_on_order self other keys okeys :
  invariant self keys → invariant other okeys →
  __eq__ self other = Some (bool_decide (keys = okeys))
  ∧ __le__ self other = Some (bool_decide (keys ⊆ okeys))
  ∧ __lt__ self other = Some (bool_decide (keys ⊆ okeys ∧ keys ≠ okeys))
  ∧ __ge__ self other = Some (bool_decide (okeys ⊆ keys))
  ∧ __gt__ self other = Some (bool_decide (okeys ⊆ keys ∧ keys ≠ okeys)).
Proof.
  intros Hinv Hother.
  assert (__eq__ self other = Some (bool_decide (keys = okeys))) as Heq.
  { unfold __eq__. rewrite (len_invariant _ _ Hinv), (len_invariant _ _ Hother).
    rewrite (iter_invariant _ _ Hinv), (iter_invariant _ _ Hother).
    destruct (decide (length keys = length okeys)) as [Hlen|Hlen]; [done|].
    f_equal. symmetry. apply bool_decide_eq_false_2. by intros ->. }
  assert (__le__ self other = Some (bool_decide (keys ⊆ okeys))) as Hle.
  { unfold __le__, issubset. rewrite (iter_invariant _ _ Hinv). simpl.
    by rewrite (forallb_contains _ _ _ Hother). }
  assert (__ge__ self other = Some (bool_decide (okeys ⊆ keys))) as Hge.
  { unfold __ge__, issuperset. rewrite (iter_invariant _ _ Hother). simpl.
    by rewrite (forallb_contains _ _ _ Hinv). }
  split; [done|]. split; [done|].
  unfold __lt__, __gt__, __ne__. unfold __le__ in Hle. unfold __ge__ in Hge.
  rewrite Hle, Hge, Heq. simpl.
  split; [|split; [done|]].
  - destruct (decide (keys ⊆ okeys)) as [Hsub|Hsub].
    + rewrite (bool_decide_eq_true_2 _ Hsub). simpl. f_equal.
      rewrite <- bool_decide_not. apply bool_decide_ext. tauto.
    + rewrite (bool_decide_eq_false_2 _ Hsub). f_equal.
      symmetry. apply bool_decide_eq_false_2. tauto.
  - destruct (decide (okeys ⊆ keys)) as [Hsub|Hsub].
    + rewrite (bool_decide_eq_true_2 _ Hsub). simpl. f_equal.
      rewrite <- bool_decide_not. apply bool_decide_ext. tauto.
    + rewrite (bool_decide_eq_false_2 _ Hsub). f_equal.
      symmetry. apply bool_decide_eq_false_2. tauto.
Qed.

(** X22. [add] appends an element that is new and leaves the order as it
    is otherwise; [discard] takes an element out and never raises, while
    [remove] raises [KeyError] for an element the set does not hold and
    then changes nothing. *)
Theorem add_discard_remove self keys element :
  invariant self keys →
  invariant (add self element) (add_key keys element)
  ∧ (∃ s, discard self element = Returns tt s
          ∧ invariant s (remove_key keys element))
  ∧ (if decide (element ∈ keys)
     then ∃ s, remove self element = Returns tt s
               ∧ invariant s (remove_key keys element)
     else remove self element = Raises KeyError self).
Proof.
  intros Hinv. split; [by apply OrderedDict.setitem_invariant|].
  destruct (OrderedDict.invariant_one_link none_key _ _ Hinv)
    as (_ & Hdict & Hmap & _).
  pose proof (OrderedDict.pop_returns none_key self keys element (Some tt) Hinv)
    as Hpop.
  pose proof (OrderedDict.delitem_invariant none_key self keys element Hinv)
    as Hdel.
  split.
  - unfold discard. destruct (OrderedDict.dict self !! element) as [v|] eqn:Hv.
    + destruct Hpop as (s & -> & Hs & _). by exists s.
    + rewrite Hpop. exists self. split; [done|].
      rewrite OrderedDict.remove_key_absent; [done|].
      rewrite Hdict, Hv. by intros [? ?].
  - unfold remove in *. destruct (decide (element ∈ keys)) as [Hin|Hin].
    + clear Hpop. pose proof Hin as Hin'.
      apply Hdict in Hin as [v Hv]. apply Hmap in Hin' as [a Ha].
      unfold OrderedDict.__delitem__ in *. rewrite Hv in *. simpl in *.
      rewrite Ha in *. eexists. split; [done|]. exact Hdel.
    + unfold OrderedDict.__delitem__.
      destruct (OrderedDict.dict self !! element) as [v|] eqn:Hv; [|done].
      exfalso. apply Hin, Hdict. eauto.
Qed.

End orderedset.

(** [OrderedSet([1, 2, 3])], [OrderedSet([3, 4])] and [OrderedSet([4, 5, 6])] *)
Definition numbers : t (K := option Z) := __init__ None [Some 1; Some 2; Some 3].
Definition pair : t (K := option Z) := __init__ None [Some 3; Some 4].
Definition triple : t (K := option Z) := __init__ None [Some 4; Some 5; Some 6].

Lemma numbers_invariant :
  OrderedDict.invariant None numbers [Some 1; Some 2; Some 3].
Proof. exact (init_first_occurrences None [Some 1; Some 2; Some 3]). Qed.

Lemma pair_invariant : OrderedDict.invariant None pair [Some 3; Some 4].
Proof. exact (init_first_occurrences None [Some 3; Some 4]). Qed.

Lemma triple_invariant :
  OrderedDict.invariant None triple [Some 4; Some 5; Some 6].
Proof. exact (init_first_occurrences None [Some 4; Some 5; Some 6]). Qed.

Lemma union_appends_new_elements_witness :
  ∃ u new, union None numbers [pair] = Some u
           ∧ OrderedDict.invariant None u ([Some 1; Some 2; Some 3] ++ new)
           ∧ [Some 1; Some 2; Some 3] ++ new
             = foldl OrderedDict.add_key [Some 1; Some 2; Some 3]
                     (concat [[Some 3; Some 4]])
           ∧ ∀ x, x ∈ new ↔ (x ∉ [Some 1; Some 2; Some 3])
                             ∧ x ∈ concat [[Some 3; Some 4]].
Proof.
  apply (union_appends_new_elements None numbers [Some 1; Some 2; Some 3]
           [pair] [[Some 3; Some 4]] numbers_invariant).
  constructor; [apply pair_invariant|constructor].
Defined.

Lemma difference_keeps_order_witness :
  (∃ d, difference None numbers [pair] = Some d
        ∧ OrderedDict.invariant None d
            (filter (λ key, key ∉ concat [[Some 3; Some 4]])
                    [Some 1; Some 2; Some 3]))
  ∧ (∃ d, symmetric_difference None numbers [Some 4; Some 3; Some 4] = Some d
          ∧ OrderedDict.invariant None d
              (filter (λ key, key ∉ [Some 4; Some 3; Some 4]) [Some 1; Some 2; Some 3]
               ++ filter (λ key, key ∉ [Some 1; Some 2; Some 3])
                         (foldl OrderedDict.add_key [] [Some 4; Some 3; Some 4]))).
Proof.
  apply (difference_keeps_order None numbers [Some 1; Some 2; Some 3]
           [pair] [[Some 3; Some 4]] [Some 4; Some 3; Some 4] numbers_invariant).
  constructor; [apply pair_invariant|constructor].
Defined.

(** [numbers] and [triple] have no element in common and the same length:
    their intersection is a copy of [numbers]. *)
Lemma intersection_follows_longer_operand_witness :
  ∃ r, __and__ None numbers triple = Some r
       ∧ OrderedDict.invariant None r [Some 1; Some 2; Some 3].
Proof.
  exact (intersection_follows_longer_operand None numbers triple
           [Some 1; Some 2; Some 3] [Some 4; Some 5; Some 6]
           numbers_invariant triple_invariant).
Defined.

Lemma comparisons_depend_on_order_witness :
  __eq__ None numbers pair
  = Some (bool_decide ([Some 1; Some 2; Some 3] = [Some 3; Some 4]))
  ∧ __le__ None numbers pair
    = Some (bool_decide ([Some 1; Some 2; Some 3] ⊆ [Some 3; Some 4]))
  ∧ __lt__ None numbers pair
    = Some (bool_decide ([Some 1; Some 2; Some 3] ⊆ [Some 3; Some 4]
                         ∧ [Some 1; Some 2; Some 3] ≠ [Some 3; Some 4]))
  ∧ __ge__ None numbers pair
    = Some (bool_decide ([Some 3; Some 4] ⊆ [Some 1; Some 2; Some 3]))
  ∧ __gt__ None numbers pair
    = Some (bool_decide ([Some 3; Some 4] ⊆ [Some 1; Some 2; Some 3]
                         ∧ [Some 1; Some 2; Some 3] ≠ [Some 3; Some 4])).
Proof.
  exact (comparisons_depend_on_order None numbers pair
           [Some 1; Some 2; Some 3] [Some 3; Some 4]
           numbers_invariant pair_invariant).
Defined.

Lemma add_discard_remove_witness :
  OrderedDict.invariant None (add None numbers (Some 7))
    (OrderedDict.add_key [Some 1; Some 2; Some 3] (Some 7))
  ∧ (∃ s, discard None numbers (Some 7) = OrderedDict.Returns tt s
          ∧ OrderedDict.invariant None s
              (OrderedDict.remove_key [Some 1; Some 2; Some 3] (Some 7)))
  ∧ remove None numbers (Some 7) = OrderedDict.Raises KeyError numbers.
Proof.
  exact (add_discard_remove None numbers [Some 1; Some 2; Some 3] (Some 7)
           numbers_invariant).
Defined.

End OrderedSet.

(** ** CombinedList *)

Module CombinedList.
Section combinedlist.
Context {A : Type} `{EqDecision A}.

(** ['%r not in list' % item]: the text, or the exception the formatting
    raises; a tuple item is taken for the arguments of the format. *)
Variable not_in_list : A → result string.

(** The constituent lists are objects in a store, and [self.sequences]
    holds their addresses: the same list may be held more than once, and a
    change to it shows at every place.  Every address in [self.sequences]
    is allocated; [deref] reads the list at an address. *)
Definition deref (σ : gmap positive (list A)) (sequence : positive) : list A :=
  default [] (σ !! sequence).

(** [chain.from_iterable(self.sequences)] *)
Definition __iter__ (σ : gmap positive (list A)) (self : list positive) : list A :=
  CombinedSequence.__iter__ (deref σ <$> self).

(** [sequence.remove(item)] on a Python list: the list without the first
    item equal to [item]. *)
Fixpoint list_remove (sequence : list A) (item : A) : result (list A) :=
  match sequence with
  | [] => Raise (ValueError "list.remove(x): x not in list")
  | x :: sequence =>
      if decide (x = item) then Ok sequence
      else rest ← list_remove sequence item; Ok (x :: rest)
  end.

(** [sequence.count(item)] *)
Definition list_count (sequence : list A) (item : A) : Z :=
  Z.of_nat (length (filter (λ x, x = item) sequence)).

Definition count (σ : gmap positive (list A)) (self : list positive) (item : A) : Z :=
  foldr Z.add 0 ((λ sequence, list_count (deref σ sequence) item) <$> self).

(** [remove]: the first constituent that holds the item gives it up, in
    place; a [ValueError] of a constituent is passed over. *)
Fixpoint remove (σ : gmap positive (list A)) (self : list positive) (item : A)
  : result (gmap positive (list A)) :=
  match self with
  | [] => msg ← not_in_list item; Raise (ValueError msg)
  | sequence :: sequences =>
      match list_remove (deref σ sequence) item with
      | Ok l => Ok (<[sequence := l]> σ)
      | Raise (ValueError _) => remove σ sequences item
      | Raise e => Raise e
      end
  end.

(** [self.sequences[-1].extend(items)] and [self.sequences[-1].append(item)] *)
Definition extend (σ : gmap positive (list A)) (self : list positive)
    (items : list A) : result (gmap positive (list A)) :=
  sequence ← list_getitem self (-1);
  Ok (<[sequence := deref σ sequence ++ items]> σ).

Definition append (σ : gmap positive (list A)) (self : list positive)
    (item : A) : result (gmap positive (list A)) :=
  extend σ self [item].

(** *** Properties *)

Implicit Types (σ : gmap positive (list A)) (self : list positive).

Lemma list_remove_absent (sequence : list A) (item : A) :
  item ∉ sequence →
  list_remove sequence item = Raise (ValueError "list.remove(x): x not in list").
Proof.
  induction sequence as [|x sequence IH]; intros Hnot; [done|].
  apply not_elem_of_cons in Hnot as [Hne Hnot]. simpl.
  rewrite decide_False by done. by rewrite IH.
Qed.

Lemma list_remove_present (sequence : list A) (item : A) :
  item ∈ sequence →
  ∃ l1 l2, sequence = l1 ++ item :: l2 ∧ (item ∉ l1)
           ∧ list_remove sequence item = Ok (l1 ++ l2).
Proof.
  induction sequence as [|x sequence IH]; intros Hin.
  - by apply elem_of_nil in Hin.
  - simpl. destruct (decide (x = item)) as [->|Hne].
    + exists [], sequence. split; [done|]. split; [apply not_elem_of_nil|done].
    + apply elem_of_cons in Hin as [->|Hin]; [done|].
      destruct (IH Hin) as (l1 & l2 & -> & Hnot & ->).
      exists (x :: l1), l2. split; [done|]. split; [|done].
      apply not_elem_of_cons. split; [congruence|done].
Qed.

Lemma list_count_app (l1 l2 : list A) (item : A) :
  list_count (l1 ++ l2) item = list_count l1 item + list_count l2 item.
Proof. unfold list_count. rewrite filter_app, length_app. lia. Qed.

Lemma deref_insert σ sequence (l : list A) :
  deref (<[sequence := l]> σ) sequence = l.
Proof. unfold deref. by rewrite lookup_insert_eq. Qed.

(** A change to one list leaves the constituents at other addresses as
    they are. *)
Lemma deref_insert_others σ sequence (l : list A) (others : list positive) :
  sequence ∉ others →
  deref (<[sequence := l]> σ) <$> others = deref σ <$> others.
Proof.
  intros Hnot. apply list_fmap_ext. intros i b Hb. unfold deref.
  rewrite lookup_insert_ne; [done|]. intros ->.
  apply Hnot. by apply list_elem_of_lookup_2 in Hb.
Qed.

Lemma iter_app σ (l1 l2 : list positive) :
  __iter__ σ (l1 ++ l2) = __iter__ σ l1 ++ __iter__ σ l2.
Proof. unfold __iter__, CombinedSequence.__iter__. by rewrite fmap_app, concat_app. Qed.

Lemma iter_split σ (before : list positive) sequence (after : list positive) :
  __iter__ σ (before ++ sequence :: after)
  = __iter__ σ before ++ deref σ sequence ++ __iter__ σ after.
Proof.
  unfold __iter__, CombinedSequence.__iter__.
  rewrite fmap_app, fmap_cons, concat_app. by cbn [concat].
Qed.

(** The view after a change to a list that is held once. *)
Lemma iter_insert σ (before : list positive) sequence (after : list positive)
    (l : list A) :
  sequence ∉ before → sequence ∉ after →
  __iter__ (<[sequence := l]> σ) (before ++ sequence :: after)
  = __iter__ σ before ++ l ++ __iter__ σ after.
Proof.
  intros Hbefore Hafter. rewrite iter_split, deref_insert.
  unfold __iter__. by rewrite !deref_insert_others by done.
Qed.

Lemma elem_of_view σ self (item : A) :
  item ∈ __iter__ σ self ↔ ∃ sequence, sequence ∈ self ∧ item ∈ deref σ sequence.
Proof.
  unfold __iter__, CombinedSequence.__iter__.
  induction self as [|s self IH]; cbn [fmap list_fmap concat].
  - split; [intros Hin; by apply elem_of_nil in Hin|].
    intros (b & Hb & _). by apply elem_of_nil in Hb.
  - rewrite elem_of_app, IH. split.
    + intros [Hs|(b & Hb & Hitem)]; [exists s|exists b]; (split; [|done]).
      * by left.
      * by right.
    + intros (b & Hb & Hitem). apply elem_of_cons in Hb as [->|Hb]; [by left|].
      right. by exists b.
Qed.

(** The loop of [remove] stops at the first constituent that holds the
    item and takes the first occurrence out of it. *)
Lemma remove_spec σ self (item : A) :
  if decide (item ∈ __iter__ σ self)
  then ∃ before sequence after l1 l2,
         self = before ++ sequence :: after
         ∧ (∀ b, b ∈ before → item ∉ deref σ b)
         ∧ deref σ sequence = l1 ++ item :: l2 ∧ (item ∉ l1)
         ∧ remove σ self item = Ok (<[sequence := l1 ++ l2]> σ)
  else remove σ self item = (msg ← not_in_list item; Raise (ValueError msg)).
Proof.
  induction self as [|s self IH].
  - rewrite decide_False; [done|].
    unfold __iter__, CombinedSequence.__iter__. simpl. apply not_elem_of_nil.
  - cbn [remove]. destruct (decide (item ∈ deref σ s)) as [Hs|Hs].
    + rewrite decide_True by (apply elem_of_view; exists s; split; [by left|done]).
      destruct (list_remove_present _ _ Hs) as (l1 & l2 & Heq & Hnot & ->).
      exists [], s, self, l1, l2. split; [done|].
      split; [by intros b Hb; apply elem_of_nil in Hb|]. done.
    + rewrite (list_remove_absent _ _ Hs).
      destruct (decide (item ∈ __iter__ σ self)) as [Hin|Hin].
      * rewrite decide_True.
        -- destruct IH as (before & a & after & l1 & l2 & -> & Hbefore & Ha & Hnot & ->).
           exists (s :: before), a, after, l1, l2. split; [done|]. split; [|done].
           intros b Hb. apply elem_of_cons in Hb as [->|Hb]; [done|by apply Hbefore].
        -- apply elem_of_view in Hin as (b & Hb & Hitem).
           apply elem_of_view. exists b. split; [by right|done].
      * rewrite decide_False; [done|].
        intros Hin'. apply elem_of_view in Hin' as (b & Hb & Hitem).
        apply elem_of_cons in Hb as [->|Hb]; [done|].
        apply Hin, elem_of_view. by exists b.
Qed.

(** X30. [remove] takes the first occurrence of the item out of the first
    constituent list that holds it, in place, and raises the [ValueError]
    of its own when no constituent holds the item; [append] appends to the
    last constituent list and raises [IndexError] on a view without
    constituents.  When no list is held twice, the view after [remove] is
    the view before without the first occurrence of the item, and after
    [append] the view before followed by the item.  [count] counts the
    occurrences in the view. *)
Theorem remove_takes_first_occurrence σ self (item : A) :
  (if decide (item ∈ __iter__ σ self)
   then ∃ before sequence after l1 l2,
          self = before ++ sequence :: after
          ∧ (∀ b, b ∈ before → item ∉ deref σ b)
          ∧ deref σ sequence = l1 ++ item :: l2 ∧ (item ∉ l1)
          ∧ remove σ self item = Ok (<[sequence := l1 ++ l2]> σ)
          ∧ (NoDup self →
             __iter__ σ self = __iter__ σ before ++ l1 ++ item :: l2 ++ __iter__ σ after
             ∧ (item ∉ __iter__ σ before ++ l1)
             ∧ __iter__ (<[sequence := l1 ++ l2]> σ) self
               = __iter__ σ before ++ l1 ++ l2 ++ __iter__ σ after)
   else remove σ self item = (msg ← not_in_list item; Raise (ValueError msg)))
  ∧ count σ self item = list_count (__iter__ σ self) item
  ∧ match last self with
    | None => append σ self item = Raise IndexError
    | Some sequence =>
        append σ self item = Ok (<[sequence := deref σ sequence ++ [item]]> σ)
        ∧ (NoDup self →
           __iter__ (<[sequence := deref σ sequence ++ [item]]> σ) self
           = __iter__ σ self ++ [item])
    end.
Proof.
  split; [|split].
  - pose proof (remove_spec σ self item) as Hspec.
    destruct (decide (item ∈ __iter__ σ self)) as [Hin|Hin]; [|done].
    destruct Hspec as (before & a & after & l1 & l2 & -> & Hbefore & Ha & Hnot & Hrem).
    exists before, a, after, l1, l2. repeat (split; [done|]).
    intros Hnd. apply NoDup_app in Hnd as (_ & Hdisj & Hnd).
    apply NoDup_cons in Hnd as [Hafter _].
    assert (a ∉ before) as Hnotbefore.
    { intros Hb. apply (Hdisj a Hb). by left. }
    rewrite iter_insert by done. rewrite iter_split, Ha.
    rewrite <- !app_assoc. split; [done|]. split; [|done].
    rewrite elem_of_app. intros [Hb|Hl]; [|done].
    apply elem_of_view in Hb as (b & Hb & Hitem). by apply (Hbefore b).
  - induction self as [|s self IH]; [done|].
    unfold count, __iter__, CombinedSequence.__iter__ in *.
    cbn [fmap list_fmap foldr concat]. by rewrite IH, list_count_app.
  - unfold append, extend.
    destruct self as [|s self _] using rev_ind; [done|].
    rewrite last_snoc.
    assert (list_getitem (self ++ [s]) (-1) = Ok s) as ->.
    { unfold list_getitem. cbv zeta. rewrite length_app. simpl.
      destruct (decide (-1 < 0)) as [_|]; [|lia].
      rewrite decide_True by lia.
      replace (Z.to_nat (-1 + Z.of_nat (length self + 1))) with (length self) by lia.
      by rewrite lookup_app_r, Nat.sub_diag by lia. }
    simpl. split; [done|]. intros Hnd.
    apply NoDup_app in Hnd as (_ & Hdisj & _).
    assert (s ∉ self) as Hnot.
    { intros Hs. apply (Hdisj s Hs). by left. }
    rewrite iter_insert by (done || apply not_elem_of_nil). rewrite iter_split.
    assert (__iter__ σ [] = []) as -> by done.
    by rewrite !app_nil_r, app_assoc.
Qed.

End combinedlist.

(** [a = [1, 2]] held twice, as in [CombinedList([a, a])]; the formatting
    of an integer item gives its text. *)
Definition shared : gmap positive (list Z) := {[ 1%positive := [1; 2] ]}.
Definition twice : list positive := [1%positive; 1%positive].

(** Removing 1 from the view over the same list twice changes the list,
    and with it both places of the view; appending 3 shows twice as well. *)
Example remove_from_shared_list :
  __iter__ shared twice = [1; 2; 1; 2]
  ∧ (∃ σ, remove (λ item, Ok (pretty item +:+ " not in list")) shared twice 1 = Ok σ
          ∧ __iter__ σ twice = [2; 2])
  ∧ (∃ σ, append shared twice 3 = Ok σ ∧ __iter__ σ twice = [1; 2; 3; 1; 2; 3]).
Proof.
  split; [by vm_compute|]. split; eexists; (split; [reflexivity|by vm_compute]).
Qed.

End CombinedList.
